(** * HarborGuard: scan scheduling and lifecycle

    A shallow embedding of the scan orchestration core of HarborGuard:

    - [ScannerService] (src/lib/scanner/ScannerService.ts): the job registry
      and state machine over the process-wide [globalJobs] map;
    - [BulkScanService]: the bulk batch orchestrator with its exclude-pattern
      matching;
    - [ScanQueue]: the bounded priority queue the two services talk to;
    - [RescanRoute] and [ScheduledScanRoute]: the two routes that, next to
      the bulk orchestrator, request scans from the service.

    The code is asynchronous and single-threaded.  A function runs until it
    awaits an external collaborator; the result of every such await (the
    persistence layer, the scan executor, the notification service) is an
    explicit argument of the function that models the code after the await,
    of type [Result]: the call returned, or threw a value whose message is
    the carried string.  Calls made to collaborators are recorded in logs
    kept in the state, so that "how many times was [completeScan] called
    for this request" is a question about the state.

    The one await at which other work is let in is the executor call of
    [executeScan], which lasts as long as the scan: a scan that was started
    stays in the state as a suspended execution until its executor call
    settles, and scans can be started and cancelled meanwhile.  The short
    awaits of the database inside [startScan], [cancelScan], [finalizeScan]
    and the catch block are not split: each of these runs as one step, and
    so do the loops of the orchestrator and of the routes. *)

From stdpp Require Import gmap strings list fin_maps sorting.
From Stdlib Require Import ZArith Ascii.

Local Open Scope Z_scope.

(** ** Values thrown and returned *)

(** The outcome of an awaited call.  A thrown value is kept as the message
    the code extracts from it:
    [error instanceof Error ? error.message : String(error)]. *)
Inductive Result (A : Type) : Type :=
| Ok (a : A)
| Throw (msg : string).
Arguments Ok {A} a.
Arguments Throw {A} msg.

(** JavaScript truthiness of an optional string: [undefined] and the empty
    string are falsy. *)
Definition truthy (s : option string) : bool :=
  match s with
  | Some EmptyString => false
  | Some _ => true
  | None => false
  end.

(** ** Data model *)

Inductive ScanStatus : Type := PENDING | RUNNING | SUCCESS | FAILED | CANCELLED.

#[global] Instance ScanStatus_eq_dec : EqDecision ScanStatus.
Proof. solve_decision. Defined.

Definition terminal (s : ScanStatus) : bool :=
  match s with
  | SUCCESS | FAILED | CANCELLED => true
  | PENDING | RUNNING => false
  end.

(** [ScanRequest]: the fields the orchestration reads.  The scanner
    selection is passed through to the executor untouched and is left out. *)
Record ScanRequest : Type := mkScanRequest {
  image : string;
  tag : string;
  source : option string;
  tarPath : option string
}.

Record ScanJob : Type := mkScanJob {
  requestId : string;
  scanId : string;
  imageId : string;
  status : ScanStatus;
  progress : Z;
  error : option string
}.

(** [ScanProgressEvent], without its wall-clock timestamp. *)
Record ScanProgressEvent : Type := mkEvent {
  ev_requestId : string;
  ev_scanId : string;
  ev_status : ScanStatus;
  ev_progress : Z;
  ev_step : option string;
  ev_error : option string
}.

(** A row of the image inventory as [findMatchingImages] selects it. *)
Record Image : Type := mkImage {
  img_id : string;
  img_name : string;
  img_tag : string;
  img_source : string;
  img_digest : option string
}.

(** ** Exclude patterns: glob to anchored regular expression *)

Module Glob.

(** [s.replace(/c/g, by)] for a one-character pattern. *)
Fixpoint replaceAll (c : ascii) (by_ : string) (s : string) : string :=
  match s with
  | EmptyString => EmptyString
  | String x s' =>
      if decide (x = c) then String.append by_ (replaceAll c by_ s')
      else String x (replaceAll c by_ s')
  end.

(** [pattern.replace(/\*/g, '.*').replace(/\?/g, '.')] *)
Definition regexPattern (pattern : string) : string :=
  replaceAll "?"%char "." (replaceAll "*"%char ".*" pattern).

(** The fragment of regular expression syntax that can come out of
    [regexPattern] when the pattern holds no other metacharacter: a
    sequence of atoms, each possibly starred. *)
Inductive Atom : Type := Lit (c : ascii) | AnyChar.

Definition Regex : Type := list (Atom * bool).

(** Characters with a meaning of their own in a regular expression that
    the fragment does not cover. *)
Definition unsupported (c : ascii) : bool :=
  bool_decide (c ∈ ["\"; "^"; "$"; "+"; "?"; "("; ")"; "["; "]"; "{"; "}"; "|"]%char).

Definition atom_of (c : ascii) : Atom :=
  if decide (c = "."%char) then AnyChar else Lit c.

(** [new RegExp(`^${src}$`)]: [None] when the constructor throws a
    SyntaxError (a star with nothing to repeat) or when [src] leaves the
    fragment.  The two anchors are accounted for in [test], which matches
    the whole string. *)
Fixpoint RegExp (src : string) : option Regex :=
  match src with
  | EmptyString => Some []
  | String c rest =>
      if unsupported c || bool_decide (c = "*"%char) then None
      else
        match rest with
        | String "*"%char rest' => r ← RegExp rest'; Some ((atom_of c, true) :: r)
        | _ => r ← RegExp rest; Some ((atom_of c, false) :: r)
        end
  end.

(** A dot matches any character but a line terminator. *)
Definition line_terminator (c : ascii) : bool :=
  bool_decide (c = "010"%char) || bool_decide (c = "013"%char).

Definition atom_matches (a : Atom) (c : ascii) : bool :=
  match a with
  | Lit x => bool_decide (x = c)
  | AnyChar => negb (line_terminator c)
  end.

(** [regex.test(s)] for an expression anchored at both ends. *)
Fixpoint test (r : Regex) (s : string) : bool :=
  match r with
  | [] => match s with EmptyString => true | _ => false end
  | (a, false) :: r' =>
      match s with
      | String c s' => atom_matches a c && test r' s'
      | EmptyString => false
      end
  | (a, true) :: r' =>
      (fix star (s : string) : bool :=
         test r' s ||
         match s with
         | String c s' => atom_matches a c && star s'
         | EmptyString => false
         end) s
  end.

(** What the expression compiled from a pattern accepts, computed on the
    pattern itself: [regexPattern] turns [*] into [.*] and [?] into [.]
    and escapes nothing, so a star accepts any run of characters and a
    question mark or a dot of the pattern any one character, line
    terminators excepted; every other character accepts itself.  It is
    used in proofs only, and related to [RegExp] and [test] below. *)
Fixpoint compiled_match (p : string) (s : string) : bool :=
  match p with
  | EmptyString => match s with EmptyString => true | _ => false end
  | String x p' =>
      if decide (x = "*"%char) then
        (fix run (s : string) : bool :=
           compiled_match p' s ||
           match s with
           | String c s' => negb (line_terminator c) && run s'
           | EmptyString => false
           end) s
      else
        match s with
        | String c s' =>
            (if decide (x = "?"%char) then negb (line_terminator c)
             else atom_matches (atom_of x) c) && compiled_match p' s'
        | EmptyString => false
        end
  end.

(** A pattern made of [*], [?] and characters that are not regular
    expression operators. *)
Fixpoint plain_glob (p : string) : bool :=
  match p with
  | EmptyString => true
  | String x p' =>
      (bool_decide (x = "*"%char) || bool_decide (x = "?"%char) || negb (unsupported x))
      && plain_glob p'
  end.

Definition starts_with_star (s : string) : bool :=
  match s with
  | String c _ => bool_decide (c = "*"%char)
  | EmptyString => false
  end.




End Glob.

(** ** The bounded priority queue *)

(** An entry of the queue: the payload [startScan] hands over, the priority
    and the arrival stamp ("QueuedScan" in section 3 of the specification). *)
Record QueuedScan : Type := mkQueuedScan {
  q_requestId : string;
  q_scanId : string;
  q_imageId : string;
  q_request : ScanRequest;
  q_priority : Z;
  q_enqueuedAt : nat
}.

Module ScanQueue.

(** Modelled from the spec: the queue itself (src/lib/scanner/ScanQueue.ts)
    is not among the sources; only its callers are.  The state and the
    operations below follow section 4.1 of the specification: a
    concurrency limit, the running entries, the waiting entries in start
    order, and a counter that stamps arrivals. *)
Record t : Type := mk {
  limit : nat;
  running : list QueuedScan;
  pending : list QueuedScan;
  arrivals : nat
}.

(** Modelled from the spec: the queue before any submission. *)
Definition empty (limit : nat) : t :=
  {| limit := limit; running := []; pending := []; arrivals := 0 |}.

(** Modelled from the spec: the order of the waiting entries.  The
    specification gives two readings that disagree.  Section 8 has jobs
    of priority 0 start before jobs of priority -1, and the bulk
    orchestrator passes -1 under the comment "Use lower priority for bulk
    scans (0 = normal, -1 = bulk)"; sections 3 and 4.1 say "priority asc,
    lower sorts first".  [starts_before] follows the first reading, which
    the code of the caller supports: a larger priority value starts
    first, and within one priority the earlier arrival does. *)
Definition starts_before (a b : QueuedScan) : bool :=
  Z.ltb (q_priority b) (q_priority a)
  || (Z.eqb (q_priority a) (q_priority b) && Nat.ltb (q_enqueuedAt a) (q_enqueuedAt b)).

(** Modelled from the spec: the second reading, word for word:
    "(priority asc, enqueuedAt asc)", "lower sorts first". *)
Definition sorts_before_asc (a b : QueuedScan) : bool :=
  Z.ltb (q_priority a) (q_priority b)
  || (Z.eqb (q_priority a) (q_priority b) && Nat.ltb (q_enqueuedAt a) (q_enqueuedAt b)).

(** Modelled from the spec: "[a] is not after [b]" in each of the two
    orders, as relations. *)
Definition in_start_order (a b : QueuedScan) : Prop :=
  q_priority b < q_priority a
  ∨ (q_priority a = q_priority b ∧ (q_enqueuedAt a ≤ q_enqueuedAt b)%nat).

Definition in_asc_order (a b : QueuedScan) : Prop :=
  q_priority a < q_priority b
  ∨ (q_priority a = q_priority b ∧ (q_enqueuedAt a ≤ q_enqueuedAt b)%nat).

(** Modelled from the spec: insertion of one entry into the waiting
    entries, kept in the order [before]. *)
Fixpoint insert_by (before : QueuedScan -> QueuedScan -> bool)
    (x : QueuedScan) (l : list QueuedScan) : list QueuedScan :=
  match l with
  | [] => [x]
  | e :: l' => if before x e then x :: e :: l' else e :: insert_by before x l'
  end.

(** Modelled from the spec: membership in, and removal from, the entries
    of the queue by request id. *)
Definition is_pending (q : t) (rid : string) : bool :=
  bool_decide (rid ∈ map q_requestId (pending q)).

Definition is_running (q : t) (rid : string) : bool :=
  bool_decide (rid ∈ map q_requestId (running q)).

Definition without (rid : string) (l : list QueuedScan) : list QueuedScan :=
  filter (fun e => q_requestId e ≠ rid) l.

(** Modelled from the spec: "enqueue(job, priority): inserts a pending
    job; if running-count < limit, it is dequeued immediately and a
    started signal fires; otherwise it waits".  The second component is
    the entry the "scan-started" signal fires for, if any.  A missing
    priority is 0, the interactive tier. *)
Definition addToQueue_by (before : QueuedScan -> QueuedScan -> bool) (q : t)
    (rid sid iid : string) (req : ScanRequest) (priority : option Z)
  : t * option QueuedScan :=
  let e := {| q_requestId := rid; q_scanId := sid; q_imageId := iid;
              q_request := req; q_priority := default 0 priority;
              q_enqueuedAt := arrivals q |} in
  if Nat.ltb (length (running q)) (limit q) then
    ({| limit := limit q; running := running q ++ [e];
        pending := pending q; arrivals := S (arrivals q) |}, Some e)
  else
    ({| limit := limit q; running := running q;
        pending := insert_by before e (pending q);
        arrivals := S (arrivals q) |}, None).

(** Modelled from the spec: [addToQueue] in the order of [starts_before]. *)
Definition addToQueue := addToQueue_by starts_before.

(** Modelled from the spec: "completeScan(requestId, error?): releases a
    running slot; if pending jobs exist, promotes the next eligible one
    and fires started".  The running count never exceeds the limit
    (section 3), so promotion happens only below the limit. *)
Definition completeScan (q : t) (rid : string) : t * option QueuedScan :=
  let running' := without rid (running q) in
  match pending q with
  | e :: rest =>
      if Nat.ltb (length running') (limit q) then
        ({| limit := limit q; running := running' ++ [e];
            pending := rest; arrivals := arrivals q |}, Some e)
      else
        ({| limit := limit q; running := running';
            pending := pending q; arrivals := arrivals q |}, None)
  | [] =>
      ({| limit := limit q; running := running';
          pending := []; arrivals := arrivals q |}, None)
  end.

(** Modelled from the spec: "cancelQueuedScan(requestId): removes a
    not-yet-started job; returns false if already running or unknown". *)
Definition cancelQueuedScan (q : t) (rid : string) : t * bool :=
  if is_pending q rid then
    ({| limit := limit q; running := running q;
        pending := without rid (pending q); arrivals := arrivals q |}, true)
  else (q, false).

(** Modelled from the spec: the 1-based rank of a request in a list of
    entries, 0 when it is not there. *)
Fixpoint rank (rid : string) (l : list QueuedScan) : nat :=
  match l with
  | [] => 0
  | e :: l' =>
      if decide (q_requestId e = rid) then 1
      else match rank rid l' with
           | O => 0
           | S n => S (S n)
           end
  end%nat.

(** Modelled from the spec: "getQueuePosition(requestId): 1-based rank
    among pending jobs; 0 if not pending". *)
Definition getQueuePosition (q : t) (rid : string) : nat := rank rid (pending q).

(** Modelled from the spec: "getStats(): {queued, running, limit}". *)
Definition getStats (q : t) : nat * nat * nat :=
  (length (pending q), length (running q), limit q).

(** The order in which a list of waiting entries is started when slots
    free up one after another. *)
Definition start_order (q : t) : list string := map q_requestId (pending q).

End ScanQueue.

(** ** Scan reports and severity counts *)

Record TrivyVulnerability : Type := { Severity : option string }.
Record TrivyResult : Type := { Vulnerabilities : option (list TrivyVulnerability) }.
Record TrivyReport : Type := { Results : option (list TrivyResult) }.
(** [match.vulnerability?.severity] *)
Record GrypeMatch : Type := { vulnerability_severity : option string }.
Record GrypeReport : Type := { matches : option (list GrypeMatch) }.
Record Metadata : Type := { scannerVersions : option string }.

(** The reports of one scan, keyed by tool name; only the two tools whose
    findings are counted and the metadata entry are kept. *)
Record Reports : Type := mkReports {
  trivy : option TrivyReport;
  grype : option GrypeReport;
  metadata : option Metadata
}.

Record Counts : Type := mkCounts {
  critical : nat;
  high : nat;
  medium : nat;
  low : nat
}.

Definition upper_char (c : ascii) : ascii :=
  let n := nat_of_ascii c in
  if Nat.leb 97 n && Nat.leb n 122 then ascii_of_nat (n - 32) else c.

Fixpoint toUpperCase (s : string) : string :=
  match s with
  | EmptyString => EmptyString
  | String c s' => String (upper_char c) (toUpperCase s')
  end.

(** The [switch (severity)] of [calculateVulnerabilityCounts]. *)
Definition count_severity (severity : string) (c : Counts) : Counts :=
  if decide (severity = "CRITICAL") then
    mkCounts (S (critical c)) (high c) (medium c) (low c)
  else if decide (severity = "HIGH") then
    mkCounts (critical c) (S (high c)) (medium c) (low c)
  else if decide (severity = "MEDIUM") then
    mkCounts (critical c) (high c) (S (medium c)) (low c)
  else if decide (severity = "LOW") then
    mkCounts (critical c) (high c) (medium c) (S (low c))
  else c.

(** [(x || fallback)] on an optional string. *)
Definition or_else (x : option string) (fallback : string) : string :=
  match x with
  | Some s => if truthy x then s else fallback
  | None => fallback
  end.

Definition count_trivy (r : TrivyReport) (c : Counts) : Counts :=
  match Results r with
  | Some results =>
      foldl (fun c result =>
               match Vulnerabilities result with
               | Some vulns =>
                   foldl (fun c vuln =>
                            count_severity (toUpperCase (or_else (Severity vuln) "UNKNOWN")) c)
                         c vulns
               | None => c
               end) c results
  | None => c
  end.

Definition count_grype (r : GrypeReport) (c : Counts) : Counts :=
  match matches r with
  | Some ms =>
      foldl (fun c m =>
               count_severity (toUpperCase (or_else (vulnerability_severity m) "Unknown")) c)
            c ms
  | None => c
  end.

Definition calculateVulnerabilityCounts (reports : Reports) : Counts :=
  let c0 := mkCounts 0 0 0 0 in
  let c1 := match trivy reports with Some r => count_trivy r c0 | None => c0 end in
  match grype reports with Some r => count_grype r c1 | None => c1 end.

(** ** The job registry and its state machine *)

(** Which executor entry point [executeScan] awaits. *)
Inductive Dispatch : Type := TarScan | LocalDockerScan | RegistryScan.

(** A call of [executeScan] suspended at its executor await. *)
Record Exec : Type := mkExec {
  x_requestId : string;
  x_request : ScanRequest;
  x_scanId : string;
  x_imageId : string;
  x_dispatch : Dispatch
}.

(** Calls received by the progress tracker. *)
Inductive TrackerCall : Type :=
| SimulateDownloadProgress (rid : string)
| SimulateScanningProgress (rid : string)
| Cleanup (rid : string)
| EmitProgress (e : ScanProgressEvent).

(** Calls of the database adapter that returned.  [finishedAt] is kept as
    a flag: set or not. *)
Inductive DbCall : Type :=
| InitializeScanRecord (rid : string) (request : ScanRequest) (sid iid : string)
| UpdateScanRecord (sid : string) (st : ScanStatus) (errorMessage : option string)
    (finishedAt : bool)
| UploadScanResults (sid : string) (reports : Reports).

(** What the executor and the collaborators of [finalizeScan] answer. *)
Record Finalize : Type := mkFinalize {
  loadScanResults : Result Reports;
  getScannerVersions : Result string;
  uploadScanResults : Result unit;
  notifyScanComplete : Result unit
}.

Record StartResult : Type := mkStartResult {
  r_requestId : string;
  r_scanId : string;
  r_queued : bool;
  r_queuePosition : option nat
}.

Module ScannerService.

(** The state the service works on: the process-wide job map, the queue,
    the suspended executions, and the calls received by the
    collaborators, oldest first. *)
Record World : Type := mkWorld {
  globalJobs : gmap string ScanJob;
  scanQueue : ScanQueue.t;
  inflight : list Exec;
  released : list (string * option string);
  database : list DbCall;
  tracker : list TrackerCall;
  notifications : list (string * string * Counts)
}.

Definition init (limit : nat) : World :=
  mkWorld ∅ (ScanQueue.empty limit) [] [] [] [] [].

Definition with_jobs (w : World) (j : gmap string ScanJob) : World :=
  mkWorld j (scanQueue w) (inflight w) (released w) (database w) (tracker w)
    (notifications w).
Definition with_queue (w : World) (q : ScanQueue.t) : World :=
  mkWorld (globalJobs w) q (inflight w) (released w) (database w) (tracker w)
    (notifications w).
Definition with_inflight (w : World) (l : list Exec) : World :=
  mkWorld (globalJobs w) (scanQueue w) l (released w) (database w) (tracker w)
    (notifications w).
Definition release (w : World) (rid : string) (err : option string) : World :=
  mkWorld (globalJobs w) (scanQueue w) (inflight w) (released w ++ [(rid, err)])
    (database w) (tracker w) (notifications w).
Definition persist (w : World) (c : DbCall) : World :=
  mkWorld (globalJobs w) (scanQueue w) (inflight w) (released w)
    (database w ++ [c]) (tracker w) (notifications w).
Definition track (w : World) (c : TrackerCall) : World :=
  mkWorld (globalJobs w) (scanQueue w) (inflight w) (released w) (database w)
    (tracker w ++ [c]) (notifications w).
Definition notify (w : World) (n : string * string * Counts) : World :=
  mkWorld (globalJobs w) (scanQueue w) (inflight w) (released w) (database w)
    (tracker w) (notifications w ++ [n]).

Definition set_status (job : ScanJob) (st : ScanStatus) : ScanJob :=
  mkScanJob (requestId job) (scanId job) (imageId job) st (progress job) (error job).

(** [job.progress || 0]: zero is the only falsy number a job holds. *)
Definition or_zero (p : Z) : Z := if Z.eqb p 0 then 0 else p.

Definition updateJobStatus (w : World) (rid : string) (st : ScanStatus)
    (progress_ : option Z) (error_ : option string) (step : option string) : World :=
  match globalJobs w !! rid with
  | Some job =>
      let job' :=
        mkScanJob (requestId job) (scanId job) (imageId job) st
          (match progress_ with Some p => p | None => progress job end)
          (if truthy error_ then error_ else error job) in
      let w1 := with_jobs w (<[rid := job']> (globalJobs w)) in
      match st with
      | RUNNING | SUCCESS | FAILED | CANCELLED =>
          track w1 (EmitProgress
            (mkEvent rid (scanId job') st
               (match progress_ with Some p => p | None => or_zero (progress job') end)
               step error_))
      | PENDING => w1
      end
  | None => w
  end.

Definition isLocalDockerScan (request : ScanRequest) : bool :=
  bool_decide (source request = Some "local").

Definition shouldSimulateDownload (request : ScanRequest) : bool :=
  negb (bool_decide (source request = Some "local"))
  && negb (bool_decide (source request = Some "tar")).

Definition suspend (w : World) (x : Exec) : World :=
  with_inflight w (inflight w ++ [x]).

(** [executeScan] from its entry to the executor call it awaits. *)
Definition executeScan_begin (w : World) (rid : string) (request : ScanRequest)
    (sid iid : string) : World :=
  if bool_decide (source request = Some "tar") && truthy (tarPath request) then
    suspend w (mkExec rid request sid iid TarScan)
  else if isLocalDockerScan request then
    suspend w (mkExec rid request sid iid LocalDockerScan)
  else
    let w1 := if shouldSimulateDownload request
              then track w (SimulateDownloadProgress rid) else w in
    let w2 := track w1 (SimulateScanningProgress rid) in
    suspend w2 (mkExec rid request sid iid RegistryScan).

(** The "scan-started" listener, up to the suspension of [executeScan]. *)
Definition scanStartedListener (w : World) (queuedScan : QueuedScan) : World :=
  let rid := q_requestId queuedScan in
  let w1 :=
    match globalJobs w !! rid with
    | Some job => with_jobs w (<[rid := set_status job RUNNING]> (globalJobs w))
    | None => w
    end in
  executeScan_begin w1 rid (q_request queuedScan) (q_scanId queuedScan)
    (q_imageId queuedScan).

Definition fire (w : World) (started : option QueuedScan) : World :=
  match started with
  | Some queuedScan => scanStartedListener w queuedScan
  | None => w
  end.

(** [scanQueue.completeScan(requestId, error)], with the listener run for
    the entry the queue promotes. *)
Definition completeScan (w : World) (rid : string) (err : option string) : World :=
  let '(q, started) := ScanQueue.completeScan (scanQueue w) rid in
  fire (with_queue (release w rid err) q) started.

Definition attach_versions (reports : Reports) (versions : string) : Reports :=
  mkReports (trivy reports) (grype reports) (Some {| scannerVersions := Some versions |}).

Definition finalizeScan (w : World) (rid sid : string) (request : ScanRequest)
    (fin : Finalize) : World * Result unit :=
  let w1 := updateJobStatus w rid RUNNING (Some 90) None (Some "Processing scan results") in
  match loadScanResults fin with
  | Throw m => (w1, Throw m)
  | Ok reports0 =>
  match getScannerVersions fin with
  | Throw m => (w1, Throw m)
  | Ok versions =>
  let reports := attach_versions reports0 versions in
  match uploadScanResults fin with
  | Throw m => (w1, Throw m)
  | Ok _ =>
  let w2 := persist w1 (UploadScanResults sid reports) in
  let counts := calculateVulnerabilityCounts reports in
  let notified :=
    if Nat.ltb 0 (critical counts) || Nat.ltb 0 (high counts) then
      match notifyScanComplete fin with
      | Throw m => Throw m
      | Ok _ => Ok (notify w2 (image request +:+ ":" +:+ tag request, sid, counts))
      end
    else Ok w2 in
  match notified with
  | Throw m => (w2, Throw m)
  | Ok w3 =>
  let w4 := updateJobStatus w3 rid SUCCESS (Some 100) None
              (Some "Scan completed successfully") in
  (completeScan w4 rid None, Ok tt)
  end end end end.

(** The [catch] block of [executeScan].  [update] is the outcome of the
    database update it awaits.  The block always ends by throwing: the
    error it caught, or what the update threw.  The message thrown is the
    second component. *)
Definition executeScan_catch (w : World) (x : Exec) (errorMessage : string)
    (update : Result unit) : World * string :=
  let rid := x_requestId x in
  let w2 := track w (Cleanup rid) in
  match update with
  | Throw m => (w2, m)
  | Ok _ =>
      let w3 := persist w2 (UpdateScanRecord (x_scanId x) FAILED
                              (Some errorMessage) true) in
      (updateJobStatus w3 rid FAILED None (Some errorMessage) None, errorMessage)
  end.

(** [executeScan] from the moment its executor call settles: the rest of
    the [try] block, then the [catch] block if something was thrown. *)
Definition executeScan_resume (w : World) (x : Exec) (dispatch : Result unit)
    (fin : Finalize) (update : Result unit) : World * Result unit :=
  let '(w1, r) :=
    match dispatch with
    | Ok _ => finalizeScan w (x_requestId x) (x_scanId x) (x_request x) fin
    | Throw m => (w, Throw m)
    end in
  match r with
  | Ok _ => (w1, Ok tt)
  | Throw errorMessage =>
      let '(w2, m) := executeScan_catch w1 x errorMessage update in
      (w2, Throw m)
  end.

(** The [.catch] handler the listener attaches to [executeScan]. *)
Definition scanStartedListener_catch (w : World) (rid : string)
    (errorMessage : string) : World :=
  completeScan (updateJobStatus w rid FAILED None (Some errorMessage) None)
    rid (Some errorMessage).

(** The executor call of a suspended execution settles. *)
Definition settle (w : World) (x : Exec) (dispatch : Result unit)
    (fin : Finalize) (update : Result unit) : World :=
  match executeScan_resume w x dispatch fin update with
  | (w1, Ok _) => w1
  | (w1, Throw m) => scanStartedListener_catch w1 (x_requestId x) m
  end.

(** [startScan], given the request id it generated and the outcomes of
    the two database calls it may await. *)
Definition startScan (w : World) (rid : string) (request : ScanRequest)
    (priority : option Z) (initialize : Result (string * string))
    (update : Result unit) : World * Result StartResult :=
  match initialize with
  | Throw m => (w, Throw m)
  | Ok (sid, iid) =>
      let w0 := persist w (InitializeScanRecord rid request sid iid) in
      let job := mkScanJob rid sid iid PENDING 0 None in
      let w1 := with_jobs w0 (<[rid := job]> (globalJobs w0)) in
      let '(q, started) :=
        ScanQueue.addToQueue (scanQueue w1) rid sid iid request priority in
      let w2 := fire (with_queue w1 q) started in
      let queuePosition := ScanQueue.getQueuePosition (scanQueue w2) rid in
      let queued := Nat.ltb 0 queuePosition in
      if queued then
        match update with
        | Throw m => (w2, Throw m)
        | Ok _ =>
            (persist w2 (UpdateScanRecord sid PENDING None false),
             Ok (mkStartResult rid sid true (Some queuePosition)))
        end
      else (w2, Ok (mkStartResult rid sid false None))
  end.

Definition cancelScan (w : World) (rid : string) (update : Result unit)
  : World * Result bool :=
  let '(q, cancelled) := ScanQueue.cancelQueuedScan (scanQueue w) rid in
  if cancelled then
    let w0 := with_queue w q in
    match globalJobs w0 !! rid with
    | Some job =>
        let w1 := updateJobStatus w0 rid CANCELLED None None None in
        match update with
        | Throw m => (w1, Throw m)
        | Ok _ => (persist w1 (UpdateScanRecord (scanId job) CANCELLED None true), Ok true)
        end
    | None => (w0, Ok true)
    end
  else
    match globalJobs w !! rid with
    | Some job =>
        if decide (status job = RUNNING) then
          let w1 := track w (Cleanup rid) in
          let w2 := updateJobStatus w1 rid CANCELLED None None None in
          match update with
          | Throw m => (w2, Throw m)
          | Ok _ =>
              let w3 := persist w2 (UpdateScanRecord (scanId job) CANCELLED None true) in
              (completeScan w3 rid (Some "Cancelled by user"), Ok true)
          end
        else (w, Ok false)
    | None => (w, Ok false)
    end.

Definition getScanJob (w : World) (rid : string) : option ScanJob :=
  globalJobs w !! rid.

Definition getQueuePosition (w : World) (rid : string) : nat :=
  ScanQueue.getQueuePosition (scanQueue w) rid.

(** How many times [completeScan] was called for a request. *)
Definition release_count (w : World) (rid : string) : nat :=
  length (filter (fun p => p.1 = rid) (released w)).

Definition status_of (w : World) (rid : string) : option ScanStatus :=
  status <$> globalJobs w !! rid.

(** *** Runs *)

(** What can happen to the service: a caller starts or cancels a scan,
    or the executor call of a suspended execution settles. *)
Inductive Event : Type :=
| StartScan (rid : string) (request : ScanRequest) (priority : option Z)
    (initialize : Result (string * string)) (update : Result unit)
| Settle (rid : string) (dispatch : Result unit) (fin : Finalize)
    (update : Result unit)
| CancelScan (rid : string) (update : Result unit).

Fixpoint take_exec (rid : string) (l : list Exec) : option (Exec * list Exec) :=
  match l with
  | [] => None
  | x :: l' =>
      if decide (x_requestId x = rid) then Some (x, l')
      else '(y, rest) ← take_exec rid l'; Some (y, x :: rest)
  end.

(** One event.  [None] when the event cannot occur: request ids are
    never reused, and only a suspended execution can settle. *)
Definition step (w : World) (e : Event) : option World :=
  match e with
  | StartScan rid request priority initialize update =>
      match globalJobs w !! rid with
      | None => Some (startScan w rid request priority initialize update).1
      | Some _ => None
      end
  | Settle rid dispatch fin update =>
      '(x, rest) ← take_exec rid (inflight w);
      Some (settle (with_inflight w rest) x dispatch fin update)
  | CancelScan rid update => Some (cancelScan w rid update).1
  end.

Fixpoint run (w : World) (events : list Event) : option World :=
  match events with
  | [] => Some w
  | e :: events' => w' ← step w e; run w' events'
  end.

Definition reachable (w : World) : Prop :=
  ∃ limit events, run (init limit) events = Some w.

(** What a caller sees of a request after a run from the initial state:
    the status of its job, the error recorded on it, and how often its
    slot was released. *)
Definition observe (limit : nat) (events : list Event) (rid : string)
  : option (option ScanStatus * option string * nat) :=
  (λ w, (status_of w rid, globalJobs w !! rid ≫= error, release_count w rid))
    <$> run (init limit) events.

(** *** Notions used to state the properties *)

Definition pending_ids (w : World) : list string :=
  map q_requestId (ScanQueue.pending (scanQueue w)).

(** How many executions of a request are suspended. *)
Definition inflight_count (w : World) (rid : string) : nat :=
  length (filter (fun x => x_requestId x = rid) (inflight w)).

(** The request an event is about. *)
Definition target (e : Event) : string :=
  match e with
  | StartScan rid _ _ _ _ | Settle rid _ _ _ | CancelScan rid _ => rid
  end.

(** The event is a cancellation of the request. *)
Definition cancels (rid : string) (e : Event) : bool :=
  match e with
  | CancelScan r _ => bool_decide (r = rid)
  | _ => false
  end.

(** The event is the settling of the executor call of the request. *)
Definition settles (rid : string) (e : Event) : bool :=
  match e with
  | Settle r _ _ _ => bool_decide (r = rid)
  | _ => false
  end.

(** The consistency of the job map with the queue and the suspended
    executions: a request waits at most once, every waiting request has a
    PENDING job, and every suspended execution has a job that has left
    PENDING. *)
Definition consistent (w : World) : Prop :=
  NoDup (pending_ids w)
  ∧ (∀ rid, rid ∈ pending_ids w → status_of w rid = Some PENDING)
  ∧ (∀ x, x ∈ inflight w →
       ∃ st, status_of w (x_requestId x) = Some st ∧ st ≠ PENDING).

(** One step forward along PENDING, RUNNING, then SUCCESS, FAILED or
    CANCELLED; a PENDING job can also be cancelled. *)
Definition forward (a b : ScanStatus) : bool :=
  match a, b with
  | PENDING, RUNNING | PENDING, CANCELLED
  | RUNNING, SUCCESS | RUNNING, FAILED | RUNNING, CANCELLED => true
  | _, _ => false
  end.

(** Between two states, nothing a caller sees of request [r] changed. *)
Definition unchanged_for (w w' : World) (r : string) : Prop :=
  status_of w' r = status_of w r
  ∧ inflight_count w' r = inflight_count w r
  ∧ release_count w' r = release_count w r.

(** Between two states, request [r] left the queue and was started. *)
Definition promoted_for (w w' : World) (r : string) : Prop :=
  r ∈ pending_ids w
  ∧ status_of w' r = Some RUNNING
  ∧ inflight_count w' r = S (inflight_count w r)
  ∧ release_count w' r = release_count w r.

Definition calm_for (w w' : World) (r : string) : Prop :=
  unchanged_for w w' r ∨ promoted_for w w' r.

(** The slot accounting of a request that was never cancelled: nothing
    is released before the job is terminal, one release after; one
    suspended execution exactly while the job is RUNNING. *)
Definition accounted (w : World) (r : string) : Prop :=
  match status_of w r with
  | None | Some PENDING => inflight_count w r = 0%nat ∧ release_count w r = 0%nat
  | Some RUNNING => inflight_count w r = 1%nat ∧ release_count w r = 0%nat
  | Some SUCCESS | Some FAILED => inflight_count w r = 0%nat ∧ release_count w r = 1%nat
  | Some CANCELLED => False
  end.

(** A finalize step one of whose awaited calls throws [m]. *)
Definition finalize_throws (fin : Finalize) (m : string) : Prop :=
  loadScanResults fin = Throw m
  ∨ (∃ reports, loadScanResults fin = Ok reports
       ∧ (getScannerVersions fin = Throw m
          ∨ ∃ versions, getScannerVersions fin = Ok versions
              ∧ (uploadScanResults fin = Throw m
                 ∨ (uploadScanResults fin = Ok tt
                    ∧ notifyScanComplete fin = Throw m
                    ∧ let counts := calculateVulnerabilityCounts
                                      (attach_versions reports versions) in
                      (0 < critical counts ∨ 0 < high counts)%nat)))).

End ScannerService.

(** ** The bulk batch orchestrator *)

Record Patterns : Type := mkPatterns {
  imagePattern : option string;
  tagPattern : option string;
  registryPattern : option string;
  excludeTagPattern : option string
}.

(** [BulkScanRequestWithName]; of the options only [maxImages] steers the
    orchestration. *)
Record BulkScanRequest : Type := mkBulkScanRequest {
  patterns : Patterns;
  maxImages : option Z;
  name : option string
}.

Record BulkScanResult : Type := mkBulkScanResult {
  batchId : string;
  totalImages : nat;
  scanIds : list string;
  skipped : nat
}.

Inductive BatchStatus : Type := BATCH_RUNNING | BATCH_COMPLETED | BATCH_FAILED.

(** Rows of the three tables the orchestrator writes. *)
Record Batch : Type := mkBatch {
  b_name : option string;
  b_totalImages : nat;
  b_status : BatchStatus;
  b_patterns : Patterns;
  b_errorMessage : option string;
  b_completedAt : bool
}.

Record BulkScanItem : Type := mkItem {
  i_batchId : string;
  i_scanId : string;
  i_imageId : string;
  i_status : ScanStatus
}.

Record ScanRow : Type := mkScanRow {
  s_id : string;
  s_imageId : string;
  s_status : ScanStatus;
  s_source : string;
  s_errorMessage : option string
}.

(** The conditions [findMatchingImages] hands to the inventory query. *)
Inductive Where : Type :=
| NameContains (s : string)
| TagContains (s : string).

(** What the collaborators answer while one image of a batch is submitted:
    the request id [startScan] generates, its two database calls, the
    creation of the batch item, and in the failure branch the creation of
    the placeholder scan (answering its id) and of its batch item. *)
Record Submission : Type := mkSubmission {
  sub_requestId : string;
  sub_initialize : Result (string * string);
  sub_update : Result unit;
  sub_link : Result unit;
  sub_failedScan : Result string;
  sub_failedLink : Result unit
}.

Record Tally : Type := mkTally {
  t_scanIds : list string;
  successful : nat;
  failed : nat
}.

Module BulkScanService.

Record World : Type := mkWorld {
  service : ScannerService.World;
  bulkScanBatch : gmap string Batch;
  bulkScanItem : list BulkScanItem;
  scan : list ScanRow
}.

Definition with_service (bw : World) (w : ScannerService.World) : World :=
  mkWorld w (bulkScanBatch bw) (bulkScanItem bw) (scan bw).
Definition with_batches (bw : World) (b : gmap string Batch) : World :=
  mkWorld (service bw) b (bulkScanItem bw) (scan bw).
Definition add_item (bw : World) (i : BulkScanItem) : World :=
  mkWorld (service bw) (bulkScanBatch bw) (bulkScanItem bw ++ [i]) (scan bw).
Definition add_scan (bw : World) (s : ScanRow) : World :=
  mkWorld (service bw) (bulkScanBatch bw) (bulkScanItem bw) (scan bw ++ [s]).

Definition fullName (image : Image) : string :=
  img_name image +:+ ":" +:+ img_tag image.

(** [excludePatterns.some(pattern => regex.test(fullName))]: the patterns
    are compiled one after the other until one matches.  [None] when a
    pattern that is reached leaves the modelled fragment. *)
Fixpoint some_pattern_matches (excludePatterns : list string) (fullName : string)
  : option bool :=
  match excludePatterns with
  | [] => Some false
  | pattern :: more =>
      regex ← Glob.RegExp (Glob.regexPattern pattern);
      if Glob.test regex fullName then Some true
      else some_pattern_matches more fullName
  end.

Fixpoint filter_images (images : list Image) (excludePatterns : list string)
  : option (list Image) :=
  match images with
  | [] => Some []
  | image :: more =>
      excluded ← some_pattern_matches excludePatterns (fullName image);
      kept ← filter_images more excludePatterns;
      Some (if excluded : bool then kept else image :: kept)
  end.

Definition applyExcludePatterns (images : list Image)
    (excludePatterns : option (list string)) : option (list Image) :=
  match excludePatterns with
  | None | Some [] => Some images
  | Some ps => filter_images images ps
  end.

Definition whereConditions (p : Patterns) : list Where :=
  (if truthy (imagePattern p) then
     [NameContains (Glob.replaceAll "%"%char EmptyString
                      (Glob.replaceAll "*"%char "%" (default EmptyString (imagePattern p))))]
   else [])
  ++ (if truthy (tagPattern p) then
        [TagContains (Glob.replaceAll "%"%char EmptyString
                        (Glob.replaceAll "*"%char "%" (default EmptyString (tagPattern p))))]
      else []).

(** [findMatchingImages]; [findMany] is the inventory query, which
    answers the selected rows in name and tag order or throws. *)
Definition findMatchingImages (findMany : list Where → Result (list Image))
    (p : Patterns) (excludePatterns : option (list string))
  : option (Result (list Image)) :=
  match findMany (whereConditions p) with
  | Throw m => Some (Throw m)
  | Ok images => Ok <$> applyExcludePatterns images excludePatterns
  end.

(** [images.slice(0, n)] *)
Definition slice0 (images : list Image) (n : Z) : list Image :=
  if Z.ltb n 0 then take (Z.to_nat (Z.of_nat (length images) + n)) images
  else take (Z.to_nat n) images.

Definition limitImages (request : BulkScanRequest) (matching : list Image) : list Image :=
  match maxImages request with
  | Some n => if Z.eqb n 0 then matching else slice0 matching n
  | None => matching
  end.

(** [request.patterns.excludeTagPattern ? [excludeTagPattern] : undefined] *)
Definition excludePatterns (request : BulkScanRequest) : option (list string) :=
  if truthy (excludeTagPattern (patterns request))
  then Some [default EmptyString (excludeTagPattern (patterns request))]
  else None.

(** [executeBulkScan] up to its return.  [bid] is the batch id it
    generated, [create] the outcome of the creation of the batch record.
    On success the images left to the background loop are returned next
    to the result.  [None] only when an exclude pattern leaves the
    modelled fragment. *)
Definition executeBulkScan (bw : World) (findMany : list Where → Result (list Image))
    (request : BulkScanRequest) (bid : string) (create : Result unit)
  : option (World * Result (BulkScanResult * list Image)) :=
  found ← findMatchingImages findMany (patterns request) (excludePatterns request);
  Some
    match found with
    | Throw m => (bw, Throw m)
    | Ok matchingImages =>
        if Nat.eqb (length matchingImages) 0 then
          (bw, Throw "No images found matching the specified patterns")
        else
          let limitedImages := limitImages request matchingImages in
          match create with
          | Throw m => (bw, Throw m)
          | Ok _ =>
              let batch := mkBatch (name request) (length limitedImages) BATCH_RUNNING
                             (patterns request) None false in
              (with_batches bw (<[bid := batch]> (bulkScanBatch bw)),
               Ok (mkBulkScanResult bid (length limitedImages) [] 0, limitedImages))
          end
    end.

(** The [try] block of one turn of the loop of [executeQueuedScans]: the
    scan is started at bulk priority and linked to the batch.  It answers
    the scan id, or what was thrown. *)
Definition try_submit (bw : World) (bid : string) (image : Image) (o : Submission)
  : World * Result string :=
  let scanSource := if decide (img_source image = "LOCAL_DOCKER")
                    then "local" else "registry" in
  let scanRequest := mkScanRequest (img_name image) (img_tag image) (Some scanSource) None in
  let '(w, started) :=
    ScannerService.startScan (service bw) (sub_requestId o) scanRequest (Some (-1))
      (sub_initialize o) (sub_update o) in
  let bw1 := with_service bw w in
  match started with
  | Throw m => (bw1, Throw m)
  | Ok res =>
      match sub_link o with
      | Throw m => (bw1, Throw m)
      | Ok _ => (add_item bw1 (mkItem bid (r_scanId res) (img_id image) RUNNING),
                 Ok (r_scanId res))
      end
  end.

(** The [catch] block of the turn: the placeholder scan and its item,
    each creation guarded by the inner [try]. *)
Definition record_failure (bw : World) (bid : string) (image : Image) (o : Submission)
    (m : string) : World :=
  match sub_failedScan o with
  | Throw _ => bw
  | Ok fid =>
      let bw' := add_scan bw (mkScanRow fid (img_id image) FAILED "registry" (Some m)) in
      match sub_failedLink o with
      | Throw _ => bw'
      | Ok _ => add_item bw' (mkItem bid fid (img_id image) FAILED)
      end
  end.

(** One turn of the loop. *)
Definition submit_image (bw : World) (bid : string) (image : Image)
    (o : Submission) (acc : Tally) : World * Tally :=
  match try_submit bw bid image o with
  | (bw2, Ok sid) =>
      (bw2, mkTally (t_scanIds acc ++ [sid]) (S (successful acc)) (failed acc))
  | (bw2, Throw m) =>
      (record_failure bw2 bid image o m,
       mkTally (t_scanIds acc) (successful acc) (S (failed acc)))
  end.

Fixpoint submit_from (bw : World) (bid : string) (images : list Image) (i : nat)
    (outcome : nat → Submission) (acc : Tally) : World * Tally :=
  match images with
  | [] => (bw, acc)
  | image :: more =>
      let '(bw', acc') := submit_image bw bid image (outcome i) acc in
      submit_from bw' bid more (S i) outcome acc'
  end.

Definition executeQueuedScans (bw : World) (images : list Image) (bid : string)
    (outcome : nat → Submission) : World * Tally :=
  submit_from bw bid images 0 outcome (mkTally [] 0 0).

Definition set_batch_status (st : BatchStatus) (msg : option string) (b : Batch) : Batch :=
  mkBatch (b_name b) (b_totalImages b) st (b_patterns b)
    (match msg with Some _ => msg | None => b_errorMessage b end) true.

(** [queueScansInBackground]; [completed] and [failed_] are the outcomes
    of the two status updates of the batch record. *)
Definition queueScansInBackground (bw : World) (bid : string) (images : list Image)
    (outcome : nat → Submission) (completed failed_ : Result unit) : World :=
  let '(bw1, _) := executeQueuedScans bw images bid outcome in
  match completed with
  | Ok _ =>
      with_batches bw1 (alter (set_batch_status BATCH_COMPLETED None) bid (bulkScanBatch bw1))
  | Throw m =>
      match failed_ with
      | Ok _ =>
          with_batches bw1
            (alter (set_batch_status BATCH_FAILED (Some m)) bid (bulkScanBatch bw1))
      | Throw _ => bw1
      end
  end.

Definition batch_status (bw : World) (bid : string) : option BatchStatus :=
  b_status <$> bulkScanBatch bw !! bid.

(** The items of a batch, as [include: { items: ... }] joins them. *)
Definition items_of (bw : World) (bid : string) : list BulkScanItem :=
  filter (λ item, i_batchId item = bid) (bulkScanItem bw).

(** [items.filter(item => item.status === st).length] *)
Definition count_status (st : ScanStatus) (items : list BulkScanItem) : nat :=
  length (filter (λ item, i_status item = st) items).


Definition not_found (bid : string) : string :=
  "Bulk scan batch " +:+ bid +:+ " not found".

Definition not_running (bid : string) : string :=
  "Bulk scan batch " +:+ bid +:+ " is not running".


(** The loop of [cancelBulkScan] from its turn [i] on.  [requestIdOf] is
    the join of an item with its scan row: the request id of the scan, or
    nothing when the row is missing, in which case reading
    [item.scan.requestId] throws inside the [try].  [update i] is the
    outcome of the database update [cancelScan] awaits in turn [i].
    Whatever a turn throws is caught and logged. *)
Fixpoint cancel_from (w : ScannerService.World) (items : list BulkScanItem) (i : nat)
    (requestIdOf : string → option string) (update : nat → Result unit)
  : ScannerService.World :=
  match items with
  | [] => w
  | item :: more =>
      let w' := match requestIdOf (i_scanId item) with
                | Some rid => (ScannerService.cancelScan w rid (update i)).1
                | None => w
                end in
      cancel_from w' more (S i) requestIdOf update
  end.

(** [cancelBulkScan]; [find] and [final] are the outcomes of the query and
    of the status update of the batch record.  The cancellations run one
    after the other, as one step. *)
Definition cancelBulkScan (bw : World) (bid : string) (find : Result unit)
    (requestIdOf : string → option string) (update : nat → Result unit)
    (final : Result unit) : World * Result unit :=
  match find with
  | Throw m => (bw, Throw m)
  | Ok _ =>
      match bulkScanBatch bw !! bid with
      | None => (bw, Throw (not_found bid))
      | Some batch =>
          match b_status batch with
          | BATCH_RUNNING =>
              let items := filter (λ item, i_status item = RUNNING) (items_of bw bid) in
              let bw1 := with_service bw
                           (cancel_from (service bw) items 0 requestIdOf update) in
              match final with
              | Throw m => (bw1, Throw m)
              | Ok _ =>
                  (with_batches bw1
                     (alter (set_batch_status BATCH_FAILED (Some "Cancelled by user")) bid
                        (bulkScanBatch bw1)),
                   Ok tt)
              end
          | _ => (bw, Throw (not_running bid))
          end
      end
  end.

End BulkScanService.

(** ** The routes that request scans *)

(** The rescan route ([POST] of the rescan endpoint). *)
Module RescanRoute.


(** The image row the route reads: the fields it looks at. *)
Record ImageData : Type := mkImageData {
  d_name : string;
  d_tag : option string;
  d_source : string;
  d_primaryRepositoryId : option string;
  d_registry : option string
}.

(** A scan row with its image ([include: { image: true }]). *)
Record ScanData : Type := mkScanData {
  sd_tag : option string;
  sd_image : ImageData
}.

Definition or_latest (imageData : ImageData) : string :=
  if truthy (d_tag imageData) then default EmptyString (d_tag imageData) else "latest".

(** The tag to scan: the one of the body, else the one of the scan, else
    the one of the image, else "latest". *)
Definition actualTag (tag : option string) (scanData : option ScanData)
    (imageData : ImageData) : string :=
  if truthy tag then default EmptyString tag
  else
    match scanData with
    | Some sd =>
        if truthy (sd_tag sd) then default EmptyString (sd_tag sd) else or_latest imageData
    | None => or_latest imageData
    end.

(** The [switch] over the source of the image. *)
Definition requestSource (imageData : ImageData) : string :=
  if decide (d_source imageData = "LOCAL_DOCKER") then "local"
  else if decide (d_source imageData = "REGISTRY") then "registry"
  else if decide (d_source imageData = "REGISTRY_PRIVATE") then "registry"
  else if decide (d_source imageData = "FILE_UPLOAD") then "tar"
  else "registry".

(** The scan request the route builds; it sets no [tarPath]. *)
Definition scanRequest (tag : option string) (scanData : option ScanData)
    (imageData : ImageData) : ScanRequest :=
  mkScanRequest (d_name imageData) (actualTag tag scanData imageData)
    (Some (requestSource imageData)) None.






End RescanRoute.

(** The route that executes a scheduled scan. *)
Module ScheduledScanRoute.

(** [image.source === 'LOCAL_DOCKER' ? 'local' :
     image.source === 'REGISTRY' ? 'registry' : image.source || 'registry'] *)
Definition scanSource (image : Image) : string :=
  if decide (img_source image = "LOCAL_DOCKER") then "local"
  else if decide (img_source image = "REGISTRY") then "registry"
  else if truthy (Some (img_source image)) then img_source image
  else "registry".

Definition scanRequest (image : Image) : ScanRequest :=
  mkScanRequest (img_name image) (img_tag image) (Some (scanSource image)) None.

(** The statuses the route writes on an execution; COMPLETED and PARTIAL
    are written by the monitor only. *)
Inductive HistoryStatus : Type := H_PENDING | H_RUNNING | H_FAILED.

(** The row of the execution history the run is about. *)
Record History : Type := mkHistory {
  h_totalImages : nat;
  h_status : HistoryStatus;
  h_scannedImages : nat;
  h_failedImages : nat;
  h_startedAt : bool
}.

(** A scheduled scan result, by the id the database gave it. *)
Record ResultRow : Type := mkResultRow {
  res_imageId : string;
  res_scanId : option string;
  res_status : ScanStatus;
  res_errorMessage : option string
}.

(** What the collaborators answer in the turn of one image: the creation
    of the result row (its id), the request id [startScan] generates and
    its two database calls, the look-up of the scan by request id (its
    id), the update that links the result to it, the update that marks the
    result FAILED, the progress update of the history, and in the [catch]
    block the update of the failed count. *)
Record Turn : Type := mkTurn {
  turn_create : Result string;
  turn_requestId : string;
  turn_initialize : Result (string * string);
  turn_update : Result unit;
  turn_findScan : Result (option string);
  turn_link : Result unit;
  turn_markFailed : Result unit;
  turn_progress : Result unit;
  turn_failedImages : Result unit
}.

(** The state of [startScanExecution]: the scan service, the history row,
    the result rows, and the three local variables. *)
Record State : Type := mkState {
  service : ScannerService.World;
  history : History;
  results : gmap string ResultRow;
  scannedCount : nat;
  failedCount : nat;
  scanResults : list (string * string)
}.

Definition with_service (s : State) (w : ScannerService.World) : State :=
  mkState w (history s) (results s) (scannedCount s) (failedCount s) (scanResults s).
Definition with_history (s : State) (h : History) : State :=
  mkState (service s) h (results s) (scannedCount s) (failedCount s) (scanResults s).
Definition with_results (s : State) (r : gmap string ResultRow) : State :=
  mkState (service s) (history s) r (scannedCount s) (failedCount s) (scanResults s).
Definition count_scanned (s : State) : State :=
  mkState (service s) (history s) (results s) (S (scannedCount s)) (failedCount s)
    (scanResults s).
Definition count_failed (s : State) : State :=
  mkState (service s) (history s) (results s) (scannedCount s) (S (failedCount s))
    (scanResults s).
Definition push (s : State) (resultId scanId : string) : State :=
  mkState (service s) (history s) (results s) (scannedCount s) (failedCount s)
    (scanResults s ++ [(resultId, scanId)]).

(** The part of the [try] block that links the result and counts. *)
Definition link_and_count (s : State) (resultId : string) (scanResponse : StartResult)
    (o : Turn) : State * Result unit :=
  if truthy (Some (r_requestId scanResponse)) then
    match turn_findScan o with
    | Throw m => (s, Throw m)
    | Ok (Some scanId) =>
        match turn_link o with
        | Throw m => (s, Throw m)
        | Ok _ =>
            let linked (row : ResultRow) :=
              mkResultRow (res_imageId row) (Some scanId) RUNNING (res_errorMessage row) in
            (count_scanned
               (push (with_results s (alter linked resultId (results s))) resultId scanId),
             Ok tt)
        end
    | Ok None => (count_scanned s, Ok tt)
    end
  else
    match turn_markFailed o with
    | Throw m => (s, Throw m)
    | Ok _ =>
        let marked (row : ResultRow) :=
          mkResultRow (res_imageId row) (res_scanId row) FAILED
            (Some "Failed to start scan") in
        (count_failed (with_results s (alter marked resultId (results s))), Ok tt)
    end.

(** The [try] block of the turn of one image. *)
Definition try_image (s : State) (image : Image) (o : Turn) : State * Result unit :=
  match turn_create o with
  | Throw m => (s, Throw m)
  | Ok resultId =>
      let s1 := with_results s
                  (<[resultId := mkResultRow (img_id image) None PENDING None]> (results s)) in
      let '(w, started) :=
        ScannerService.startScan (service s1) (turn_requestId o) (scanRequest image) None
          (turn_initialize o) (turn_update o) in
      let s2 := with_service s1 w in
      match started with
      | Throw m => (s2, Throw m)
      | Ok scanResponse =>
          match link_and_count s2 resultId scanResponse o with
          | (s3, Throw m) => (s3, Throw m)
          | (s3, Ok _) =>
              match turn_progress o with
              | Throw m => (s3, Throw m)
              | Ok _ =>
                  (with_history s3
                     (mkHistory (h_totalImages (history s3)) (h_status (history s3))
                        (scannedCount s3) (failedCount s3) (h_startedAt (history s3))),
                   Ok tt)
              end
          end
      end
  end.

(** The turn of one image: the [try] block, then the [catch] block, whose
    own update is not guarded. *)
Definition scan_image (s : State) (image : Image) (o : Turn) : State * Result unit :=
  match try_image s image o with
  | (s1, Ok _) => (s1, Ok tt)
  | (s1, Throw _) =>
      let s2 := count_failed s1 in
      match turn_failedImages o with
      | Throw m => (s2, Throw m)
      | Ok _ =>
          (with_history s2
             (mkHistory (h_totalImages (history s2)) (h_status (history s2))
                (h_scannedImages (history s2)) (failedCount s2) (h_startedAt (history s2))),
           Ok tt)
      end
  end.

(** The loop from its turn [i] on; it ends early when a turn throws. *)
Fixpoint scan_from (s : State) (images : list Image) (i : nat) (turns : nat → Turn)
  : State * Result unit :=
  match images with
  | [] => (s, Ok tt)
  | image :: more =>
      match scan_image s image (turns i) with
      | (s', Ok _) => scan_from s' more (S i) turns
      | (s', Throw m) => (s', Throw m)
      end
  end.

(** The status of the last update:
    [failedCount === images.length ? 'FAILED' :
     scannedCount === 0 ? 'FAILED' : 'RUNNING'] *)
Definition initial_status (s : State) (images : list Image) : HistoryStatus :=
  if Nat.eqb (failedCount s) (length images) then H_FAILED
  else if Nat.eqb (scannedCount s) 0 then H_FAILED
  else H_RUNNING.

(** [startScanExecution]; [running] and [final] are the outcomes of its
    first and last update of the history row.  The monitor it starts
    before the last update runs on a timer and is left out. *)
Definition startScanExecution (w : ScannerService.World) (h : History)
    (rows : gmap string ResultRow) (images : list Image)
    (running : Result unit) (turns : nat → Turn) (final : Result unit)
  : State * Result unit :=
  match running with
  | Throw m => (mkState w h rows 0 0 [], Throw m)
  | Ok _ =>
      let s0 := mkState w
                  (mkHistory (h_totalImages h) H_RUNNING (h_scannedImages h)
                     (h_failedImages h) true)
                  rows 0 0 [] in
      match scan_from s0 images 0 turns with
      | (s1, Throw m) => (s1, Throw m)
      | (s1, Ok _) =>
          match final with
          | Throw m => (s1, Throw m)
          | Ok _ =>
              (with_history s1
                 (mkHistory (h_totalImages (history s1)) (initial_status s1 images)
                    (scannedCount s1) (failedCount s1) (h_startedAt (history s1))),
               Ok tt)
          end
      end
  end.

End ScheduledScanRoute.

(** ** Readings used to state further properties *)

(** The severities [calculateVulnerabilityCounts] switches on, one per
    finding, in the order it visits them: upper-cased, with the fallback
    for a missing severity. *)
Definition trivy_findings (r : TrivyReport) : list string :=
  match Results r with
  | Some results =>
      concat (map (fun result =>
                     match Vulnerabilities result with
                     | Some vulns =>
                         map (fun vuln => toUpperCase (or_else (Severity vuln) "UNKNOWN")) vulns
                     | None => []
                     end) results)
  | None => []
  end.

Definition grype_findings (r : GrypeReport) : list string :=
  match matches r with
  | Some ms => map (fun m => toUpperCase (or_else (vulnerability_severity m) "Unknown")) ms
  | None => []
  end.

Definition findings (reports : Reports) : list string :=
  match trivy reports with Some r => trivy_findings r | None => [] end
  ++ match grype reports with Some r => grype_findings r | None => [] end.

Definition occurrences (s : string) (l : list string) : nat :=
  length (filter (fun x => x = s) l).

Definition total (c : Counts) : nat := (critical c + high c + medium c + low c)%nat.

(** The writes the service makes to a job of the map: the four calls of
    [updateJobStatus] and the assignment of the "scan-started" listener.
    None of them touches the three ids. *)
Inductive job_write : ScanJob → ScanJob → Prop :=
| write_processing j :
    job_write j (mkScanJob (requestId j) (scanId j) (imageId j) RUNNING 90 (error j))
| write_success j :
    job_write j (mkScanJob (requestId j) (scanId j) (imageId j) SUCCESS 100 (error j))
| write_failed j m :
    job_write j (mkScanJob (requestId j) (scanId j) (imageId j) FAILED (progress j)
                   (if truthy (Some m) then Some m else error j))
| write_cancelled j :
    job_write j (mkScanJob (requestId j) (scanId j) (imageId j) CANCELLED (progress j)
                   (error j))
| write_started j :
    job_write j (ScannerService.set_status j RUNNING).

(** A progress event the tracker received is about a job of the map and
    carries its scan id; its status is not PENDING. *)
Definition event_ok (w : ScannerService.World) (c : TrackerCall) : Prop :=
  match c with
  | EmitProgress e =>
      ev_status e ≠ PENDING
      ∧ ∃ j, ScannerService.globalJobs w !! ev_requestId e = Some j
             ∧ scanId j = ev_scanId e
  | _ => True
  end.

(** Between two states: every job is still there, changed by writes of
    the service only; no job appeared; the tracker received further
    calls, whose events are about jobs of the map. *)
Definition advances (w w' : ScannerService.World) : Prop :=
  (∀ rid j, ScannerService.globalJobs w !! rid = Some j →
     ∃ j', ScannerService.globalJobs w' !! rid = Some j' ∧ rtc job_write j j')
  ∧ (∀ rid, ScannerService.globalJobs w !! rid = None →
       ScannerService.globalJobs w' !! rid = None)
  ∧ ∃ calls, ScannerService.tracker w' = ScannerService.tracker w ++ calls
             ∧ Forall (event_ok w') calls.

(** What holds of every job of a state the service can reach. *)
Definition job_ok (rid : string) (j : ScanJob) : Prop :=
  requestId j = rid
  ∧ (status j = SUCCESS → progress j = 100)
  ∧ (status j = PENDING → progress j = 0 ∧ error j = None).

(** Between two states, no job became PENDING and no PENDING job left the
    queue. *)
Definition keeps_waiting (w w' : ScannerService.World) : Prop :=
  ∀ r, ScannerService.status_of w' r = Some PENDING →
       ScannerService.status_of w r = Some PENDING
       ∧ (r ∈ ScannerService.pending_ids w → r ∈ ScannerService.pending_ids w').

(** Every PENDING job waits in the queue. *)
Definition pending_jobs_wait (w : ScannerService.World) : Prop :=
  ∀ rid, ScannerService.status_of w rid = Some PENDING → rid ∈ ScannerService.pending_ids w.




(** The scan request the loop of [executeQueuedScans] builds for an image. *)
Definition bulk_scanRequest (image : Image) : ScanRequest :=
  mkScanRequest (img_name image) (img_tag image)
    (Some (if decide (img_source image = "LOCAL_DOCKER") then "local" else "registry")) None.

(** A scan request as one of the three routes builds it for an image
    whose inventory source is [origin]. *)
Definition built_by_route (request : ScanRequest) (origin : string) : Prop :=
  (∃ tag scanData imageData,
     request = RescanRoute.scanRequest tag scanData imageData
     ∧ origin = RescanRoute.d_source imageData)
  ∨ (∃ image, request = ScheduledScanRoute.scanRequest image ∧ origin = img_source image)
  ∨ (∃ image, request = bulk_scanRequest image ∧ origin = img_source image).

(** A pattern with its wildcard characters taken out. *)
Fixpoint without_wildcards (s : string) : string :=
  match s with
  | EmptyString => EmptyString
  | String c s' =>
      if decide (c = "*"%char) then without_wildcards s'
      else if decide (c = "%"%char) then without_wildcards s'
      else String c (without_wildcards s')
  end.

(** A pattern that holds no wildcard: no [*], no [?], no dot, and no
    other regular-expression operator. *)
Fixpoint literal (p : string) : bool :=
  match p with
  | EmptyString => true
  | String x p' =>
      negb (bool_decide (x = "*"%char)) && negb (bool_decide (x = "."%char))
      && negb (Glob.unsupported x) && literal p'
  end.

(** ** Concrete data used in the scenarios *)

Definition img (n t : string) : Image := mkImage (n +:+ ":" +:+ t) n t "REGISTRY" None.

(** The candidates of the exclude-pattern scenario. *)
Definition app_images : list Image := [img "app" "v1"; img "app" "v2"; img "app" "latest"].

Definition a_request : ScanRequest := mkScanRequest "app" "v1" (Some "registry") None.

(** The priority scenario: a queue of limit one whose slot is taken by
    "j0", then four arrivals with priorities 0, -1, 0, -1, the waiting
    entries kept in the order [before]. *)
Definition at_capacity (before : QueuedScan → QueuedScan → bool) : ScanQueue.t :=
  let add q rid p := (ScanQueue.addToQueue_by before q rid rid rid a_request p).1 in
  let q0 := add (ScanQueue.empty 1) "j0" None in
  add (add (add (add q0 "j1" (Some 0)) "j2" (Some (-1))) "j3" (Some 0)) "j4" (Some (-1)).

(** The entries started one after the other when, [n] times, the running
    entry completes. *)
Fixpoint drain (n : nat) (q : ScanQueue.t) : list string :=
  match n with
  | O => []
  | S n' =>
      match ScanQueue.running q with
      | r :: _ =>
          match ScanQueue.completeScan q (q_requestId r) with
          | (q', Some e) => q_requestId e :: drain n' q'
          | (_, None) => []
          end
      | [] => []
      end
  end.

(** An inventory that holds the three candidates whatever the conditions. *)
Definition app_inventory (conditions : list Where) : Result (list Image) := Ok app_images.

Definition empty_inventory (conditions : list Where) : Result (list Image) := Ok [].

Definition bulk0 : BulkScanService.World :=
  BulkScanService.mkWorld (ScannerService.init 2) ∅ [] [].

(** A batch table that holds the running batch "bulk-1". *)
Definition bulk1 : BulkScanService.World :=
  BulkScanService.mkWorld (ScannerService.init 2)
    {[ "bulk-1" := mkBatch None 1 BATCH_RUNNING (mkPatterns None None None None) None false ]}
    [] [].


(** Every call of the turn succeeds. *)
Definition all_fine (i : nat) : Submission :=
  mkSubmission "r1" (Ok ("s1", "i1")) (Ok tt) (Ok tt) (Ok "f1") (Ok tt).


(** Collaborators that all answer, with a report that holds no finding. *)
Definition no_findings : Reports := mkReports None None None.

Definition fin_ok : Finalize := mkFinalize (Ok no_findings) (Ok "v1") (Ok tt) (Ok tt).

(** A report with one critical finding, and a notification service that
    throws. *)
Definition one_critical : Reports :=
  mkReports
    (Some {| Results := Some [ {| Vulnerabilities := Some [ {| Severity := Some "Critical" |} ] |} ] |})
    None None.

Definition fin_notify_fails : Finalize :=
  mkFinalize (Ok one_critical) (Ok "v1") (Ok tt) (Throw "smtp down").

(** A scan is started and takes a slot; it is cancelled while RUNNING; the
    executor call then completes. *)
Definition start_r1 : ScannerService.Event :=
  ScannerService.StartScan "r1" a_request None (Ok ("s1", "i1")) (Ok tt).
Definition cancel_r1 : ScannerService.Event := ScannerService.CancelScan "r1" (Ok tt).
Definition complete_r1 : ScannerService.Event :=
  ScannerService.Settle "r1" (Ok tt) fin_ok (Ok tt).

(** The state once the scan "r1" has been started and cancelled. *)
Definition cancelled_r1 : ScannerService.World :=
  default (ScannerService.init 2)
    (ScannerService.run (ScannerService.init 2) [start_r1; cancel_r1]).

(** The state once the scan "r1" has been started and holds a slot, and
    its suspended execution. *)
Definition running_r1 : ScannerService.World :=
  default (ScannerService.init 2) (ScannerService.run (ScannerService.init 2) [start_r1]).

Definition exec_r1 : Exec := mkExec "r1" a_request "s1" "i1" RegistryScan.

(** A second scan is requested. *)
Definition start_r2 : ScannerService.Event :=
  ScannerService.StartScan "r2" a_request (Some (-1)) (Ok ("s2", "i2")) (Ok tt).

(** The state once "r1" was started, "r2" requested, and the executor
    call of "r1" has completed. *)
Definition finished_r1 : ScannerService.World :=
  default (ScannerService.init 2)
    (ScannerService.run (ScannerService.init 2) [start_r1; start_r2; complete_r1]).

(** A third scan is requested while the two slots are taken, and is
    cancelled before the first scan completes. *)
Definition start_r3 : ScannerService.Event :=
  ScannerService.StartScan "r3" a_request None (Ok ("s3", "i3")) (Ok tt).

Definition waiting_r3 : ScannerService.World :=
  default (ScannerService.init 2)
    (ScannerService.run (ScannerService.init 2) [start_r1; start_r2; start_r3]).

Definition cancelled_waiting_r3 : ScannerService.World :=
  default (ScannerService.init 2)
    (ScannerService.run (ScannerService.cancelScan waiting_r3 "r3" (Ok tt)).1 [complete_r1]).

(** A running batch with two items: the scan "s1" of request "r1", which
    runs, and the scan "s3" of request "r3", which waits in the queue. *)
Definition queued_batch : BulkScanService.World :=
  BulkScanService.mkWorld waiting_r3
    {[ "bulk-1" := mkBatch None 2 BATCH_RUNNING (mkPatterns None None None None) None false ]}
    [mkItem "bulk-1" "s1" "i1" RUNNING; mkItem "bulk-1" "s3" "i3" RUNNING] [].

(** The scan rows joined to the items: the request id of each scan. *)
Definition scan_requests (sid : string) : option string :=
  if decide (sid = "s1") then Some "r1"
  else if decide (sid = "s3") then Some "r3" else None.

(** An image that was uploaded as a tar archive, with no tag recorded. *)
Definition uploaded_image : RescanRoute.ImageData :=
  RescanRoute.mkImageData "app" None "FILE_UPLOAD" None None.

(** A scheduled execution over two images.  In [busy_turns] every call
    succeeds but the progress update of the history; in [dead_turns] no
    row can be written at all. *)
Definition two_images : list Image := [img "app" "v1"; img "app" "v2"].

Definition history0 : ScheduledScanRoute.History :=
  ScheduledScanRoute.mkHistory 2 ScheduledScanRoute.H_PENDING 0 0 false.

Definition busy_turns (i : nat) : ScheduledScanRoute.Turn :=
  let n := match i with O => "1" | _ => "2" end in
  ScheduledScanRoute.mkTurn (Ok ("res" +:+ n)) ("r" +:+ n) (Ok ("s" +:+ n, "i" +:+ n))
    (Ok tt) (Ok (Some ("s" +:+ n))) (Ok tt) (Ok tt) (Throw "db busy") (Ok tt).

Definition dead_turns (i : nat) : ScheduledScanRoute.Turn :=
  ScheduledScanRoute.mkTurn (Throw "db down") "r1" (Throw "db down") (Throw "db down")
    (Throw "db down") (Throw "db down") (Throw "db down") (Throw "db down")
    (Throw "db down").

(** The same report, with a notification service that answers. *)
Definition fin_critical : Finalize :=
  mkFinalize (Ok one_critical) (Ok "v1") (Ok tt) (Ok tt).


(** * Properties *)

(** ** Exclude patterns *)

Section GlobFacts.
Import Glob.

Lemma RegExp_once c rest :
  unsupported c = false → c ≠ "*"%char → starts_with_star rest = false →
  RegExp (String c rest) = r ← RegExp rest; Some ((atom_of c, false) :: r).
Proof.
  intros Hu Hc Hs. cbn [RegExp]. rewrite Hu. rewrite bool_decide_eq_false_2 by done.
  cbn [orb]. destruct rest as [|d rest']; [done|].
  cbn in Hs. apply bool_decide_eq_false in Hs.
  destruct d as [[] [] [] [] [] [] [] []]; try reflexivity. by destruct Hs.
Qed.

Lemma RegExp_starred c rest :
  unsupported c = false → c ≠ "*"%char →
  RegExp (String c (String "*"%char rest))
  = r ← RegExp rest; Some ((atom_of c, true) :: r).
Proof.
  intros Hu Hc. cbn [RegExp]. rewrite Hu. by rewrite bool_decide_eq_false_2 by done.
Qed.

Lemma regexPattern_head p : starts_with_star (regexPattern p) = false.
Proof.
  unfold regexPattern. destruct p as [|x p]; [done|]. cbn [replaceAll].
  destruct (decide (x = "*"%char)) as [->|Hx]; [done|].
  cbn [replaceAll]. destruct (decide (x = "?"%char)) as [->|Hq]; [done|].
  cbn. by apply bool_decide_eq_false.
Qed.

Lemma regexPattern_star p :
  regexPattern (String "*"%char p) = String "."%char (String "*"%char (regexPattern p)).
Proof. reflexivity. Qed.

Lemma regexPattern_question p :
  regexPattern (String "?"%char p) = String "."%char (regexPattern p).
Proof. reflexivity. Qed.

Lemma regexPattern_other x p :
  x ≠ "*"%char → x ≠ "?"%char → regexPattern (String x p) = String x (regexPattern p).
Proof.
  intros H1 H2. unfold regexPattern. cbn [replaceAll].
  destruct (decide (x = "*"%char)); [done|]. cbn [replaceAll].
  by destruct (decide (x = "?"%char)).
Qed.

(** The expression compiled from a plain pattern exists and accepts
    exactly the strings [compiled_match] accepts. *)
Lemma regex_accepts p :
  plain_glob p = true →
  ∃ r, RegExp (regexPattern p) = Some r ∧ ∀ s, test r s = compiled_match p s.
Proof.
  induction p as [|x p IH]; intros Hp.
  - exists []. split; [done|]. by intros [|].
  - cbn [plain_glob] in Hp. apply andb_true_iff in Hp as [Hx Hp].
    destruct (IH Hp) as (r & Hr & Hrs).
    destruct (decide (x = "*"%char)) as [->|Hstar].
    { rewrite regexPattern_star, RegExp_starred by done. rewrite Hr.
      eexists; split; [done|]. intros s. cbn [test compiled_match].
      destruct (decide _) as [_|]; [|done].
      induction s as [|c s IHs]; cbn; rewrite Hrs; [done|]. by rewrite IHs. }
    destruct (decide (x = "?"%char)) as [->|Hq].
    { rewrite regexPattern_question, RegExp_once, Hr by (done || apply regexPattern_head).
      eexists; split; [done|]. intros [|c s]; [done|]. cbn. by rewrite Hrs. }
    assert (unsupported x = false) as Hu.
    { rewrite !orb_true_iff in Hx. destruct Hx as [[Hx|Hx]|Hx].
      - by apply bool_decide_eq_true in Hx.
      - by apply bool_decide_eq_true in Hx.
      - by apply negb_true_iff in Hx. }
    rewrite regexPattern_other, RegExp_once, Hr by (done || apply regexPattern_head).
    eexists; split; [done|]. intros [|c s]; cbn [test compiled_match].
    + by destruct (decide _).
    + destruct (decide _); [done|]. destruct (decide _); [done|]. by rewrite Hrs.
Qed.

End GlobFacts.

Lemma some_pattern_matches_compiled ps s :
  Forall (λ p, Glob.plain_glob p = true) ps →
  BulkScanService.some_pattern_matches ps s
  = Some (existsb (λ p, Glob.compiled_match p s) ps).
Proof.
  induction 1 as [|p ps Hp Hps IH]; [done|]. cbn [BulkScanService.some_pattern_matches existsb].
  destruct (regex_accepts p Hp) as (r & -> & Hr). cbn. rewrite Hr.
  by destruct (Glob.compiled_match p s).
Qed.

Lemma filter_images_compiled images ps :
  Forall (λ p, Glob.plain_glob p = true) ps →
  BulkScanService.filter_images images ps
  = Some (List.filter
            (λ image, negb (existsb (λ p, Glob.compiled_match p
                                            (BulkScanService.fullName image)) ps))
            images).
Proof.
  intros Hps. induction images as [|image images IH]; [done|].
  cbn [BulkScanService.filter_images List.filter].
  rewrite some_pattern_matches_compiled, IH by done. cbn.
  by destruct (existsb _ ps).
Qed.





(** ** The queue: start order *)

Section QueueOrder.
Import ScanQueue.

Lemma starts_before_false a b : starts_before b a = false ↔ in_start_order a b.
Proof.
  unfold starts_before, in_start_order.
  rewrite orb_false_iff, andb_false_iff, Z.ltb_ge, Z.eqb_neq, Nat.ltb_ge. lia.
Qed.

Lemma starts_before_true a b : starts_before a b = true → in_start_order a b.
Proof.
  unfold starts_before, in_start_order.
  rewrite orb_true_iff, andb_true_iff, Z.ltb_lt, Z.eqb_eq, Nat.ltb_lt. lia.
Qed.

#[local] Instance in_start_order_trans : Transitive in_start_order.
Proof. unfold in_start_order. intros a b c. lia. Qed.

Lemma insert_by_elem x l y : y ∈ insert_by starts_before x l ↔ y = x ∨ y ∈ l.
Proof.
  induction l as [|e l IH]; cbn [insert_by].
  - set_solver.
  - destruct (starts_before x e); rewrite !elem_of_cons; [tauto|]. rewrite IH. tauto.
Qed.

(** Insertion keeps the waiting entries in start order. *)
Lemma insert_by_sorted x l :
  StronglySorted in_start_order l →
  StronglySorted in_start_order (insert_by starts_before x l).
Proof.
  induction 1 as [|e l Hl IH He]; cbn [insert_by].
  - repeat constructor.
  - destruct (starts_before x e) eqn:Hxe.
    + apply starts_before_true in Hxe. constructor.
      * by constructor.
      * constructor; [done|]. eapply Forall_impl; [exact He|].
        intros y Hy. by etrans.
    + apply starts_before_false in Hxe. constructor; [done|].
      apply Forall_forall. intros y [->|Hy]%insert_by_elem; [done|].
      rewrite Forall_forall in He. by apply He.
Qed.

End QueueOrder.

(** C4, as amended.  In a queue at capacity a new entry waits, and the
    waiting entries stay ordered by priority, larger value first, then by
    arrival; when a slot frees, the first waiting entry is the one
    started.  So arrivals with priorities 0, -1, 0, -1 start in the order
    first, third, second, fourth. *)
Theorem queue_starts_higher_priority_first (q : ScanQueue.t) (rid sid iid : string)
    (req : ScanRequest) (p : option Z)
    (Hfull : (ScanQueue.limit q ≤ length (ScanQueue.running q))%nat)
    (Hsorted : StronglySorted ScanQueue.in_start_order (ScanQueue.pending q)) :
  (let '(q', started) := ScanQueue.addToQueue q rid sid iid req p in
   started = None
   ∧ ScanQueue.running q' = ScanQueue.running q
   ∧ rid ∈ map q_requestId (ScanQueue.pending q')
   ∧ StronglySorted ScanQueue.in_start_order (ScanQueue.pending q'))
  ∧ (∀ done_ e rest,
       ScanQueue.pending q = e :: rest →
       (length (ScanQueue.without done_ (ScanQueue.running q)) < ScanQueue.limit q)%nat →
       (ScanQueue.completeScan q done_).2 = Some e
       ∧ ScanQueue.pending (ScanQueue.completeScan q done_).1 = rest)
  ∧ ScanQueue.start_order (at_capacity ScanQueue.starts_before) = ["j1"; "j3"; "j2"; "j4"]
  ∧ drain 4 (at_capacity ScanQueue.starts_before) = ["j1"; "j3"; "j2"; "j4"].
Proof.
  split; [|split; [|split; reflexivity]].
  - unfold ScanQueue.addToQueue, ScanQueue.addToQueue_by.
    apply Nat.ltb_ge in Hfull. rewrite Hfull. cbn.
    split_and!; [done..| |by apply insert_by_sorted].
    apply list_elem_of_fmap. eexists. split; [|apply insert_by_elem; by left]. done.
  - intros done_ e rest Hp Hlt. unfold ScanQueue.completeScan. rewrite Hp.
    apply Nat.ltb_lt in Hlt. by rewrite Hlt.
Qed.

Lemma queue_starts_higher_priority_first_witness :
  ScanQueue.start_order
    (ScanQueue.addToQueue (at_capacity ScanQueue.starts_before) "j5" "s5" "i5"
       a_request (Some 0)).1
  = ["j1"; "j3"; "j5"; "j2"; "j4"]
  ∧ StronglySorted ScanQueue.in_start_order
      (ScanQueue.pending
         (ScanQueue.addToQueue (at_capacity ScanQueue.starts_before) "j5" "s5" "i5"
            a_request (Some 0)).1).
Proof.
  split; [reflexivity|].
  refine (proj2 (proj2 (proj2 (proj1
    (queue_starts_higher_priority_first (at_capacity ScanQueue.starts_before)
       "j5" "s5" "i5" a_request (Some 0) _ _))))).
  - vm_compute. lia.
  - vm_compute. repeat constructor; unfold ScanQueue.in_start_order; cbn; lia.
Defined.

(** C4, as stated, fails in its own scenario.  Under the order "priority
    asc, enqueuedAt asc" the two jobs of priority -1 start first; and where
    the two jobs of priority 0 start first, the waiting entries are not in
    ascending priority. *)
Lemma priority_asc_contradicts_scenario :
  drain 4 (at_capacity ScanQueue.sorts_before_asc) = ["j2"; "j4"; "j1"; "j3"]
  ∧ drain 4 (at_capacity ScanQueue.sorts_before_asc) ≠ ["j1"; "j3"; "j2"; "j4"]
  ∧ ¬ StronglySorted ScanQueue.in_asc_order
        (ScanQueue.pending (at_capacity ScanQueue.starts_before)).
Proof.
  split_and!; [reflexivity|discriminate|].
  intros H. cbn in H.
  apply StronglySorted_inv in H as [_ H].
  apply Forall_inv_tail, Forall_inv in H.
  unfold ScanQueue.in_asc_order in H. cbn in H. lia.
Qed.

(** ** The bulk orchestrator *)

(** C9. When pattern resolution yields no image, [executeBulkScan] throws
    "No images found matching the specified patterns" and the state, the
    batch table included, is as before the call. *)
Theorem executeBulkScan_no_images (bw : BulkScanService.World)
    (findMany : list Where → Result (list Image)) (request : BulkScanRequest)
    (bid : string) (create : Result unit)
    (Hnone : BulkScanService.findMatchingImages findMany (patterns request)
               (BulkScanService.excludePatterns request) = Some (Ok [])) :
  BulkScanService.executeBulkScan bw findMany request bid create
  = Some (bw, Throw "No images found matching the specified patterns").
Proof. unfold BulkScanService.executeBulkScan. by rewrite Hnone. Qed.

Lemma executeBulkScan_no_images_witness :
  BulkScanService.executeBulkScan bulk0 app_inventory
    (mkBulkScanRequest (mkPatterns (Some "app") None None (Some "app:*")) None None)
    "bulk-1" (Ok tt)
  = Some (bulk0, Throw "No images found matching the specified patterns").
Proof. apply executeBulkScan_no_images. reflexivity. Defined.

(** C10. A call of [executeBulkScan] that returns answers [skipped = 0]
    and no scan id, whatever images were resolved; the other two fields
    are the batch id and the number of images left to the background
    loop. *)
Theorem executeBulkScan_returns_no_scan_ids (bw bw' : BulkScanService.World)
    (findMany : list Where → Result (list Image)) (request : BulkScanRequest)
    (bid : string) (create : Result unit) (r : BulkScanResult) (images : list Image)
    (Hok : BulkScanService.executeBulkScan bw findMany request bid create
           = Some (bw', Ok (r, images))) :
  skipped r = 0%nat ∧ scanIds r = [] ∧ batchId r = bid ∧ totalImages r = length images.
Proof.
  unfold BulkScanService.executeBulkScan in Hok.
  destruct (BulkScanService.findMatchingImages _ _ _) as [[matching|m]|]; simplify_eq/=.
  destruct (Nat.eqb _ _); [done|]. destruct create; by simplify_eq/=.
Qed.

Lemma executeBulkScan_returns_no_scan_ids_witness :
  ∃ bw' r images,
    BulkScanService.executeBulkScan bulk0 app_inventory
      (mkBulkScanRequest (mkPatterns None None None (Some "app:latest")) (Some 5) None)
      "bulk-1" (Ok tt) = Some (bw', Ok (r, images))
    ∧ images = [img "app" "v1"; img "app" "v2"]
    ∧ skipped r = 0%nat ∧ scanIds r = [].
Proof.
  eexists _, _, _. split; [reflexivity|]. split; [reflexivity|].
  pose proof (executeBulkScan_returns_no_scan_ids bulk0 _ app_inventory
    (mkBulkScanRequest (mkPatterns None None None (Some "app:latest")) (Some 5) None)
    "bulk-1" (Ok tt) _ _ eq_refl) as (H1 & H2 & _).
  exact (conj H1 H2).
Defined.

(** A resolved, non-empty selection whose batch record is created does
    return: the batch is there, RUNNING, and the limit is applied. *)
Lemma executeBulkScan_succeeds bw findMany request bid matching :
  BulkScanService.findMatchingImages findMany (patterns request)
    (BulkScanService.excludePatterns request) = Some (Ok matching) →
  matching ≠ [] →
  let limited := BulkScanService.limitImages request matching in
  BulkScanService.executeBulkScan bw findMany request bid (Ok tt)
  = Some (BulkScanService.with_batches bw
            (<[bid := mkBatch (name request) (length limited) BATCH_RUNNING
                        (patterns request) None false]> (BulkScanService.bulkScanBatch bw)),
          Ok (mkBulkScanResult bid (length limited) [] 0, limited)).
Proof.
  intros Hfound Hne. unfold BulkScanService.executeBulkScan. rewrite Hfound. cbn.
  by destruct matching.
Qed.

Section BulkLoop.
Import BulkScanService.

Lemma try_submit_tables bw bid image o :
  bulkScanBatch (try_submit bw bid image o).1 = bulkScanBatch bw
  ∧ scan (try_submit bw bid image o).1 = scan bw.
Proof.
  unfold try_submit. destruct (ScannerService.startScan _ _ _ _ _ _) as [w [res|m]]; [|done].
  by destruct (sub_link o).
Qed.

Lemma record_failure_batches bw bid image o m :
  bulkScanBatch (record_failure bw bid image o m) = bulkScanBatch bw.
Proof.
  unfold record_failure. destruct (sub_failedScan o); [|done]. by destruct (sub_failedLink o).
Qed.

Lemma submit_image_spec bw bid image o acc :
  bulkScanBatch (submit_image bw bid image o acc).1 = bulkScanBatch bw
  ∧ (successful (submit_image bw bid image o acc).2
     + failed (submit_image bw bid image o acc).2
     = S (successful acc + failed acc))%nat.
Proof.
  unfold submit_image. pose proof (try_submit_tables bw bid image o) as [Hb _].
  destruct (try_submit bw bid image o) as [bw2 [sid|m]]; cbn in *.
  - split; [done|lia].
  - rewrite record_failure_batches. split; [done|lia].
Qed.

Lemma submit_from_spec images : ∀ bw bid i outcome acc,
  bulkScanBatch (submit_from bw bid images i outcome acc).1 = bulkScanBatch bw
  ∧ (successful (submit_from bw bid images i outcome acc).2
     + failed (submit_from bw bid images i outcome acc).2
     = length images + (successful acc + failed acc))%nat.
Proof.
  induction images as [|image images IH]; intros; cbn [submit_from]; [done|].
  pose proof (submit_image_spec bw bid image (outcome i) acc) as [Hb Hn].
  destruct (submit_image bw bid image (outcome i) acc) as [bw' acc'].
  destruct (IH bw' bid (S i) outcome acc') as [Hb' Hn']. cbn in *.
  split; [congruence|lia].
Qed.

End BulkLoop.




(** ** The job registry *)

(** C1, as stated, fails.  A scan is started, cancelled while RUNNING
    (which releases its slot), and the executor call completes afterwards:
    the completion is processed, and the slot is released a second time. *)
Lemma late_completion_releases_twice :
  ScannerService.observe 2 [start_r1; cancel_r1] "r1" = Some (Some CANCELLED, None, 1%nat)
  ∧ ScannerService.observe 2 [start_r1; cancel_r1; complete_r1] "r1"
    = Some (Some SUCCESS, None, 2%nat).
Proof. split; vm_compute; reflexivity. Qed.

(** C2, as stated, fails.  On the same run the job leaves the terminal
    status CANCELLED: the late completion takes it to SUCCESS. *)
Lemma cancelled_job_becomes_success :
  (fst ∘ fst <$> ScannerService.observe 2 [start_r1; cancel_r1] "r1") = Some (Some CANCELLED)
  ∧ (fst ∘ fst <$> ScannerService.observe 2 [start_r1; cancel_r1; complete_r1] "r1")
    = Some (Some SUCCESS).
Proof. split; vm_compute; reflexivity. Qed.

(** C8, as stated, fails.  The report holds a critical finding, so the
    notification is sent; it throws, and the scan ends FAILED with the
    message of the notification service. *)
Lemma notification_failure_fails_scan :
  critical (calculateVulnerabilityCounts one_critical) = 1%nat
  ∧ ScannerService.observe 2
      [start_r1; ScannerService.Settle "r1" (Ok tt) fin_notify_fails (Ok tt)] "r1"
    = Some (Some FAILED, Some "smtp down", 1%nat).
Proof. split; vm_compute; reflexivity. Qed.

Section Registry.
Import ScannerService.

(** *** What each operation does to the job map, the queue, the
    suspended executions and the release log *)

Lemma updateJobStatus_frame w rid st p e s :
  scanQueue (updateJobStatus w rid st p e s) = scanQueue w
  ∧ inflight (updateJobStatus w rid st p e s) = inflight w
  ∧ released (updateJobStatus w rid st p e s) = released w
  ∧ database (updateJobStatus w rid st p e s) = database w.
Proof. unfold updateJobStatus. destruct (globalJobs w !! rid); [|done]. by destruct st. Qed.

Lemma updateJobStatus_status w rid st p e s r :
  status_of (updateJobStatus w rid st p e s) r
  = if decide (r = rid) then (λ _, st) <$> status_of w rid else status_of w r.
Proof.
  unfold updateJobStatus, status_of.
  destruct (globalJobs w !! rid) as [job|] eqn:Hjob.
  - assert (∀ w', globalJobs w' = <[rid := mkScanJob (requestId job) (scanId job) (imageId job) st
               (match p with Some p => p | None => progress job end)
               (if truthy e then e else error job)]> (globalJobs w) →
            status <$> globalJobs w' !! r
            = if decide (r = rid) then Some st else status <$> globalJobs w !! r) as H.
    { intros w' ->. destruct (decide (r = rid)) as [->|Hne].
      - by rewrite lookup_insert_eq.
      - by rewrite lookup_insert_ne. }
    destruct st; by apply H.
  - destruct (decide (r = rid)) as [->|]; [by rewrite Hjob|done].
Qed.

Lemma updateJobStatus_known w rid st p e s job :
  globalJobs w !! rid = Some job →
  globalJobs (updateJobStatus w rid st p e s) !! rid
  = Some (mkScanJob (requestId job) (scanId job) (imageId job) st
            (match p with Some p => p | None => progress job end)
            (if truthy e then e else error job)).
Proof.
  intros Hjob. unfold updateJobStatus. rewrite Hjob.
  destruct st; cbn; by rewrite lookup_insert_eq.
Qed.

Lemma executeScan_begin_effect w rid req sid iid :
  ∃ d, inflight (executeScan_begin w rid req sid iid)
       = inflight w ++ [mkExec rid req sid iid d]
  ∧ globalJobs (executeScan_begin w rid req sid iid) = globalJobs w
  ∧ scanQueue (executeScan_begin w rid req sid iid) = scanQueue w
  ∧ released (executeScan_begin w rid req sid iid) = released w
  ∧ database (executeScan_begin w rid req sid iid) = database w.
Proof.
  unfold executeScan_begin.
  destruct (_ && _); [by eexists|]. destruct (isLocalDockerScan req); [by eexists|].
  destruct (shouldSimulateDownload req); by eexists.
Qed.

Lemma listener_effect w e :
  (∃ x, x_requestId x = q_requestId e
        ∧ inflight (scanStartedListener w e) = inflight w ++ [x])
  ∧ scanQueue (scanStartedListener w e) = scanQueue w
  ∧ released (scanStartedListener w e) = released w
  ∧ database (scanStartedListener w e) = database w
  ∧ ∀ r, status_of (scanStartedListener w e) r
         = if decide (r = q_requestId e)
           then (λ _, RUNNING) <$> status_of w (q_requestId e)
           else status_of w r.
Proof.
  unfold scanStartedListener.
  match goal with |- context [executeScan_begin ?w1 ?a ?b ?c ?d] =>
    destruct (executeScan_begin_effect w1 a b c d) as (k & Hi & Hj & Hq & Hr & Hd);
    generalize dependent (executeScan_begin w1 a b c d) end.
  intros w' Hi Hj Hq Hr Hd. unfold status_of. rewrite Hi, Hj, Hq, Hr, Hd.
  destruct (globalJobs w !! q_requestId e) as [job|] eqn:Hjob; cbn.
  - split_and!; [eexists; split; last done; done|done..|]. intros r.
    destruct (decide (r = q_requestId e)) as [->|Hne].
    + by rewrite lookup_insert_eq.
    + by rewrite lookup_insert_ne.
  - split_and!; [eexists; split; last done; done|done..|]. intros r.
    destruct (decide (r = q_requestId e)) as [->|Hne]; [by rewrite Hjob|done].
Qed.

(** The two ways a call of [completeScan] can go: the slot is freed and
    nothing starts, or the first waiting entry is started. *)
Lemma completeScan_effect w rid err :
  let w' := completeScan w rid err in
  released w' = released w ++ [(rid, err)]
  ∧ database w' = database w
  ∧ ((ScanQueue.pending (scanQueue w') = ScanQueue.pending (scanQueue w)
      ∧ inflight w' = inflight w
      ∧ ∀ r, status_of w' r = status_of w r)
     ∨ (∃ e x, ScanQueue.pending (scanQueue w) = e :: ScanQueue.pending (scanQueue w')
          ∧ x_requestId x = q_requestId e
          ∧ inflight w' = inflight w ++ [x]
          ∧ ∀ r, status_of w' r
                 = if decide (r = q_requestId e)
                   then (λ _, RUNNING) <$> status_of w (q_requestId e)
                   else status_of w r)).
Proof.
  cbv zeta. unfold completeScan, ScanQueue.completeScan.
  destruct (ScanQueue.pending (scanQueue w)) as [|e rest] eqn:Hp.
  - cbn. split_and!; [done..|]. by left.
  - destruct (Nat.ltb _ _); cbn [fire].
    + match goal with |- context [scanStartedListener ?w1 e] =>
        destruct (listener_effect w1 e) as ((x & Hx & Hi) & Hq & Hr & Hd & Hs) end.
      rewrite Hq, Hr, Hd, Hi. cbn. split_and!; [done..|]. right.
      exists e, x. split_and!; done.
    + cbn. split_and!; [done..|]. by left.
Qed.

(** *** Consistency is kept by every operation *)

Lemma consistent_same w w' :
  pending_ids w' = pending_ids w → inflight w' = inflight w →
  (∀ r, status_of w' r = status_of w r) →
  consistent w → consistent w'.
Proof.
  intros Hp Hi Hs (Hnd & Hpend & Hinf). unfold consistent. rewrite Hp, Hi.
  split_and!; [done| |].
  - intros r Hr. rewrite Hs. by apply Hpend.
  - intros x Hx. rewrite Hs. by apply Hinf.
Qed.

Lemma consistent_update w rid st p e s :
  consistent w → st ≠ PENDING → rid ∉ pending_ids w →
  consistent (updateJobStatus w rid st p e s).
Proof.
  intros (Hnd & Hpend & Hinf) Hst Hrid.
  destruct (updateJobStatus_frame w rid st p e s) as (Hq & Hi & _).
  unfold consistent, pending_ids. rewrite Hq, Hi. split_and!; [done| |].
  - intros r Hr. rewrite updateJobStatus_status.
    destruct (decide (r = rid)) as [->|]; [done|]. by apply Hpend.
  - intros x Hx. rewrite updateJobStatus_status. destruct (Hinf x Hx) as (st' & Hst' & Hne).
    destruct (decide _) as [Heq|]; [|by eexists].
    rewrite <- Heq, Hst'. by exists st.
Qed.

Lemma consistent_completeScan w rid err :
  consistent w → consistent (completeScan w rid err).
Proof.
  intros (Hnd & Hpend & Hinf).
  destruct (completeScan_effect w rid err) as (_ & _ & [(Hp & Hi & Hs)|(e & x & Hp & Hx & Hi & Hs)]).
  - eapply consistent_same; [| | |done]; [unfold pending_ids; by rewrite Hp|done..].
  - unfold consistent, pending_ids in *. rewrite Hp in Hnd, Hpend. cbn in Hnd, Hpend.
    apply NoDup_cons in Hnd as [Hhead Hnd]. split_and!; [done| |].
    + intros r Hr. rewrite Hs. destruct (decide _) as [->|]; [done|].
      apply Hpend. by right.
    + intros y Hy. rewrite Hi in Hy. rewrite Hs.
      apply elem_of_app in Hy as [Hy|Hy].
      * destruct (Hinf y Hy) as (st & Hst & Hne).
        destruct (decide _) as [Heq|]; [|by eexists].
        rewrite Heq, (Hpend (q_requestId e)) in Hst by by left. by simplify_eq.
      * apply list_elem_of_singleton in Hy as ->. rewrite Hx, decide_True by done.
        rewrite (Hpend (q_requestId e)) by by left. by exists RUNNING.
Qed.

Lemma insert_by_perm before x l : ScanQueue.insert_by before x l ≡ₚ x :: l.
Proof.
  induction l as [|e l IH]; cbn; [done|].
  destruct (before x e); [done|]. rewrite IH. apply Permutation_swap.
Qed.

Lemma without_ids rid l :
  map q_requestId (ScanQueue.without rid l) = filter (λ r, r ≠ rid) (map q_requestId l).
Proof.
  unfold ScanQueue.without. induction l as [|e l IH]; [done|].
  rewrite filter_cons. cbn [map]. rewrite filter_cons.
  destruct (decide (q_requestId e ≠ rid)); cbn; by rewrite IH.
Qed.

Lemma consistent_log w w' :
  globalJobs w' = globalJobs w → scanQueue w' = scanQueue w → inflight w' = inflight w →
  consistent w → consistent w'.
Proof.
  intros Hj Hq Hi. apply consistent_same; unfold pending_ids, status_of; congruence.
Qed.

Lemma consistent_startScan w rid request priority initialize update :
  consistent w → globalJobs w !! rid = None →
  consistent (startScan w rid request priority initialize update).1.
Proof.
  intros (Hnd & Hpend & Hinf) Hfresh. unfold startScan.
  destruct initialize as [[sid iid]|m]; [|done].
  assert (status_of w rid = None) as Hnone by (unfold status_of; by rewrite Hfresh).
  assert (rid ∉ pending_ids w) as Hnp.
  { intros Hin. apply Hpend in Hin. congruence. }
  unfold ScanQueue.addToQueue, ScanQueue.addToQueue_by.
  set (e := mkQueuedScan rid sid iid request (default 0 priority) _).
  set (job := mkScanJob rid sid iid PENDING 0 None).
  assert (∀ w1, globalJobs w1 = <[rid := job]> (globalJobs w) →
            inflight w1 = inflight w →
            ScanQueue.pending (scanQueue w1) = ScanQueue.pending (scanQueue w) →
            consistent (scanStartedListener w1 e)) as Hstarted.
  { intros w1 Hj Hi Hp.
    destruct (listener_effect w1 e) as ((x & Hx & Hi') & Hq' & _ & _ & Hs).
    unfold consistent, pending_ids. rewrite Hq', Hp, Hi', Hi.
    assert (∀ r, r ≠ rid → status_of (scanStartedListener w1 e) r = status_of w r) as Hother.
    { intros r Hr. rewrite Hs, decide_False by done. unfold status_of.
      by rewrite Hj, lookup_insert_ne. }
    split_and!; [done| |].
    - intros r Hr. rewrite Hother; [by apply Hpend|]. by intros ->.
    - intros y [Hy|Hy]%elem_of_app.
      + destruct (Hinf y Hy) as (st & Hst & Hne). rewrite Hother; [by eexists|].
        intros Heq. rewrite Heq in Hst. congruence.
      + apply list_elem_of_singleton in Hy as ->. rewrite Hx, Hs, decide_True by done.
        unfold status_of. rewrite Hj. cbn. rewrite lookup_insert_eq. by exists RUNNING. }
  assert (∀ w1, globalJobs w1 = <[rid := job]> (globalJobs w) →
            inflight w1 = inflight w →
            ScanQueue.pending (scanQueue w1)
            = ScanQueue.insert_by ScanQueue.starts_before e (ScanQueue.pending (scanQueue w)) →
            consistent w1) as Hwaits.
  { intros w1 Hj Hi Hp. unfold consistent, pending_ids. rewrite Hp, Hi.
    assert (∀ r, r ≠ rid → status_of w1 r = status_of w r) as Hother.
    { intros r Hr. unfold status_of. by rewrite Hj, lookup_insert_ne. }
    assert (map q_requestId (ScanQueue.insert_by ScanQueue.starts_before e
                               (ScanQueue.pending (scanQueue w)))
            ≡ₚ rid :: pending_ids w) as Hperm by (by rewrite insert_by_perm).
    split_and!.
    - rewrite Hperm. by apply NoDup_cons.
    - intros r Hr. rewrite Hperm in Hr. apply elem_of_cons in Hr as [->|Hr].
      + unfold status_of. by rewrite Hj, lookup_insert_eq.
      + rewrite Hother; [by apply Hpend|]. by intros ->.
    - intros y Hy. destruct (Hinf y Hy) as (st & Hst & Hne). rewrite Hother; [by eexists|].
      intros Heq. rewrite Heq in Hst. congruence. }
  destruct (Nat.ltb (length _) _); cbn [fire].
  - match goal with |- context [scanStartedListener ?w1 e] =>
      assert (consistent (scanStartedListener w1 e)) as Hc
        by (apply Hstarted; reflexivity);
      generalize dependent (scanStartedListener w1 e) end.
    intros w2 Hc. destruct (Nat.ltb 0 _); [|done]. destruct update; [|done].
    by eapply consistent_log.
  - match goal with |- context [ScanQueue.getQueuePosition (scanQueue ?w1)] =>
      assert (consistent w1) as Hc by (apply Hwaits; reflexivity);
      generalize dependent w1 end.
    intros w2 Hc. destruct (Nat.ltb 0 _); [|done]. destruct update; [|done].
    by eapply consistent_log.
Qed.

Lemma consistent_cancelScan w rid update :
  consistent w → consistent (cancelScan w rid update).1.
Proof.
  intros Hc. pose proof Hc as (Hnd & Hpend & Hinf).
  unfold cancelScan, ScanQueue.cancelQueuedScan, ScanQueue.is_pending.
  case_bool_decide as Hin.
  - set (w0 := with_queue w _).
    assert (pending_ids w0 = filter (λ r, r ≠ rid) (pending_ids w)) as Hp0
      by apply without_ids.
    assert (consistent w0) as Hc0.
    { unfold consistent. rewrite Hp0. split_and!.
      - by apply NoDup_filter.
      - intros r [_ Hr]%list_elem_of_filter. by apply Hpend.
      - done. }
    assert (rid ∉ pending_ids w0) as Hout.
    { rewrite Hp0. intros [Hne _]%list_elem_of_filter. done. }
    destruct (globalJobs w0 !! rid); [|done].
    pose proof (consistent_update w0 rid CANCELLED None None None Hc0) as Hc1.
    destruct update; cbn; [|by apply Hc1].
    eapply consistent_log; [..|by apply Hc1]; done.
  - destruct (globalJobs w !! rid) as [job|]; [|done].
    destruct (decide (status job = RUNNING)); [|done].
    assert (consistent (updateJobStatus (track w (Cleanup rid)) rid CANCELLED None None None))
      as Hc1.
    { apply consistent_update; [by eapply consistent_log|done|done]. }
    destruct update; cbn; [|done].
    apply consistent_completeScan. by eapply consistent_log.
Qed.

Lemma finalizeScan_consistent w rid sid req fin :
  consistent w → rid ∉ pending_ids w →
  consistent (finalizeScan w rid sid req fin).1
  ∧ (∀ m, (finalizeScan w rid sid req fin).2 = Throw m →
       pending_ids (finalizeScan w rid sid req fin).1 = pending_ids w).
Proof.
  intros Hc Hout. unfold finalizeScan.
  set (w1 := updateJobStatus w rid RUNNING _ _ _).
  assert (consistent w1) as Hc1 by by apply consistent_update.
  assert (pending_ids w1 = pending_ids w) as Hp1.
  { unfold pending_ids, w1. by destruct (updateJobStatus_frame w rid RUNNING (Some 90) None
      (Some "Processing scan results")) as (-> & _). }
  destruct (loadScanResults fin) as [reports|]; [|done].
  destruct (getScannerVersions fin) as [versions|]; [|done].
  destruct (uploadScanResults fin); [|done].
  set (w2 := persist w1 _).
  assert (consistent w2) as Hc2 by by eapply consistent_log.
  assert (∀ w3, globalJobs w3 = globalJobs w2 → scanQueue w3 = scanQueue w2 →
            inflight w3 = inflight w2 →
            consistent (completeScan
              (updateJobStatus w3 rid SUCCESS (Some 100) None
                 (Some "Scan completed successfully")) rid None)) as Hend.
  { intros w3 Hj Hq Hi. apply consistent_completeScan, consistent_update; [|done|].
    - by eapply consistent_log.
    - unfold pending_ids. rewrite Hq. by rewrite <- Hp1 in Hout. }
  destruct (_ || _).
  - destruct (notifyScanComplete fin); cbn.
    + split; [by apply Hend|done].
    + done.
  - cbn. split; [by apply Hend|done].
Qed.

Lemma consistent_settle w x dispatch fin update :
  consistent w → x_requestId x ∉ pending_ids w →
  consistent (settle w x dispatch fin update).
Proof.
  intros Hc Hout. unfold settle, executeScan_resume.
  assert (∀ w1 m, consistent w1 → pending_ids w1 = pending_ids w →
            consistent (scanStartedListener_catch w1 (x_requestId x) m)) as Hcatch.
  { intros w1 m Hc1 Hp1. apply consistent_completeScan, consistent_update; [done..|].
    by rewrite Hp1. }
  assert (∀ w1 m, consistent w1 → pending_ids w1 = pending_ids w →
            consistent (scanStartedListener_catch
                          (executeScan_catch w1 x m update).1 (x_requestId x)
                          (executeScan_catch w1 x m update).2)) as Hthrow.
  { intros w1 m Hc1 Hp1. unfold executeScan_catch. destruct update; cbn.
    - apply Hcatch.
      + apply consistent_update; [by eapply consistent_log|done|]. by rewrite <- Hp1 in Hout.
      + unfold pending_ids. by destruct (updateJobStatus_frame
          (persist (track w1 (Cleanup (x_requestId x)))
             (UpdateScanRecord (x_scanId x) FAILED (Some m) true))
          (x_requestId x) FAILED None (Some m) None) as (-> & _).
    - apply Hcatch; [by eapply consistent_log|done]. }
  destruct dispatch as [?|m].
  - destruct (finalizeScan_consistent w (x_requestId x) (x_scanId x) (x_request x) fin Hc Hout)
      as [Hc1 Hp1].
    destruct (finalizeScan _ _ _ _ _) as [w1 [?|m]]; [done|].
    specialize (Hthrow w1 m Hc1 (Hp1 m eq_refl)).
    by destruct (executeScan_catch w1 x m update).
  - specialize (Hthrow w m Hc eq_refl).
    by destruct (executeScan_catch w x m update).
Qed.

Lemma take_exec_spec rid l x rest :
  take_exec rid l = Some (x, rest) → x_requestId x = rid ∧ l ≡ₚ x :: rest.
Proof.
  revert x rest. induction l as [|y l IH]; intros x rest; cbn [take_exec]; [done|].
  destruct (decide (x_requestId y = rid)).
  - intros [= <- <-]. done.
  - destruct (take_exec rid l) as [[z rest']|]; [|done]. cbn. intros [= <- <-].
    destruct (IH z rest' eq_refl) as [-> Hperm]. split; [done|].
    rewrite Hperm. apply Permutation_swap.
Qed.

Lemma consistent_step w e w' : consistent w → step w e = Some w' → consistent w'.
Proof.
  intros Hc. destruct e as [rid req prio ini upd|rid d fin upd|rid upd]; cbn [step].
  - destruct (globalJobs w !! rid) eqn:Hfresh; [done|]. intros [= <-].
    by apply consistent_startScan.
  - destruct (take_exec rid (inflight w)) as [[x rest]|] eqn:Htake; [|done].
    cbn. intros [= <-]. apply take_exec_spec in Htake as [Hx Hperm].
    destruct Hc as (Hnd & Hpend & Hinf). apply consistent_settle.
    + split_and!; [done..|]. intros y Hy. apply Hinf. cbn in Hy. rewrite Hperm. by right.
    + intros Hin. apply Hpend in Hin.
      destruct (Hinf x) as (st & Hst & Hne); [rewrite Hperm; by left|]. congruence.
  - intros [= <-]. by apply consistent_cancelScan.
Qed.

Lemma consistent_run events : ∀ w w',
  consistent w → run w events = Some w' → consistent w'.
Proof.
  induction events as [|e events IH]; intros w w' Hc; cbn [run].
  - by intros [= <-].
  - destruct (step w e) as [w1|] eqn:Hstep; [|done]. cbn.
    apply IH. by eapply consistent_step.
Qed.

Lemma consistent_reachable w : reachable w → consistent w.
Proof.
  intros (limit & events & Hrun). eapply consistent_run; [|done].
  split_and!; [constructor|intros r Hr; by apply elem_of_nil in Hr|
               intros x Hx; by apply elem_of_nil in Hx].
Qed.

End Registry.

(** C6. In every state the service can reach, [cancelScan] on a request
    id that is unknown or whose job is SUCCESS, FAILED or CANCELLED returns
    false and leaves the whole state as it is. *)
Theorem cancelScan_unknown_or_terminal (w : ScannerService.World) (rid : string)
    (update : Result unit)
    (Hreach : ScannerService.reachable w)
    (Hjob : ScannerService.status_of w rid = None
            ∨ ∃ st, ScannerService.status_of w rid = Some st ∧ terminal st = true) :
  ScannerService.cancelScan w rid update = (w, Ok false).
Proof.
  destruct (consistent_reachable w Hreach) as (_ & Hpend & _).
  assert (rid ∉ ScannerService.pending_ids w) as Hout.
  { intros Hin%Hpend. destruct Hjob as [?|(st & ? & ?)]; [congruence|].
    by simplify_eq. }
  unfold ScannerService.cancelScan, ScanQueue.cancelQueuedScan, ScanQueue.is_pending.
  rewrite bool_decide_eq_false_2 by done.
  unfold ScannerService.status_of in Hjob.
  destruct (ScannerService.globalJobs w !! rid) as [job|]; [|done].
  destruct Hjob as [?|(st & [= <-] & Hterm)]; [done|].
  destruct (decide (status job = RUNNING)) as [Hrun|]; [|done].
  by rewrite Hrun in Hterm.
Qed.

Lemma cancelScan_unknown_or_terminal_witness :
  ScannerService.cancelScan cancelled_r1 "r1" (Ok tt) = (cancelled_r1, Ok false)
  ∧ ScannerService.cancelScan cancelled_r1 "r9" (Ok tt) = (cancelled_r1, Ok false).
Proof.
  assert (ScannerService.reachable cancelled_r1) as Hreach.
  { exists 2%nat, [start_r1; cancel_r1]. vm_compute. reflexivity. }
  split; apply cancelScan_unknown_or_terminal; try exact Hreach.
  - right. exists CANCELLED. split; vm_compute; reflexivity.
  - left. vm_compute. reflexivity.
Defined.

Section Settling.
Import ScannerService.

Lemma updateJobStatus_other w rid st p e s r :
  r ≠ rid → globalJobs (updateJobStatus w rid st p e s) !! r = globalJobs w !! r.
Proof.
  intros Hne. unfold updateJobStatus. destruct (globalJobs w !! rid); [|done].
  destruct st; cbn; by rewrite lookup_insert_ne.
Qed.

Lemma listener_job w e r :
  r ≠ q_requestId e → globalJobs (scanStartedListener w e) !! r = globalJobs w !! r.
Proof.
  intros Hne. unfold scanStartedListener.
  match goal with |- context [executeScan_begin ?w1 ?a ?b ?c ?d] =>
    destruct (executeScan_begin_effect w1 a b c d) as (k & _ & -> & _) end.
  destruct (globalJobs w !! q_requestId e); [|done]. cbn. by rewrite lookup_insert_ne.
Qed.

(** A call of [completeScan] leaves the job of every request that is not
    waiting as it is. *)
Lemma completeScan_job w rid err r :
  r ∉ pending_ids w → globalJobs (completeScan w rid err) !! r = globalJobs w !! r.
Proof.
  intros Hout. unfold completeScan, ScanQueue.completeScan.
  unfold pending_ids in Hout.
  destruct (ScanQueue.pending (scanQueue w)) as [|e rest]; [done|].
  destruct (Nat.ltb _ _); [|done]. cbn [fire]. rewrite listener_job; [done|].
  intros ->. apply Hout. by left.
Qed.

Lemma release_count_snoc w w' r0 err rid :
  released w' = released w ++ [(r0, err)] →
  release_count w' rid = (release_count w rid + if decide (r0 = rid) then 1 else 0)%nat.
Proof.
  intros Hr. unfold release_count. rewrite Hr, filter_app, length_app.
  f_equal. rewrite filter_cons, filter_nil. cbn. by destruct (decide (r0 = rid)).
Qed.

Lemma release_count_same w w' rid :
  released w' = released w → release_count w' rid = release_count w rid.
Proof. unfold release_count. by intros ->. Qed.

(** The two [catch] handlers in a row: the job ends FAILED, the message
    that reaches the listener is recorded when it is not empty, the slot is
    released once, and the failure is persisted when the update returns. *)
Lemma settle_throw w x m update job :
  x_requestId x ∉ pending_ids w →
  globalJobs w !! x_requestId x = Some job →
  let caught := executeScan_catch w x m update in
  let w' := scanStartedListener_catch caught.1 (x_requestId x) caught.2 in
  let thrown := match update with Ok _ => m | Throw m2 => m2 end in
  globalJobs w' !! x_requestId x
  = Some (mkScanJob (requestId job) (scanId job) (imageId job) FAILED (progress job)
            (if truthy (Some thrown) then Some thrown else error job))
  ∧ released w' = released w ++ [(x_requestId x, Some thrown)]
  ∧ database w'
    = database w ++ match update with
                    | Ok _ => [UpdateScanRecord (x_scanId x) FAILED (Some m) true]
                    | Throw _ => []
                    end.
Proof.
  intros Hout Hjob. cbv zeta. unfold executeScan_catch, scanStartedListener_catch.
  set (rid := x_requestId x) in *.
  destruct update as [?|m2]; cbn [fst snd].
  - set (w3 := persist (track w (Cleanup rid)) _).
    set (w4 := updateJobStatus w3 rid FAILED None (Some m) None).
    set (w5 := updateJobStatus w4 rid FAILED None (Some m) None).
    assert (globalJobs w4 !! rid = Some _) as H4 by by apply updateJobStatus_known.
    assert (globalJobs w5 !! rid = Some _) as H5 by by apply updateJobStatus_known.
    destruct (updateJobStatus_frame w3 rid FAILED None (Some m) None) as (Hq4 & _ & Hr4 & Hd4).
    destruct (updateJobStatus_frame w4 rid FAILED None (Some m) None) as (Hq5 & _ & Hr5 & Hd5).
    destruct (completeScan_effect w5 rid (Some m)) as (Hr & Hd & _).
    subst w5 w4 w3. split_and!.
    + rewrite completeScan_job.
      * rewrite H5. cbn -[truthy]. by destruct (truthy (Some m)).
      * unfold pending_ids. by rewrite Hq5, Hq4.
    + by rewrite Hr, Hr5, Hr4.
    + by rewrite Hd, Hd5, Hd4.
  - set (w2 := track w (Cleanup rid)).
    set (w5 := updateJobStatus w2 rid FAILED None (Some m2) None).
    assert (globalJobs w5 !! rid = Some _) as H5 by by apply updateJobStatus_known.
    destruct (updateJobStatus_frame w2 rid FAILED None (Some m2) None) as (Hq5 & _ & Hr5 & Hd5).
    destruct (completeScan_effect w5 rid (Some m2)) as (Hr & Hd & _).
    subst w5 w2. split_and!.
    + rewrite completeScan_job; [done|]. unfold pending_ids. by rewrite Hq5.
    + by rewrite Hr, Hr5.
    + rewrite Hd, Hd5. cbn. by rewrite app_nil_r.
Qed.

(** A finalize step that throws leaves the job RUNNING at 90, frees no
    slot and keeps what the database holds. *)
Lemma finalizeScan_throws w rid sid req fin m job :
  finalize_throws fin m →
  globalJobs w !! rid = Some job →
  ∃ w1, finalizeScan w rid sid req fin = (w1, Throw m)
    ∧ pending_ids w1 = pending_ids w
    ∧ released w1 = released w
    ∧ globalJobs w1 !! rid
      = Some (mkScanJob (requestId job) (scanId job) (imageId job) RUNNING 90 (error job))
    ∧ ∀ c, c ∈ database w → c ∈ database w1.
Proof.
  intros Hthrow Hjob. unfold finalizeScan.
  set (w1 := updateJobStatus w rid RUNNING _ _ _).
  assert (globalJobs w1 !! rid = Some _) as H1 by by apply updateJobStatus_known.
  destruct (updateJobStatus_frame w rid RUNNING (Some 90) None
              (Some "Processing scan results")) as (Hq1 & _ & Hr1 & Hd1).
  assert (pending_ids w1 = pending_ids w) as Hp1 by (unfold pending_ids; subst w1; by rewrite Hq1).
  fold w1 in Hr1, Hd1.
  destruct Hthrow as [->|(reports & -> & [->|(versions & -> & [->|(-> & Hn & Hc)])])].
  - exists w1. split_and!; [done..|]. intros c. by rewrite Hd1.
  - exists w1. split_and!; [done..|]. intros c. by rewrite Hd1.
  - exists w1. split_and!; [done..|]. intros c. by rewrite Hd1.
  - eexists. rewrite Hn.
    assert (Nat.ltb 0 (critical (calculateVulnerabilityCounts (attach_versions reports versions)))
            || Nat.ltb 0 (high (calculateVulnerabilityCounts (attach_versions reports versions)))
            = true) as ->.
    { apply orb_true_iff. rewrite !Nat.ltb_lt. exact Hc. }
    split_and!; [done..|]. intros c Hin. cbn. rewrite Hd1. apply elem_of_app. by left.
Qed.

(** A finalize step none of whose calls throws ends the job in SUCCESS at
    100 and releases the slot once. *)
Lemma finalizeScan_returns w rid sid req fin reports versions job :
  loadScanResults fin = Ok reports →
  getScannerVersions fin = Ok versions →
  uploadScanResults fin = Ok tt →
  (let counts := calculateVulnerabilityCounts (attach_versions reports versions) in
   Nat.ltb 0 (critical counts) || Nat.ltb 0 (high counts) = false)
  ∨ notifyScanComplete fin = Ok tt →
  rid ∉ pending_ids w →
  globalJobs w !! rid = Some job →
  ∃ w1, finalizeScan w rid sid req fin = (w1, Ok tt)
    ∧ globalJobs w1 !! rid
      = Some (mkScanJob (requestId job) (scanId job) (imageId job) SUCCESS 100 (error job))
    ∧ release_count w1 rid = S (release_count w rid).
Proof.
  intros Hl Hv Hu Hn Hout Hjob. unfold finalizeScan. rewrite Hl, Hv, Hu.
  set (w1 := updateJobStatus w rid RUNNING _ _ _).
  assert (globalJobs w1 !! rid = Some _) as H1 by by apply updateJobStatus_known.
  pose proof (updateJobStatus_frame w rid RUNNING (Some 90) None
                (Some "Processing scan results")) as (Hq1 & _ & Hr1 & _).
  fold w1 in Hq1, Hr1.
  assert (∀ w3, globalJobs w3 = globalJobs w1 → scanQueue w3 = scanQueue w1 →
            released w3 = released w1 →
            let w5 := completeScan (updateJobStatus w3 rid SUCCESS (Some 100) None
                        (Some "Scan completed successfully")) rid None in
            globalJobs w5 !! rid
            = Some (mkScanJob (requestId job) (scanId job) (imageId job) SUCCESS 100 (error job))
            ∧ release_count w5 rid = S (release_count w rid)) as Hend.
  { intros w3 Hj Hq Hr. cbv zeta.
    pose proof (updateJobStatus_frame w3 rid SUCCESS (Some 100) None
                  (Some "Scan completed successfully")) as (Hq4 & _ & Hr4 & _).
    destruct (completeScan_effect (updateJobStatus w3 rid SUCCESS (Some 100) None
                (Some "Scan completed successfully")) rid None) as (Hr5 & _).
    split.
    - rewrite completeScan_job.
      + erewrite updateJobStatus_known; [|by rewrite Hj]. done.
      + unfold pending_ids. by rewrite Hq4, Hq, Hq1.
    - erewrite release_count_snoc by exact Hr5. rewrite decide_True by done.
      rewrite (release_count_same w (updateJobStatus w3 rid SUCCESS (Some 100) None
                 (Some "Scan completed successfully"))); [lia|]. by rewrite Hr4, Hr, Hr1. }
  destruct (_ || _) eqn:Htrig.
  - destruct Hn as [Hn|Hn]; [cbv zeta in Hn; congruence|]. rewrite Hn.
    eexists. split; [done|]. by apply Hend.
  - eexists. split; [done|]. by apply Hend.
Qed.

(** What a reachable state knows of a suspended execution: its job
    exists and its request does not wait. *)
Lemma suspended_execution w rid x rest :
  reachable w → take_exec rid (inflight w) = Some (x, rest) →
  x_requestId x = rid ∧ (rid ∉ pending_ids w) ∧ (∃ job, globalJobs w !! rid = Some job).
Proof.
  intros (_ & Hpend & Hinf)%consistent_reachable [Hx Hperm]%take_exec_spec.
  destruct (Hinf x) as (st & Hst & Hne); [rewrite Hperm; by left|].
  rewrite Hx in Hst. split_and!; [done| |].
  - intros Hin%Hpend. congruence.
  - unfold status_of in Hst. destruct (globalJobs w !! rid); [by eexists|done].
Qed.

End Settling.

(** C3, as amended.  When the executor call of a suspended execution
    throws, or the finalize step after it does, the error is handled by the
    two catch handlers: the job ends FAILED and its slot is released once
    more.  The message that reaches the listener (the one thrown, or the
    one of the database update of the catch block when that update throws
    in turn) is recorded on the job unless it is empty.  When the update
    returns, the FAILED status and the message are persisted. *)
Theorem executor_failure_is_caught (w : ScannerService.World) (rid : string)
    (x : Exec) (rest : list Exec) (dispatch : Result unit) (fin : Finalize)
    (update : Result unit) (m : string)
    (Hreach : ScannerService.reachable w)
    (Htake : ScannerService.take_exec rid (ScannerService.inflight w) = Some (x, rest))
    (Hthrow : dispatch = Throw m
              ∨ (dispatch = Ok tt ∧ ScannerService.finalize_throws fin m)) :
  let w' := ScannerService.settle (ScannerService.with_inflight w rest) x dispatch fin update in
  let thrown := match update with Ok _ => m | Throw m2 => m2 end in
  ScannerService.status_of w' rid = Some FAILED
  ∧ ScannerService.release_count w' rid = S (ScannerService.release_count w rid)
  ∧ (ScannerService.globalJobs w' !! rid ≫= error)
    = (if truthy (Some thrown) then Some thrown
       else ScannerService.globalJobs w !! rid ≫= error)
  ∧ (update = Ok tt →
     UpdateScanRecord (x_scanId x) FAILED (Some m) true ∈ ScannerService.database w').
Proof.
  destruct (suspended_execution w rid x rest Hreach Htake) as (Hx & Hout & job & Hjob).
  subst rid. cbv zeta. unfold ScannerService.settle, ScannerService.executeScan_resume.
  set (w0 := ScannerService.with_inflight w rest).
  assert (∀ w1 job1, ScannerService.pending_ids w1 = ScannerService.pending_ids w →
            ScannerService.released w1 = ScannerService.released w →
            ScannerService.globalJobs w1 !! x_requestId x = Some job1 →
            error job1 = error job →
            let caught := ScannerService.executeScan_catch w1 x m update in
            let w' := ScannerService.scanStartedListener_catch caught.1 (x_requestId x)
                        caught.2 in
            ScannerService.status_of w' (x_requestId x) = Some FAILED
            ∧ ScannerService.release_count w' (x_requestId x)
              = S (ScannerService.release_count w (x_requestId x))
            ∧ (ScannerService.globalJobs w' !! x_requestId x ≫= error)
              = (if truthy (Some match update with Ok _ => m | Throw m2 => m2 end)
                 then Some match update with Ok _ => m | Throw m2 => m2 end
                 else ScannerService.globalJobs w !! x_requestId x ≫= error)
            ∧ (update = Ok tt →
               UpdateScanRecord (x_scanId x) FAILED (Some m) true
               ∈ ScannerService.database w')) as Hcatch.
  { intros w1 job1 Hp1 Hr1 Hjob1 Herr. cbv zeta.
    destruct (settle_throw w1 x m update job1) as (Hj' & Hr' & Hd'); [by rewrite Hp1|done|].
    split_and!.
    - unfold ScannerService.status_of. by rewrite Hj'.
    - erewrite release_count_snoc by exact Hr'. rewrite decide_True by done.
      rewrite (release_count_same w w1) by done. lia.
    - rewrite Hj', Hjob. cbn -[truthy]. rewrite Herr. by destruct (truthy _).
    - intros ->. rewrite Hd'. apply elem_of_app. right. by left. }
  destruct Hthrow as [->|[-> Hfin]].
  - specialize (Hcatch w0 job eq_refl eq_refl Hjob eq_refl). cbv zeta in Hcatch.
    cbn. by destruct (ScannerService.executeScan_catch w0 x m update).
  - destruct (finalizeScan_throws w0 (x_requestId x) (x_scanId x) (x_request x) fin m job
                Hfin Hjob) as (w1 & -> & Hp1 & Hr1 & Hj1 & Hd1).
    specialize (Hcatch w1 _ Hp1 Hr1 Hj1 eq_refl). cbv zeta in Hcatch.
    cbn. by destruct (ScannerService.executeScan_catch w1 x m update).
Qed.

Lemma executor_failure_is_caught_witness :
  let w' := ScannerService.settle (ScannerService.with_inflight running_r1 []) exec_r1
              (Throw "boom") fin_ok (Ok tt) in
  ScannerService.status_of w' "r1" = Some FAILED
  ∧ ScannerService.release_count w' "r1" = 1%nat
  ∧ (ScannerService.globalJobs w' !! "r1" ≫= error) = Some "boom"
  ∧ UpdateScanRecord "s1" FAILED (Some "boom") true ∈ ScannerService.database w'.
Proof.
  assert (ScannerService.reachable running_r1) as Hreach.
  { exists 2%nat, [start_r1]. vm_compute. reflexivity. }
  pose proof (executor_failure_is_caught running_r1 "r1" exec_r1 [] (Throw "boom") fin_ok
                (Ok tt) "boom" Hreach eq_refl (or_introl eq_refl)) as (H1 & H2 & H3 & H4).
  exact (conj H1 (conj H2 (conj H3 (H4 eq_refl)))).
Defined.

(** C3, as stated, fails.  An executor error with an empty message leaves
    no error on the job; and when the database update of the catch block
    throws, the message recorded is the one of the database, and no FAILED
    status is persisted. *)
Lemma empty_or_unpersisted_error :
  ScannerService.observe 2
    [start_r1; ScannerService.Settle "r1" (Throw EmptyString) fin_ok (Ok tt)] "r1"
  = Some (Some FAILED, None, 1%nat)
  ∧ ScannerService.observe 2
      [start_r1; ScannerService.Settle "r1" (Throw "boom") fin_ok (Throw "db down")] "r1"
    = Some (Some FAILED, Some "db down", 1%nat)
  ∧ (ScannerService.database
       <$> ScannerService.run (ScannerService.init 2)
             [start_r1; ScannerService.Settle "r1" (Throw "boom") fin_ok (Throw "db down")])
    = Some [InitializeScanRecord "r1" a_request "s1" "i1"].
Proof. split_and!; vm_compute; reflexivity. Qed.

(** C8, as amended.  The notification is awaited inside the finalize step
    with no guard of its own.  When the counts call for it and it throws,
    the scan ends FAILED, like for any other finalize error, and the slot
    is released once; when it returns, or when no critical or high finding
    calls for it, the job reaches SUCCESS at 100 and the slot is released
    once. *)
Theorem notification_failure_is_a_finalize_error (w : ScannerService.World)
    (rid : string) (x : Exec) (rest : list Exec) (fin : Finalize) (update : Result unit)
    (reports : Reports) (versions : string)
    (Hreach : ScannerService.reachable w)
    (Htake : ScannerService.take_exec rid (ScannerService.inflight w) = Some (x, rest))
    (Hload : loadScanResults fin = Ok reports)
    (Hversions : getScannerVersions fin = Ok versions)
    (Hupload : uploadScanResults fin = Ok tt) :
  let w' := ScannerService.settle (ScannerService.with_inflight w rest) x (Ok tt) fin update in
  let counts := calculateVulnerabilityCounts (ScannerService.attach_versions reports versions) in
  ScannerService.release_count w' rid = S (ScannerService.release_count w rid)
  ∧ match notifyScanComplete fin with
    | Throw m =>
        if Nat.ltb 0 (critical counts) || Nat.ltb 0 (high counts)
        then ScannerService.status_of w' rid = Some FAILED
        else ScannerService.status_of w' rid = Some SUCCESS
    | Ok _ => ScannerService.status_of w' rid = Some SUCCESS
              ∧ (progress <$> ScannerService.globalJobs w' !! rid) = Some 100
    end.
Proof.
  destruct (suspended_execution w rid x rest Hreach Htake) as (Hx & Hout & job & Hjob).
  subst rid. cbv zeta. unfold ScannerService.settle, ScannerService.executeScan_resume.
  set (w0 := ScannerService.with_inflight w rest).
  set (counts := calculateVulnerabilityCounts (ScannerService.attach_versions reports versions)).
  assert (Nat.ltb 0 (critical counts) || Nat.ltb 0 (high counts) = false
          ∨ notifyScanComplete fin = Ok tt →
          ∃ w1, ScannerService.finalizeScan w0 (x_requestId x) (x_scanId x) (x_request x) fin
                = (w1, Ok tt)
            ∧ ScannerService.status_of w1 (x_requestId x) = Some SUCCESS
            ∧ (progress <$> ScannerService.globalJobs w1 !! x_requestId x) = Some 100
            ∧ ScannerService.release_count w1 (x_requestId x)
              = S (ScannerService.release_count w (x_requestId x))) as Hgood.
  { intros Hn.
    destruct (finalizeScan_returns w0 (x_requestId x) (x_scanId x) (x_request x) fin
                reports versions job Hload Hversions Hupload Hn Hout Hjob)
      as (w1 & Hfin & Hj1 & Hr1).
    exists w1. unfold ScannerService.status_of. rewrite Hj1. by split_and!. }
  destruct (notifyScanComplete fin) as [[]|m] eqn:Hnotify.
  - destruct Hgood as (w1 & -> & Hs & Hp & Hr); [by right|]. by split_and!.
  - destruct (Nat.ltb 0 (critical counts) || Nat.ltb 0 (high counts)) eqn:Htrigger.
    + assert (ScannerService.finalize_throws fin m) as Hthrows.
      { right. exists reports. split; [done|]. right. exists versions. split; [done|].
        right. split_and!; [done..|]. cbv zeta. fold counts.
        apply orb_true_iff in Htrigger. by rewrite !Nat.ltb_lt in Htrigger. }
      destruct (finalizeScan_throws w0 (x_requestId x) (x_scanId x) (x_request x) fin m job
                  Hthrows Hjob) as (w1 & -> & Hp1 & Hr1 & Hj1 & _).
      destruct (settle_throw w1 x m update _ ltac:(by rewrite Hp1) Hj1) as (Hj' & Hr' & _).
      cbv zeta in Hj', Hr'. cbn.
      destruct (ScannerService.executeScan_catch w1 x m update) as [w2 m']. cbn in *.
      split.
      * erewrite release_count_snoc by exact Hr'. rewrite decide_True by done.
        rewrite (release_count_same w w1) by done. lia.
      * unfold ScannerService.status_of. by rewrite Hj'.
    + destruct Hgood as (w1 & -> & Hs & Hp & Hr); [by left|]. by split_and!.
Qed.

Lemma notification_failure_is_a_finalize_error_witness :
  let w' := ScannerService.settle (ScannerService.with_inflight running_r1 []) exec_r1
              (Ok tt) fin_notify_fails (Ok tt) in
  ScannerService.release_count w' "r1" = 1%nat
  ∧ ScannerService.status_of w' "r1" = Some FAILED.
Proof.
  assert (ScannerService.reachable running_r1) as Hreach.
  { exists 2%nat, [start_r1]. vm_compute. reflexivity. }
  exact (notification_failure_is_a_finalize_error running_r1 "r1" exec_r1 []
           fin_notify_fails (Ok tt) one_critical "v1" Hreach eq_refl eq_refl eq_refl eq_refl).
Defined.

Section Accounting.
Import ScannerService.

Lemma unchanged_refl w r : unchanged_for w w r.
Proof. by split_and!. Qed.

Lemma unchanged_trans w1 w2 w3 r :
  unchanged_for w1 w2 r → unchanged_for w2 w3 r → unchanged_for w1 w3 r.
Proof. intros (? & ? & ?) (? & ? & ?). split_and!; congruence. Qed.

Lemma unchanged_calm w1 w2 w3 r :
  unchanged_for w1 w2 r → pending_ids w2 = pending_ids w1 →
  calm_for w2 w3 r → calm_for w1 w3 r.
Proof.
  intros (Hs & Hi & Hr) Hp [(? & ? & ?)|(? & ? & ? & ?)].
  - left. split_and!; congruence.
  - right. split_and!; congruence.
Qed.

Lemma calm_unchanged w1 w2 w3 r :
  calm_for w1 w2 r → unchanged_for w2 w3 r → calm_for w1 w3 r.
Proof.
  intros [(? & ? & ?)|(? & ? & ? & ?)] (Hs & Hi & Hr).
  - left. split_and!; congruence.
  - right. split_and!; congruence.
Qed.

Lemma unchanged_log w w' r :
  globalJobs w' = globalJobs w → scanQueue w' = scanQueue w →
  inflight w' = inflight w → released w' = released w →
  unchanged_for w w' r ∧ pending_ids w' = pending_ids w.
Proof.
  intros Hj Hq Hi Hr.
  unfold unchanged_for, status_of, inflight_count, release_count, pending_ids.
  by rewrite Hj, Hq, Hi, Hr.
Qed.

Lemma unchanged_update w rid st p e s r :
  r ≠ rid → unchanged_for w (updateJobStatus w rid st p e s) r.
Proof.
  intros Hne. destruct (updateJobStatus_frame w rid st p e s) as (_ & Hi & Hr & _).
  unfold unchanged_for, inflight_count, release_count.
  rewrite updateJobStatus_status, decide_False, Hi, Hr by done. done.
Qed.

Lemma update_pending w rid st p e s :
  pending_ids (updateJobStatus w rid st p e s) = pending_ids w.
Proof.
  unfold pending_ids. by destruct (updateJobStatus_frame w rid st p e s) as (-> & _).
Qed.

Lemma update_counts w rid st p e s r :
  inflight_count (updateJobStatus w rid st p e s) r = inflight_count w r
  ∧ release_count (updateJobStatus w rid st p e s) r = release_count w r.
Proof.
  destruct (updateJobStatus_frame w rid st p e s) as (_ & Hi & Hr & _).
  unfold inflight_count, release_count. by rewrite Hi, Hr.
Qed.

Lemma inflight_count_snoc w w' x r :
  inflight w' = inflight w ++ [x] →
  inflight_count w' r
  = (inflight_count w r + if decide (x_requestId x = r) then 1 else 0)%nat.
Proof.
  intros Hi. unfold inflight_count. rewrite Hi, filter_app, length_app.
  f_equal. rewrite filter_cons, filter_nil. by destruct (decide _).
Qed.

(** A call of [completeScan] as seen from one request: its release is
    counted when the call is for it; besides, the request is untouched or
    is the one started. *)
Lemma completeScan_summary w rid err r :
  let w' := completeScan w rid err in
  release_count w' r = (release_count w r + if decide (rid = r) then 1 else 0)%nat
  ∧ ((status_of w' r = status_of w r ∧ inflight_count w' r = inflight_count w r)
     ∨ (r ∈ pending_ids w
        ∧ status_of w' r = (λ _, RUNNING) <$> status_of w r
        ∧ inflight_count w' r = S (inflight_count w r))).
Proof.
  cbv zeta.
  destruct (completeScan_effect w rid err)
    as (Hr & _ & [(Hp & Hi & Hs)|(e & x & Hp & Hx & Hi & Hs)]).
  - split; [exact (release_count_snoc _ _ _ _ _ Hr)|]. left. unfold inflight_count. by rewrite Hs, Hi.
  - split; [exact (release_count_snoc _ _ _ _ _ Hr)|].
    rewrite (inflight_count_snoc w _ x r Hi), Hs, Hx.
    destruct (decide (r = q_requestId e)) as [->|Hne].
    + right. rewrite decide_True by done. split_and!; [|done|lia].
      unfold pending_ids. rewrite Hp. by left.
    + left. rewrite decide_False by done. split; [done|lia].
Qed.

Lemma completeScan_calm w rid err r :
  consistent w → r ≠ rid → calm_for w (completeScan w rid err) r.
Proof.
  intros (_ & Hpend & _) Hne. destruct (completeScan_summary w rid err r) as (Hr & Hcases).
  rewrite decide_False, Nat.add_0_r in Hr by done.
  destruct Hcases as [[? ?]|(Hin & Hs & ?)]; [left|right]; split_and!; try done.
  by rewrite Hs, (Hpend r Hin).
Qed.

Lemma completeScan_target w rid err :
  rid ∉ pending_ids w →
  status_of (completeScan w rid err) rid = status_of w rid
  ∧ inflight_count (completeScan w rid err) rid = inflight_count w rid
  ∧ release_count (completeScan w rid err) rid = S (release_count w rid).
Proof.
  intros Hout. destruct (completeScan_summary w rid err rid) as (Hr & Hcases).
  rewrite decide_True in Hr by done.
  destruct Hcases as [[? ?]|(Hin & _)]; [|done]. split_and!; [done..|lia].
Qed.

Lemma update_target_status w rid st p e s :
  is_Some (status_of w rid) → status_of (updateJobStatus w rid st p e s) rid = Some st.
Proof.
  intros [st0 Hst]. by rewrite updateJobStatus_status, decide_True, Hst by done.
Qed.

(** The two catch handlers in a row, as seen from a request: any other
    request is untouched or started; the request of the execution ends
    FAILED with one more release. *)
Lemma catch_chain w x m update r :
  consistent w → x_requestId x ∉ pending_ids w →
  let w' := scanStartedListener_catch (executeScan_catch w x m update).1 (x_requestId x)
              (executeScan_catch w x m update).2 in
  (r ≠ x_requestId x → calm_for w w' r)
  ∧ (is_Some (status_of w (x_requestId x)) →
     status_of w' (x_requestId x) = Some FAILED
     ∧ inflight_count w' (x_requestId x) = inflight_count w (x_requestId x)
     ∧ release_count w' (x_requestId x) = S (release_count w (x_requestId x))).
Proof.
  intros Hc Hout. cbv zeta. unfold scanStartedListener_catch.
  set (rid := x_requestId x) in *.
  assert (∃ wa, (executeScan_catch w x m update).1 = wa
            ∧ consistent wa ∧ pending_ids wa = pending_ids w
            ∧ (r ≠ rid → unchanged_for w wa r)
            ∧ (is_Some (status_of w rid) → is_Some (status_of wa rid))
            ∧ inflight_count wa rid = inflight_count w rid
            ∧ release_count wa rid = release_count w rid) as (wa & -> & Hca & Hpa & Hua & Hsa & Hia & Hra).
  { unfold executeScan_catch. fold rid. destruct update; cbn [fst].
    - set (w3 := persist (track w (Cleanup rid)) _).
      assert (consistent w3) as Hc3 by by eapply consistent_log.
      eexists. split; [done|]. split_and!.
      + apply consistent_update; [done..|]. exact Hout.
      + by rewrite update_pending.
      + intros Hne. eapply unchanged_trans; [|by apply unchanged_update].
        by apply unchanged_log.
      + intros Hs. rewrite update_target_status; [by eexists|]. exact Hs.
      + by destruct (update_counts w3 rid FAILED None (Some m) None rid) as [-> _].
      + by destruct (update_counts w3 rid FAILED None (Some m) None rid) as [_ ->].
    - eexists. split; [done|]. by split_and!. }
  set (m' := (executeScan_catch w x m update).2). clearbody m'.
  set (wb := updateJobStatus wa rid FAILED None (Some m') None).
  assert (consistent wb) as Hcb.
  { apply consistent_update; [done..|]. by rewrite Hpa. }
  assert (rid ∉ pending_ids wb) as Hob.
  { unfold wb. by rewrite update_pending, Hpa. }
  split.
  - intros Hne. eapply unchanged_calm; [| |by apply completeScan_calm].
    + eapply unchanged_trans; [by apply Hua|]. by apply unchanged_update.
    + unfold wb. by rewrite update_pending.
  - intros Hs. destruct (completeScan_target wb rid (Some m') Hob) as (-> & -> & ->).
    destruct (update_counts wa rid FAILED None (Some m') None rid) as [Hi Hr].
    fold wb in Hi, Hr. rewrite Hi, Hr, Hia, Hra.
    split_and!; [|done..]. apply update_target_status. by apply Hsa.
Qed.
(** The finalize step as seen from a request.  When it returns, any other
    request is untouched or started, and its own job is SUCCESS with one
    more release.  When it throws, nothing but the status of its own job
    changed. *)
Lemma finalize_chain w rid sid req fin r :
  consistent w → rid ∉ pending_ids w →
  match finalizeScan w rid sid req fin with
  | (w1, Ok _) =>
      (r ≠ rid → calm_for w w1 r)
      ∧ (is_Some (status_of w rid) →
         status_of w1 rid = Some SUCCESS
         ∧ inflight_count w1 rid = inflight_count w rid
         ∧ release_count w1 rid = S (release_count w rid))
  | (w1, Throw _) =>
      consistent w1 ∧ pending_ids w1 = pending_ids w
      ∧ (r ≠ rid → unchanged_for w w1 r)
      ∧ (is_Some (status_of w rid) → is_Some (status_of w1 rid))
      ∧ inflight_count w1 rid = inflight_count w rid
      ∧ release_count w1 rid = release_count w rid
  end.
Proof.
  intros Hc Hout. unfold finalizeScan.
  set (w1 := updateJobStatus w rid RUNNING _ _ _).
  assert (consistent w1) as Hc1 by by apply consistent_update.
  assert (pending_ids w1 = pending_ids w) as Hp1 by apply update_pending.
  assert (r ≠ rid → unchanged_for w w1 r) as Hu1 by (intros; by apply unchanged_update).
  assert (is_Some (status_of w rid) → is_Some (status_of w1 rid)) as Hs1.
  { intros Hs. unfold w1. rewrite update_target_status; [by eexists|done]. }
  destruct (update_counts w rid RUNNING (Some 90) None (Some "Processing scan results") rid)
    as [Hi1 Hr1]. fold w1 in Hi1, Hr1.
  assert (∀ w3, globalJobs w3 = globalJobs w1 → scanQueue w3 = scanQueue w1 →
            inflight w3 = inflight w1 → released w3 = released w1 →
            let w5 := completeScan (updateJobStatus w3 rid SUCCESS (Some 100) None
                        (Some "Scan completed successfully")) rid None in
            (r ≠ rid → calm_for w w5 r)
            ∧ (is_Some (status_of w rid) →
               status_of w5 rid = Some SUCCESS
               ∧ inflight_count w5 rid = inflight_count w rid
               ∧ release_count w5 rid = S (release_count w rid))) as Hend.
  { intros w3 Hj Hq Hi Hr. cbv zeta.
    destruct (unchanged_log w1 w3 r Hj Hq Hi Hr) as [Hu3 Hp3].
    destruct (unchanged_log w1 w3 rid Hj Hq Hi Hr) as [(Hs3 & Hi3 & Hr3) _].
    set (w4 := updateJobStatus w3 rid SUCCESS _ _ _).
    assert (consistent w4) as Hc4.
    { apply consistent_update; [by eapply consistent_log|done|]. by rewrite Hp3, Hp1. }
    assert (pending_ids w4 = pending_ids w) as Hp4.
    { unfold w4. by rewrite update_pending, Hp3, Hp1. }
    split.
    - intros Hne. eapply unchanged_calm; [| |by apply completeScan_calm]; [|done].
      eapply unchanged_trans; [by apply Hu1|].
      eapply unchanged_trans; [exact Hu3|]. by apply unchanged_update.
    - intros Hs. destruct (completeScan_target w4 rid None) as (-> & -> & ->);
        [by rewrite Hp4|].
      destruct (update_counts w3 rid SUCCESS (Some 100) None
                  (Some "Scan completed successfully") rid) as [Hi4 Hr4].
      fold w4 in Hi4, Hr4. rewrite Hi4, Hr4, Hi3, Hr3, Hi1, Hr1.
      split_and!; [|done..]. apply update_target_status. rewrite Hs3. by apply Hs1. }
  destruct (loadScanResults fin) as [reports|]; [|done].
  destruct (getScannerVersions fin) as [versions|]; [|done].
  destruct (uploadScanResults fin); [|done].
  destruct (_ || _).
  - destruct (notifyScanComplete fin); cbn.
    + by apply Hend.
    + done.
  - by apply Hend.
Qed.

(** The settling of an executor call as seen from a request. *)
Lemma settle_summary w x dispatch fin update r :
  consistent w → x_requestId x ∉ pending_ids w →
  let w' := settle w x dispatch fin update in
  (r ≠ x_requestId x → calm_for w w' r)
  ∧ (is_Some (status_of w (x_requestId x)) →
     (status_of w' (x_requestId x) = Some SUCCESS
      ∨ status_of w' (x_requestId x) = Some FAILED)
     ∧ inflight_count w' (x_requestId x) = inflight_count w (x_requestId x)
     ∧ release_count w' (x_requestId x) = S (release_count w (x_requestId x))).
Proof.
  intros Hc Hout. cbv zeta. unfold settle, executeScan_resume.
  destruct dispatch as [?|m].
  - pose proof (finalize_chain w (x_requestId x) (x_scanId x) (x_request x) fin r Hc Hout)
      as Hfin.
    destruct (finalizeScan _ _ _ _ _) as [w1 [?|m]].
    + destruct Hfin as [Hother Htarget]. split; [done|].
      intros Hs. destruct (Htarget Hs) as (? & ? & ?). split_and!; [by left|done..].
    + destruct Hfin as (Hc1 & Hp1 & Hu1 & Hs1 & Hi1 & Hr1).
      destruct (catch_chain w1 x m update r Hc1) as [Hother Htarget]; [by rewrite Hp1|].
      cbv zeta in Hother, Htarget.
      destruct (executeScan_catch w1 x m update) as [w2 m']. cbn in *. split.
      * intros Hne. destruct (Hother Hne) as [Hu|(Hin & ? & ? & ?)].
        -- left. eapply unchanged_trans; [by apply Hu1|done].
        -- right. destruct (Hu1 Hne) as (? & ? & ?).
           split_and!; [by rewrite <- Hp1|congruence..].
      * intros Hs. destruct (Htarget (Hs1 Hs)) as (? & ? & ?).
        split_and!; [by right|congruence..].
  - destruct (catch_chain w x m update r Hc Hout) as [Hother Htarget].
    cbv zeta in Hother, Htarget.
    destruct (executeScan_catch w x m update) as [w2 m']. cbn in *. split; [done|].
    intros Hs. destruct (Htarget Hs) as (? & ? & ?). split_and!; [by right|done..].
Qed.

Lemma startScan_summary w rid request priority initialize update r :
  let w' := (startScan w rid request priority initialize update).1 in
  (r ≠ rid → unchanged_for w w' r)
  ∧ (globalJobs w !! rid = None →
     release_count w' rid = release_count w rid
     ∧ (((status_of w' rid = None ∨ status_of w' rid = Some PENDING)
         ∧ inflight_count w' rid = inflight_count w rid)
        ∨ (status_of w' rid = Some RUNNING
           ∧ inflight_count w' rid = S (inflight_count w rid)))).
Proof.
  cbv zeta. unfold startScan. destruct initialize as [[sid iid]|m].
  2:{ cbn. split; [intros; apply unchanged_refl|]. intros Hfresh. split; [done|].
      left. split; [|done]. left. unfold status_of. by rewrite Hfresh. }
  unfold ScanQueue.addToQueue, ScanQueue.addToQueue_by.
  set (e := mkQueuedScan rid sid iid request (default 0 priority) _).
  set (job := mkScanJob rid sid iid PENDING 0 None).
  set (w1 := with_jobs (persist w (InitializeScanRecord rid request sid iid)) _).
  assert (∀ r', status_of w1 r' = if decide (r' = rid) then Some PENDING else status_of w r')
    as Hs1.
  { intros r'. unfold status_of, w1. cbn. destruct (decide (r' = rid)) as [->|Hne].
    - by rewrite lookup_insert_eq.
    - by rewrite lookup_insert_ne. }
  assert (∀ w2 w3, globalJobs w3 = globalJobs w2 → inflight w3 = inflight w2 →
            released w3 = released w2 → released w2 = released w →
            (∀ r', status_of w2 r' = if decide (r' = rid) then Some PENDING
                                     else status_of w r') →
            inflight w2 = inflight w →
            (r ≠ rid → unchanged_for w w3 r)
            ∧ release_count w3 rid = release_count w rid
            ∧ (((status_of w3 rid = None ∨ status_of w3 rid = Some PENDING)
                ∧ inflight_count w3 rid = inflight_count w rid)
               ∨ (status_of w3 rid = Some RUNNING
                  ∧ inflight_count w3 rid = S (inflight_count w rid)))) as Hwaits.
  { intros w2 w3 Hj Hi Hr Hr2 Hs2 Hi2.
    assert (∀ r', status_of w3 r' = status_of w2 r') as Hs3
      by (intros; unfold status_of; by rewrite Hj).
    unfold unchanged_for, inflight_count, release_count.
    rewrite !Hs3, !Hs2, Hi, Hi2, Hr, Hr2. split_and!.
    - intros Hne. by rewrite decide_False.
    - done.
    - left. rewrite decide_True by done. split; [by right|done]. }
  assert (∀ w2 w3, globalJobs w3 = globalJobs w2 → inflight w3 = inflight w2 →
            released w3 = released w2 → released w2 = released w →
            (∀ r', status_of w2 r' = if decide (r' = rid) then Some RUNNING
                                     else status_of w r') →
            (∃ x, x_requestId x = rid ∧ inflight w2 = inflight w ++ [x]) →
            (r ≠ rid → unchanged_for w w3 r)
            ∧ release_count w3 rid = release_count w rid
            ∧ (((status_of w3 rid = None ∨ status_of w3 rid = Some PENDING)
                ∧ inflight_count w3 rid = inflight_count w rid)
               ∨ (status_of w3 rid = Some RUNNING
                  ∧ inflight_count w3 rid = S (inflight_count w rid)))) as Hstarts.
  { intros w2 w3 Hj Hi Hr Hr2 Hs2 (x & Hx & Hi2).
    assert (∀ r', status_of w3 r' = status_of w2 r') as Hs3
      by (intros; unfold status_of; by rewrite Hj).
    assert (∀ r', inflight_count w3 r'
                  = (inflight_count w r' + if decide (rid = r') then 1 else 0)%nat) as Hc3.
    { intros r'. rewrite <- Hx. apply inflight_count_snoc. by rewrite Hi, Hi2. }
    unfold unchanged_for. rewrite !Hs3, !Hs2, !Hc3.
    unfold release_count. rewrite Hr, Hr2. split_and!.
    - intros Hne. rewrite !decide_False by done. split_and!; [done|lia|done].
    - done.
    - right. rewrite !decide_True by done. split; [done|lia]. }
  destruct (Nat.ltb (length _) _); cbn [fire].
  - set (w2 := scanStartedListener _ e).
    destruct (listener_effect (with_queue w1
                {| ScanQueue.limit := ScanQueue.limit (scanQueue w1);
                   ScanQueue.running := ScanQueue.running (scanQueue w1) ++ [e];
                   ScanQueue.pending := ScanQueue.pending (scanQueue w1);
                   ScanQueue.arrivals := S (ScanQueue.arrivals (scanQueue w1)) |}) e)
      as (Hx & _ & Hr2 & _ & Hs2). fold w2 in Hx, Hr2, Hs2.
    assert (∀ r', status_of w2 r' = if decide (r' = rid) then Some RUNNING
                                    else status_of w r') as Hs2'.
    { intros r'. rewrite Hs2. cbn [q_requestId e].
      change (status_of (with_queue w1 _)) with (status_of w1). rewrite !Hs1.
      destruct (decide (r' = rid)); [by rewrite decide_True|done]. }
    destruct (Nat.ltb 0 _); [destruct update|]; cbn [fst];
      (split; [|intros _]; eapply (Hstarts w2); done).
  - set (w2 := with_queue w1 _).
    destruct (Nat.ltb 0 _); [destruct update|]; cbn [fst];
      (split; [|intros _]; eapply (Hwaits w2); done).
Qed.

Lemma cancelScan_other w rid update r :
  consistent w → r ≠ rid → calm_for w (cancelScan w rid update).1 r.
Proof.
  intros Hc Hne. unfold cancelScan, ScanQueue.cancelQueuedScan, ScanQueue.is_pending.
  case_bool_decide as Hin.
  - set (w0 := with_queue w _). left.
    assert (unchanged_for w w0 r) as Hu0 by done.
    destruct (globalJobs w0 !! rid); [|done].
    assert (unchanged_for w (updateJobStatus w0 rid CANCELLED None None None) r) as Hu1.
    { eapply unchanged_trans; [exact Hu0|]. by apply unchanged_update. }
    by destruct update.
  - destruct (globalJobs w !! rid) as [job|] eqn:Hjob; [|left; apply unchanged_refl].
    destruct (decide (status job = RUNNING)); [|left; apply unchanged_refl].
    set (w2 := updateJobStatus (track w (Cleanup rid)) rid CANCELLED None None None).
    assert (unchanged_for w w2 r) as Hu2.
    { eapply (unchanged_trans _ (track w (Cleanup rid))); [done|]. by apply unchanged_update. }
    assert (pending_ids w2 = pending_ids w) as Hp2 by (unfold w2; by rewrite update_pending).
    assert (consistent w2) as Hc2 by by apply consistent_update.
    destruct update; cbn [fst]; [|by left].
    eapply unchanged_calm; [exact Hu2|exact Hp2|].
    eapply unchanged_calm; [| |apply completeScan_calm; [|done]];
      [apply unchanged_log; reflexivity|reflexivity|done].
Qed.

(** The status of the job [cancelScan] is called for: CANCELLED when the
    request waits or the job is RUNNING, unchanged otherwise. *)
Lemma cancelScan_target w rid update st :
  status_of w rid = Some st →
  status_of (cancelScan w rid update).1 rid
  = Some (if bool_decide (rid ∈ pending_ids w) then CANCELLED
          else if decide (st = RUNNING) then CANCELLED else st).
Proof.
  intros Hst.
  unfold cancelScan, ScanQueue.cancelQueuedScan, ScanQueue.is_pending, pending_ids.
  case_bool_decide as Hin.
  - set (w0 := with_queue w _).
    assert (status_of w0 rid = Some st) as Hst0 by done.
    unfold status_of in Hst0. destruct (globalJobs w0 !! rid) as [job|] eqn:Hjob; [|done].
    assert (status_of (updateJobStatus w0 rid CANCELLED None None None) rid = Some CANCELLED)
      as Hs1.
    { apply update_target_status. unfold status_of. rewrite Hjob. by eexists. }
    by destruct update.
  - unfold status_of in Hst. destruct (globalJobs w !! rid) as [job|] eqn:Hjob; [|done].
    cbn in Hst. injection Hst as <-.
    destruct (decide (status job = RUNNING)) as [Hrun|].
    2:{ cbn [fst]. unfold status_of. by rewrite Hjob. }
    set (w2 := updateJobStatus (track w (Cleanup rid)) rid CANCELLED None None None).
    assert (status_of w2 rid = Some CANCELLED) as Hs2.
    { apply update_target_status. unfold status_of. cbn. rewrite Hjob. by eexists. }
    destruct update; cbn [fst]; [|done].
    destruct (completeScan_target
                (persist w2 (UpdateScanRecord (scanId job) CANCELLED None true))
                rid (Some "Cancelled by user")) as (-> & _); [|done].
    change (rid ∉ pending_ids w2). unfold w2. by rewrite update_pending.
Qed.

Lemma take_exec_count rid l x rest r :
  take_exec rid l = Some (x, rest) →
  length (filter (λ y, x_requestId y = r) l)
  = (length (filter (λ y, x_requestId y = r) rest) + if decide (rid = r) then 1 else 0)%nat.
Proof.
  intros [Hx Hperm]%take_exec_spec. rewrite Hperm, filter_cons, Hx.
  destruct (decide (rid = r)); cbn; lia.
Qed.

(** The state in which the executor call of [x] is about to be handled. *)
Lemma taken_state w rid x rest r :
  consistent w → take_exec rid (inflight w) = Some (x, rest) →
  let w0 := with_inflight w rest in
  x_requestId x = rid
  ∧ consistent w0 ∧ (rid ∉ pending_ids w0) ∧ pending_ids w0 = pending_ids w
  ∧ is_Some (status_of w0 rid)
  ∧ status_of w0 r = status_of w r
  ∧ release_count w0 r = release_count w r
  ∧ inflight_count w r = (inflight_count w0 r + if decide (rid = r) then 1 else 0)%nat.
Proof.
  intros (Hnd & Hpend & Hinf) Htake. cbv zeta.
  pose proof (take_exec_count rid _ x rest r Htake) as Hcount.
  apply take_exec_spec in Htake as [Hx Hperm].
  destruct (Hinf x) as (st & Hst & Hne); [rewrite Hperm; by left|]. rewrite Hx in Hst.
  split_and!; [done| |intros Hin%Hpend; congruence|done|by exists st|done|done|exact Hcount].
  split_and!; [done..|]. intros y Hy. apply Hinf. cbn in Hy. rewrite Hperm. by right.
Qed.

(** An event about another request leaves a request untouched, or starts
    it from the queue. *)
Lemma step_other w e w' r :
  consistent w → step w e = Some w' → target e ≠ r → calm_for w w' r.
Proof.
  intros Hc Hstep Hne.
  destruct e as [rid req prio ini upd|rid d fin upd|rid upd]; cbn in Hstep, Hne.
  - destruct (globalJobs w !! rid); [done|]. injection Hstep as <-. left.
    by apply startScan_summary.
  - destruct (take_exec rid (inflight w)) as [[x rest]|] eqn:Htake; [|done].
    cbn in Hstep. injection Hstep as <-.
    destruct (taken_state w rid x rest r Hc Htake) as (Hx & Hc0 & Hout & Hp0 & _ & Hs0 & Hr0 & Hi0).
    rewrite decide_False, Nat.add_0_r in Hi0 by done. subst rid.
    eapply unchanged_calm; [|exact Hp0|by apply settle_summary]. by split_and!.
  - injection Hstep as <-. by apply cancelScan_other.
Qed.

Lemma accounted_step w e w' rid :
  consistent w → accounted w rid → cancels rid e = false → step w e = Some w' →
  accounted w' rid.
Proof.
  intros Hc Hacc Hnc Hstep. pose proof Hc as (_ & Hpend & _).
  destruct (decide (target e = rid)) as [Heq|Hne].
  - destruct e as [r req prio ini upd|r d fin upd|r upd]; cbn in Heq, Hstep, Hnc; subst r.
    + destruct (globalJobs w !! rid) eqn:Hfresh; [done|]. injection Hstep as <-.
      destruct (startScan_summary w rid req prio ini upd rid) as [_ Hnew].
      destruct (Hnew Hfresh) as (Hr & Hcases). unfold accounted, status_of in Hacc.
      rewrite Hfresh in Hacc. cbn in Hacc. destruct Hacc as [Hi0 Hr0]. unfold accounted.
      destruct Hcases as [[[->| ->] ->]|[-> ->]]; rewrite Hr; split; lia.
    + destruct (take_exec rid (inflight w)) as [[x rest]|] eqn:Htake; [|done].
      cbn in Hstep. injection Hstep as <-.
      destruct (taken_state w rid x rest rid Hc Htake)
        as (Hx & Hc0 & Hout & Hp0 & Hs0 & Hst0 & Hr0 & Hi0).
      rewrite decide_True in Hi0 by done. subst rid.
      destruct (settle_summary (with_inflight w rest) x d fin upd (x_requestId x) Hc0 Hout)
        as [_ Htarget]. destruct (Htarget Hs0) as (Hs' & Hi' & Hr').
      unfold accounted in *. rewrite Hi', Hr', Hr0.
      destruct (status_of w (x_requestId x)) as [[]|]; try done;
        destruct Hacc as [Hi Hr]; try lia; destruct Hs' as [-> | ->]; split; lia.
    + by rewrite bool_decide_eq_true_2 in Hnc.
  - destruct (step_other w e w' rid Hc Hstep Hne) as [(Hs & Hi & Hr)|(Hin & Hs & Hi & Hr)].
    + unfold accounted in *. by rewrite Hs, Hi, Hr.
    + apply Hpend in Hin. unfold accounted in *. rewrite Hin in Hacc.
      rewrite Hs, Hi, Hr. destruct Hacc as [-> ->]. done.
Qed.

Lemma accounted_run events : ∀ w w' rid,
  consistent w → accounted w rid → existsb (cancels rid) events = false →
  run w events = Some w' → consistent w' ∧ accounted w' rid.
Proof.
  induction events as [|e events IH]; intros w w' rid Hc Hacc Hnc; cbn [run].
  - by intros [= <-].
  - cbn in Hnc. apply orb_false_iff in Hnc as [Hnc1 Hnc2].
    destruct (step w e) as [w1|] eqn:Hstep; [|done]. cbn. apply IH; [| |done].
    + by eapply consistent_step.
    + by eapply accounted_step.
Qed.

Lemma cancelScan_release w rid update :
  release_count (cancelScan w rid update).1 rid
  = (release_count w rid
     + if bool_decide (rid ∈ pending_ids w) then 0
       else if bool_decide (status_of w rid = Some RUNNING)
            then match update with Ok _ => 1 | Throw _ => 0 end
            else 0)%nat.
Proof.
  unfold cancelScan, ScanQueue.cancelQueuedScan, ScanQueue.is_pending, pending_ids.
  case_bool_decide as Hin.
  - set (w0 := with_queue w _).
    assert (release_count (updateJobStatus w0 rid CANCELLED None None None) rid
            = release_count w rid) as Hr1.
    { by destruct (update_counts w0 rid CANCELLED None None None rid) as [_ ->]. }
    destruct (globalJobs w0 !! rid);
      [|cbn [fst]; change (release_count w0 rid) with (release_count w rid); lia].
    destruct update; cbn [fst].
    + change (release_count (persist ?a _) rid) with (release_count a rid). lia.
    + lia.
  - unfold status_of. destruct (globalJobs w !! rid) as [job|] eqn:Hjob; cbn [fst].
    2:{ rewrite bool_decide_eq_false_2 by done. lia. }
    destruct (decide (status job = RUNNING)) as [Hrun|Hrun].
    2:{ rewrite bool_decide_eq_false_2; [cbn [fst]; lia|]. cbn. congruence. }
    rewrite bool_decide_eq_true_2 by (cbn; congruence).
    set (w2 := updateJobStatus (track w (Cleanup rid)) rid CANCELLED None None None).
    assert (release_count w2 rid = release_count w rid) as Hr2.
    { unfold w2.
      by destruct (update_counts (track w (Cleanup rid)) rid CANCELLED None None None rid)
        as [_ ->]. }
    destruct update; cbn [fst]; [|lia].
    destruct (completeScan_summary
                (persist w2 (UpdateScanRecord (scanId job) CANCELLED None true))
                rid (Some "Cancelled by user") rid) as [-> _].
    rewrite decide_True by done.
    change (release_count (persist ?a _) rid) with (release_count a rid). lia.
Qed.

End Accounting.

(** C2, as amended.  In every state reached by starts, cancellations and
    settlings of executor calls, each of these three operations takes the
    status of a job one step forward along PENDING, RUNNING, then SUCCESS,
    FAILED or CANCELLED, or leaves it, with one exception: when the
    executor call of the job settles, the job ends SUCCESS or FAILED
    whatever its status was.  So among these operations the status of a
    terminal job is changed by none but the settling of its own executor
    call.  [updateJobStatus] itself rejects nothing: called for a job of
    the map with whatever status, as anything it is handed to may do, it
    puts that status in place of the old one, terminal or not. *)
Theorem status_moves_forward_or_late_settle (w w' : ScannerService.World)
    (e : ScannerService.Event) (rid : string) (st : ScanStatus)
    (Hreach : ScannerService.reachable w)
    (Hstep : ScannerService.step w e = Some w')
    (Hst : ScannerService.status_of w rid = Some st) :
  (∃ st', ScannerService.status_of w' rid = Some st'
     ∧ (st' = st
        ∨ ScannerService.forward st st' = true
        ∨ (ScannerService.settles rid e = true ∧ (st' = SUCCESS ∨ st' = FAILED)))
     ∧ (terminal st = true → ScannerService.settles rid e = false → st' = st))
  ∧ (∀ (st0 : ScanStatus) (progress_ : option Z) (error_ step_ : option string),
       ScannerService.status_of
         (ScannerService.updateJobStatus w rid st0 progress_ error_ step_) rid = Some st0).
Proof.
  split.
  2:{ intros st0 progress_ error_ step_. apply update_target_status. by exists st. }
  pose proof (consistent_reachable w Hreach) as Hc. pose proof Hc as (_ & Hpend & _).
  assert (∃ st', ScannerService.status_of w' rid = Some st'
            ∧ (st' = st
               ∨ ScannerService.forward st st' = true
               ∨ (ScannerService.settles rid e = true ∧ (st' = SUCCESS ∨ st' = FAILED))))
    as (st' & Hst' & Hcases).
  { destruct (decide (ScannerService.target e = rid)) as [Heq|Hne].
    - destruct e as [r req prio ini upd|r d fin upd|r upd]; cbn in Heq, Hstep; subst r.
      + unfold ScannerService.status_of in Hst.
        by destruct (ScannerService.globalJobs w !! rid).
      + destruct (ScannerService.take_exec rid (ScannerService.inflight w))
          as [[x rest]|] eqn:Htake; [|done].
        cbn in Hstep. injection Hstep as <-.
        destruct (taken_state w rid x rest rid Hc Htake) as (Hx & Hc0 & Hout & _ & Hs0 & _).
        subst rid.
        destruct (settle_summary (ScannerService.with_inflight w rest) x d fin upd
                    (x_requestId x) Hc0 Hout) as [_ Htarget].
        destruct (Htarget Hs0) as ([Hs'|Hs'] & _); eexists; (split; [exact Hs'|]);
          right; right; cbn; rewrite bool_decide_eq_true_2 by done; auto.
      + injection Hstep as <-. rewrite (cancelScan_target w rid upd st Hst).
        eexists. split; [done|]. case_bool_decide as Hin.
        * apply Hpend in Hin. assert (st = PENDING) as -> by congruence. by right; left.
        * destruct (decide (st = RUNNING)) as [->|]; [by right; left|by left].
    - destruct (step_other w e w' rid Hc Hstep Hne) as [(Hs & _)|(Hin & Hs & _)].
      + exists st. split; [congruence|by left].
      + apply Hpend in Hin. assert (st = PENDING) as -> by congruence.
        exists RUNNING. split; [done|]. by right; left. }
  exists st'. split_and!; [done..|]. intros Hterm Hsettle.
  destruct Hcases as [?|[Hfwd|[? _]]]; [done| |congruence].
  by destruct st, st'.
Qed.

Lemma status_moves_forward_or_late_settle_witness :
  (∃ st', ScannerService.status_of (ScannerService.startScan cancelled_r1 "r2" a_request
                                      (Some (-1)) (Ok ("s2", "i2")) (Ok tt)).1 "r1" = Some st'
     ∧ st' = CANCELLED)
  ∧ ScannerService.status_of
      (ScannerService.updateJobStatus cancelled_r1 "r1" RUNNING (Some 50) None None) "r1"
    = Some RUNNING.
Proof.
  assert (ScannerService.reachable cancelled_r1) as Hreach.
  { exists 2%nat, [start_r1; cancel_r1]. vm_compute. reflexivity. }
  destruct (status_moves_forward_or_late_settle cancelled_r1 _ start_r2 "r1" CANCELLED
              Hreach eq_refl eq_refl) as ((st' & Hst' & _ & Hkeep) & Hupdate).
  split.
  - exists st'. split; [exact Hst'|]. exact (Hkeep eq_refl eq_refl).
  - apply Hupdate.
Defined.

(** C1, as amended.  For a request that no [cancelScan] was called for,
    [completeScan] has been called exactly once when its job is SUCCESS or
    FAILED, and not at all before.  When [cancelScan] is then called for
    it, a waiting request is marked CANCELLED without any release, no
    slot being held; a RUNNING one is marked CANCELLED and released once
    (the database update returning). *)
Theorem release_exactly_once_unless_cancelled (limit : nat)
    (events : list ScannerService.Event) (w : ScannerService.World) (rid : string)
    (Hrun : ScannerService.run (ScannerService.init limit) events = Some w)
    (Hnocancel : existsb (ScannerService.cancels rid) events = false) :
  match ScannerService.status_of w rid with
  | Some SUCCESS | Some FAILED => ScannerService.release_count w rid = 1%nat
  | Some CANCELLED => False
  | Some PENDING | Some RUNNING | None => ScannerService.release_count w rid = 0%nat
  end
  ∧ (∀ update, rid ∈ ScannerService.pending_ids w →
       let w' := (ScannerService.cancelScan w rid update).1 in
       ScannerService.status_of w' rid = Some CANCELLED
       ∧ ScannerService.release_count w' rid = 0%nat)
  ∧ (ScannerService.status_of w rid = Some RUNNING →
     let w' := (ScannerService.cancelScan w rid (Ok tt)).1 in
     ScannerService.status_of w' rid = Some CANCELLED
     ∧ ScannerService.release_count w' rid = 1%nat).
Proof.
  destruct (accounted_run events (ScannerService.init limit) w rid) as [Hc Hacc]; try done.
  { split_and!; [constructor|intros r Hr; by apply elem_of_nil in Hr|
                 intros x Hx; by apply elem_of_nil in Hx]. }
  pose proof Hc as (_ & Hpend & _). unfold ScannerService.accounted in Hacc.
  split_and!.
  - destruct (ScannerService.status_of w rid) as [[]|]; tauto.
  - intros update Hin. cbv zeta. pose proof (Hpend rid Hin) as Hst.
    rewrite (cancelScan_target w rid update PENDING Hst), cancelScan_release.
    rewrite !bool_decide_eq_true_2 by done. rewrite Hst in Hacc. split; [done|lia].
  - intros Hst. cbv zeta.
    assert (rid ∉ ScannerService.pending_ids w) as Hout.
    { intros Hin%Hpend. congruence. }
    rewrite (cancelScan_target w rid (Ok tt) RUNNING Hst), cancelScan_release.
    rewrite !bool_decide_eq_false_2 by done. rewrite bool_decide_eq_true_2 by done.
    rewrite Hst in Hacc. split; [done|lia].
Qed.

Lemma release_exactly_once_unless_cancelled_witness :
  ScannerService.status_of finished_r1 "r1" = Some SUCCESS
  ∧ ScannerService.release_count finished_r1 "r1" = 1%nat.
Proof.
  assert (ScannerService.run (ScannerService.init 2) [start_r1; start_r2; complete_r1]
          = Some finished_r1) as Hrun by (vm_compute; reflexivity).
  assert (ScannerService.status_of finished_r1 "r1" = Some SUCCESS) as Hst
    by (vm_compute; reflexivity).
  pose proof (release_exactly_once_unless_cancelled 2 [start_r1; start_r2; complete_r1]
                finished_r1 "r1" Hrun eq_refl) as [Hcount _].
  rewrite Hst in Hcount. exact (conj Hst Hcount).
Defined.


(** * Further properties *)

(** ** Severity counts *)

Section SeverityCounts.

Lemma count_severity_buckets s c :
  critical (count_severity s c)
  = (critical c + if decide (s = "CRITICAL") then 1 else 0)%nat
  ∧ high (count_severity s c) = (high c + if decide (s = "HIGH") then 1 else 0)%nat
  ∧ medium (count_severity s c) = (medium c + if decide (s = "MEDIUM") then 1 else 0)%nat
  ∧ low (count_severity s c) = (low c + if decide (s = "LOW") then 1 else 0)%nat.
Proof.
  unfold count_severity. repeat case_decide; simplify_eq/=; split_and!; lia.
Qed.

Variable bucket : Counts → nat.
Variable key : string.
Hypothesis bucket_step : ∀ s c,
  bucket (count_severity s c) = (bucket c + if decide (s = key) then 1 else 0)%nat.

Lemma occurrences_cons s l :
  occurrences key (s :: l) = ((if decide (s = key) then 1 else 0) + occurrences key l)%nat.
Proof. unfold occurrences. rewrite filter_cons. by destruct (decide (s = key)). Qed.

Lemma occurrences_app l1 l2 :
  occurrences key (l1 ++ l2) = (occurrences key l1 + occurrences key l2)%nat.
Proof. unfold occurrences. by rewrite filter_app, length_app. Qed.

Lemma fold_bucket {A} (g : A → string) (l : list A) : ∀ c,
  bucket (foldl (fun c x => count_severity (g x) c) c l)
  = (bucket c + occurrences key (map g l))%nat.
Proof.
  induction l as [|x l IH]; intros c; cbn [foldl map].
  - unfold occurrences. cbn. lia.
  - rewrite IH, bucket_step, occurrences_cons. lia.
Qed.

Lemma count_trivy_bucket r c :
  bucket (count_trivy r c) = (bucket c + occurrences key (trivy_findings r))%nat.
Proof.
  unfold count_trivy, trivy_findings. destruct (Results r) as [results|].
  2:{ unfold occurrences. cbn. lia. }
  revert c. induction results as [|result results IH]; intros c; cbn [foldl map concat].
  - unfold occurrences. cbn. lia.
  - rewrite IH, occurrences_app. destruct (Vulnerabilities result) as [vulns|].
    + rewrite fold_bucket. lia.
    + unfold occurrences at 2. cbn. lia.
Qed.

Lemma count_grype_bucket r c :
  bucket (count_grype r c) = (bucket c + occurrences key (grype_findings r))%nat.
Proof.
  unfold count_grype, grype_findings. destruct (matches r) as [ms|].
  - apply fold_bucket.
  - unfold occurrences. cbn. lia.
Qed.

Lemma calculate_bucket reports :
  bucket (mkCounts 0 0 0 0) = 0%nat →
  bucket (calculateVulnerabilityCounts reports) = occurrences key (findings reports).
Proof.
  intros Hzero. unfold calculateVulnerabilityCounts, findings. rewrite occurrences_app.
  destruct (grype reports) as [g|], (trivy reports) as [t|];
    rewrite ?count_grype_bucket, ?count_trivy_bucket, Hzero;
    unfold occurrences; cbn; lia.
Qed.

End SeverityCounts.

Lemma four_buckets_bound (l : list string) :
  (occurrences "CRITICAL" l + occurrences "HIGH" l + occurrences "MEDIUM" l
   + occurrences "LOW" l ≤ length l)%nat.
Proof.
  induction l as [|s l IH]; [done|]. rewrite !occurrences_cons. cbn [length].
  repeat case_decide; simplify_eq/=; lia.
Qed.

(** X1. Each of the four counts of [calculateVulnerabilityCounts] is the
    number of findings, of the trivy and the grype report together, whose
    severity in upper case is the name of the bucket.  A finding with
    another severity, or with none, is counted nowhere, so the four counts
    add up to at most the number of findings. *)
Theorem counts_are_occurrences (reports : Reports) :
  let c := calculateVulnerabilityCounts reports in
  critical c = occurrences "CRITICAL" (findings reports)
  ∧ high c = occurrences "HIGH" (findings reports)
  ∧ medium c = occurrences "MEDIUM" (findings reports)
  ∧ low c = occurrences "LOW" (findings reports)
  ∧ (total c ≤ length (findings reports))%nat.
Proof.
  cbv zeta.
  assert (critical (calculateVulnerabilityCounts reports)
          = occurrences "CRITICAL" (findings reports)) as Hc.
  { apply calculate_bucket; [|done]. intros s c. apply count_severity_buckets. }
  assert (high (calculateVulnerabilityCounts reports)
          = occurrences "HIGH" (findings reports)) as Hh.
  { apply calculate_bucket; [|done]. intros s c. apply count_severity_buckets. }
  assert (medium (calculateVulnerabilityCounts reports)
          = occurrences "MEDIUM" (findings reports)) as Hm.
  { apply calculate_bucket; [|done]. intros s c. apply count_severity_buckets. }
  assert (low (calculateVulnerabilityCounts reports)
          = occurrences "LOW" (findings reports)) as Hl.
  { apply calculate_bucket; [|done]. intros s c. apply count_severity_buckets. }
  split_and!; [done..|]. unfold total. rewrite Hc, Hh, Hm, Hl. apply four_buckets_bound.
Qed.

(** ** The job map and the progress events along a run *)

Section Advancing.
Import ScannerService.

Lemma job_write_ids j j' :
  rtc job_write j j' →
  requestId j' = requestId j ∧ scanId j' = scanId j ∧ imageId j' = imageId j.
Proof.
  induction 1 as [|j j1 j2 Hw _ (IH1 & IH2 & IH3)]; [done|].
  rewrite IH1, IH2, IH3. by destruct Hw.
Qed.

Lemma job_write_ok rid j j' : job_write j j' → job_ok rid j → job_ok rid j'.
Proof.
  intros Hw (Hid & Hsucc & Hpend). destruct Hw; unfold job_ok; cbn; split_and!;
    try done; auto.
Qed.

Lemma job_writes_ok rid j j' : rtc job_write j j' → job_ok rid j → job_ok rid j'.
Proof. induction 1; eauto using job_write_ok. Qed.

Lemma event_ok_mono w w' c :
  (∀ rid j, globalJobs w !! rid = Some j →
     ∃ j', globalJobs w' !! rid = Some j' ∧ rtc job_write j j') →
  event_ok w c → event_ok w' c.
Proof.
  intros Hjobs. destruct c as [| | |e]; try done. intros (Hst & j & Hj & Hsid).
  split; [done|]. destruct (Hjobs _ _ Hj) as (j' & Hj' & Hw). exists j'. split; [done|].
  destruct (job_write_ids j j' Hw) as (_ & -> & _). done.
Qed.

Lemma advances_refl w : advances w w.
Proof.
  split_and!; [by eauto using rtc_refl|done|]. exists []. by rewrite app_nil_r.
Qed.

Lemma advances_trans w1 w2 w3 : advances w1 w2 → advances w2 w3 → advances w1 w3.
Proof.
  intros (Hj1 & Hn1 & calls1 & Ht1 & Hc1) (Hj2 & Hn2 & calls2 & Ht2 & Hc2). split_and!.
  - intros rid j Hj. destruct (Hj1 _ _ Hj) as (j1 & Hj1' & Hw1).
    destruct (Hj2 _ _ Hj1') as (j2 & Hj2' & Hw2). exists j2. split; [done|]. by etrans.
  - auto.
  - exists (calls1 ++ calls2). split; [by rewrite Ht2, Ht1, app_assoc|].
    apply Forall_app. split; [|done].
    eapply Forall_impl; [exact Hc1|]. intros c. by apply event_ok_mono.
Qed.

(** A step that leaves the job map alone and tells the tracker nothing
    but simulations and clean-ups. *)
Lemma advances_quiet w w' calls :
  globalJobs w' = globalJobs w → tracker w' = tracker w ++ calls →
  Forall (λ c, ∀ e, c ≠ EmitProgress e) calls →
  advances w w'.
Proof.
  intros Hj Ht Hcalls. split_and!.
  - intros rid j Hrid. exists j. by rewrite Hj.
  - intros rid. by rewrite Hj.
  - exists calls. split; [done|]. eapply Forall_impl; [exact Hcalls|].
    intros [| | |e] Hc; try done. by destruct (Hc e).
Qed.

Lemma advances_silent w w' :
  globalJobs w' = globalJobs w → tracker w' = tracker w → advances w w'.
Proof. intros Hj Ht. apply (advances_quiet w w' []); [done|by rewrite app_nil_r|done]. Qed.

(** A call of [updateJobStatus] with a status other than PENDING whose
    effect on the job is one of the writes. *)
Lemma advances_update w rid st p e s :
  st ≠ PENDING →
  (∀ j, globalJobs w !! rid = Some j →
     job_write j (mkScanJob (requestId j) (scanId j) (imageId j) st
                    (match p with Some p => p | None => progress j end)
                    (if truthy e then e else error j))) →
  advances w (updateJobStatus w rid st p e s).
Proof.
  intros Hst Hwrite. unfold updateJobStatus.
  destruct (globalJobs w !! rid) as [job|] eqn:Hjob; [|apply advances_refl].
  specialize (Hwrite job eq_refl).
  set (job' := mkScanJob _ _ _ _ _ _) in *.
  assert (∀ w', globalJobs w' = <[rid := job']> (globalJobs w) →
            (∃ ev, tracker w' = tracker w ++ [EmitProgress ev]
               ∧ ev_requestId ev = rid ∧ ev_scanId ev = scanId job' ∧ ev_status ev = st) →
            advances w w') as Hadv.
  { intros w' Hj (ev & Ht & Hrid & Hsid & Hevst). split_and!.
    - intros r j Hr. rewrite Hj. destruct (decide (r = rid)) as [->|Hne].
      + rewrite lookup_insert_eq. exists job'. split; [done|].
        rewrite Hjob in Hr. injection Hr as <-. by apply rtc_once.
      + rewrite lookup_insert_ne by done. by exists j.
    - intros r Hr. rewrite Hj. destruct (decide (r = rid)) as [->|Hne]; [congruence|].
      by rewrite lookup_insert_ne.
    - eexists. split; [exact Ht|]. constructor; [|done]. cbn. split; [congruence|].
      exists job'. by rewrite Hrid, Hj, lookup_insert_eq. }
  destruct st; [done|..]; apply Hadv; try done; by eexists.
Qed.

Lemma advances_begin w rid req sid iid :
  advances w (executeScan_begin w rid req sid iid).
Proof.
  unfold executeScan_begin.
  destruct (_ && _); [by apply advances_silent|].
  destruct (isLocalDockerScan req); [by apply advances_silent|].
  destruct (shouldSimulateDownload req).
  - eapply (advances_quiet _ _ [_; _]); [done|cbn; by rewrite <- app_assoc|].
    by repeat constructor.
  - eapply (advances_quiet _ _ [_]); [done|done|]. by repeat constructor.
Qed.

Lemma advances_listener w e : advances w (scanStartedListener w e).
Proof.
  unfold scanStartedListener. eapply advances_trans; [|apply advances_begin].
  destruct (globalJobs w !! q_requestId e) as [job|] eqn:Hjob; [|apply advances_refl].
  split_and!.
  - intros r j Hr. cbn. destruct (decide (r = q_requestId e)) as [->|Hne].
    + rewrite lookup_insert_eq. eexists. split; [done|].
      rewrite Hjob in Hr. injection Hr as <-. apply rtc_once. constructor.
    + rewrite lookup_insert_ne by done. by exists j.
  - intros r Hr. cbn. destruct (decide (r = q_requestId e)) as [->|Hne]; [congruence|].
    by rewrite lookup_insert_ne.
  - exists []. by rewrite app_nil_r.
Qed.

Lemma advances_completeScan w rid err : advances w (completeScan w rid err).
Proof.
  unfold completeScan. destruct (ScanQueue.completeScan (scanQueue w) rid) as [q [e|]].
  - cbn [fire]. eapply advances_trans; [|apply advances_listener]. by apply advances_silent.
  - by apply advances_silent.
Qed.

Lemma advances_finalizeScan w rid sid req fin :
  advances w (finalizeScan w rid sid req fin).1.
Proof.
  unfold finalizeScan.
  set (w1 := updateJobStatus w rid RUNNING _ _ _).
  assert (advances w w1) as H1.
  { apply advances_update; [done|]. intros j _. constructor. }
  assert (∀ w3, advances w w3 →
            advances w (completeScan (updateJobStatus w3 rid SUCCESS (Some 100) None
                          (Some "Scan completed successfully")) rid None)) as Hend.
  { intros w3 H3. eapply advances_trans; [exact H3|].
    eapply advances_trans; [|apply advances_completeScan].
    apply advances_update; [done|]. intros j _. constructor. }
  destruct (loadScanResults fin) as [reports|]; [|done].
  destruct (getScannerVersions fin) as [versions|]; [|done].
  destruct (uploadScanResults fin); [|done].
  assert (advances w (persist w1 (UploadScanResults sid (attach_versions reports versions))))
    as H2.
  { eapply advances_trans; [exact H1|]. by apply advances_silent. }
  destruct (_ || _).
  - destruct (notifyScanComplete fin); cbn [fst]; [|done].
    apply Hend. eapply advances_trans; [exact H2|]. by apply advances_silent.
  - cbn [fst]. by apply Hend.
Qed.

Lemma advances_catch w x m update : advances w (executeScan_catch w x m update).1.
Proof.
  unfold executeScan_catch.
  assert (advances w (track w (Cleanup (x_requestId x)))) as H2.
  { eapply (advances_quiet _ _ [_]); [done|done|]. by repeat constructor. }
  destruct update; cbn [fst]; [|done].
  eapply advances_trans; [exact H2|]. eapply advances_trans; [|apply advances_update].
  - by apply advances_silent.
  - done.
  - intros j _. constructor.
Qed.

Lemma advances_listener_catch w rid m : advances w (scanStartedListener_catch w rid m).
Proof.
  unfold scanStartedListener_catch. eapply advances_trans; [|apply advances_completeScan].
  apply advances_update; [done|]. intros j _. constructor.
Qed.

Lemma advances_settle w x dispatch fin update :
  advances w (settle w x dispatch fin update).
Proof.
  unfold settle, executeScan_resume.
  assert (∀ w1 m, advances w w1 →
            advances w (scanStartedListener_catch (executeScan_catch w1 x m update).1
                          (x_requestId x) (executeScan_catch w1 x m update).2)) as Hthrow.
  { intros w1 m H1. eapply advances_trans; [exact H1|].
    eapply advances_trans; [apply advances_catch|apply advances_listener_catch]. }
  destruct dispatch as [?|m].
  - pose proof (advances_finalizeScan w (x_requestId x) (x_scanId x) (x_request x) fin) as Hf.
    destruct (finalizeScan _ _ _ _ _) as [w1 [?|m]]; [done|].
    specialize (Hthrow w1 m Hf). by destruct (executeScan_catch w1 x m update).
  - specialize (Hthrow w m (advances_refl w)). by destruct (executeScan_catch w x m update).
Qed.

Lemma advances_cancelScan w rid update : advances w (cancelScan w rid update).1.
Proof.
  unfold cancelScan. destruct (ScanQueue.cancelQueuedScan (scanQueue w) rid) as [q []].
  - destruct (globalJobs (with_queue w q) !! rid); [|by apply advances_silent].
    assert (advances w (updateJobStatus (with_queue w q) rid CANCELLED None None None)) as H1.
    { eapply advances_trans; [|apply advances_update]; [by apply advances_silent|done|].
      intros j _. constructor. }
    destruct update; cbn [fst]; [|done].
    eapply advances_trans; [exact H1|]. by apply advances_silent.
  - destruct (globalJobs w !! rid) as [job|]; [|apply advances_refl].
    destruct (decide (status job = RUNNING)); [|apply advances_refl].
    assert (advances w (updateJobStatus (track w (Cleanup rid)) rid CANCELLED None None None))
      as H2.
    { eapply advances_trans; [|apply advances_update].
      - eapply (advances_quiet _ _ [_]); [done|done|]. by repeat constructor.
      - done.
      - intros j _. constructor. }
    destruct update; cbn [fst]; [|done].
    eapply advances_trans; [exact H2|].
    eapply advances_trans; [|apply advances_completeScan]. by apply advances_silent.
Qed.

(** [startScan]: nothing happens, or the new job is put into the map and
    the state advances from there. *)
Lemma advances_startScan w rid request priority initialize update :
  (startScan w rid request priority initialize update).1 = w
  ∨ ∃ w1 sid iid,
      globalJobs w1 = <[rid := mkScanJob rid sid iid PENDING 0 None]> (globalJobs w)
      ∧ tracker w1 = tracker w
      ∧ advances w1 (startScan w rid request priority initialize update).1.
Proof.
  unfold startScan. destruct initialize as [[sid iid]|m]; [|by left]. right.
  set (w1 := with_jobs (persist w (InitializeScanRecord rid request sid iid)) _).
  exists w1, sid, iid. split_and!; [done..|].
  destruct (ScanQueue.addToQueue _ _ _ _ _ _) as [q started].
  set (w2 := fire (with_queue w1 q) started).
  assert (advances w1 w2) as H2.
  { unfold w2. destruct started as [e|]; cbn [fire].
    - eapply advances_trans; [|apply advances_listener]. by apply advances_silent.
    - by apply advances_silent. }
  destruct (Nat.ltb 0 _); [|done]. destruct update; cbn [fst]; [|done].
  eapply advances_trans; [exact H2|]. by apply advances_silent.
Qed.

(** One event: the jobs that were there are still there, changed by
    writes of the service only; at most the job of a started scan is new,
    and it starts as a PENDING job under its request id. *)
Lemma step_jobs w e w' :
  step w e = Some w' →
  (∀ rid j, globalJobs w !! rid = Some j →
     ∃ j', globalJobs w' !! rid = Some j' ∧ rtc job_write j j')
  ∧ (∀ rid j', globalJobs w !! rid = None → globalJobs w' !! rid = Some j' →
       ∃ sid iid, rtc job_write (mkScanJob rid sid iid PENDING 0 None) j')
  ∧ ∃ calls, tracker w' = tracker w ++ calls ∧ Forall (event_ok w') calls.
Proof.
  intros Hstep.
  match goal with |- ?G => assert (advances w w' → G) as Hadv end;
    [|destruct e as [rid req prio ini upd|rid d fin upd|rid upd]].
  { intros (Hj & Hn & Hcalls). split_and!; [exact Hj| |exact Hcalls].
    intros rid j' Hnone Hsome. apply Hn in Hnone. congruence. }
  - cbn in Hstep. destruct (globalJobs w !! rid) eqn:Hfresh; [done|]. injection Hstep as <-.
    destruct (advances_startScan w rid req prio ini upd)
      as [Heq|(w1 & sid & iid & Hj1 & Ht1 & (Hj & Hn & calls & Ht & Hcalls))];
      [apply Hadv; rewrite Heq; apply advances_refl|].
    split_and!.
    + intros r j Hr. apply Hj. rewrite Hj1, lookup_insert_ne; [done|]. congruence.
    + intros r j' Hnone Hsome. destruct (decide (r = rid)) as [->|Hne].
      * destruct (Hj rid (mkScanJob rid sid iid PENDING 0 None)) as (j'' & Hj'' & Hw).
        { by rewrite Hj1, lookup_insert_eq. }
        exists sid, iid. congruence.
      * specialize (Hn r). rewrite Hj1, lookup_insert_ne in Hn by done.
        rewrite Hn in Hsome; done.
    + exists calls. by rewrite Ht, Ht1.
  - cbn in Hstep. destruct (take_exec rid (inflight w)) as [[x rest]|]; [|done].
    cbn in Hstep. injection Hstep as <-. apply Hadv.
    eapply advances_trans; [|apply advances_settle]. by apply advances_silent.
  - cbn in Hstep. injection Hstep as <-. apply Hadv, advances_cancelScan.
Qed.

Lemma run_jobs events : ∀ w w',
  run w events = Some w' →
  (∀ rid j, globalJobs w !! rid = Some j →
     ∃ j', globalJobs w' !! rid = Some j' ∧ rtc job_write j j')
  ∧ (∀ rid j', globalJobs w !! rid = None → globalJobs w' !! rid = Some j' →
       ∃ sid iid, rtc job_write (mkScanJob rid sid iid PENDING 0 None) j')
  ∧ (Forall (event_ok w) (tracker w) → Forall (event_ok w') (tracker w')).
Proof.
  induction events as [|e events IH]; intros w w'; cbn [run].
  - intros [= <-]. split_and!; [by eauto using rtc_refl|congruence|done].
  - destruct (step w e) as [w1|] eqn:Hstep; [|done]. cbn. intros Hrun.
    destruct (step_jobs w e w1 Hstep) as (Hkeep1 & Hnew1 & calls & Ht1 & Hcalls1).
    destruct (IH w1 w' Hrun) as (Hkeep & Hnew & Hevents). split_and!.
    + intros rid j Hj. destruct (Hkeep1 _ _ Hj) as (j1 & Hj1 & Hw1).
      destruct (Hkeep _ _ Hj1) as (j' & Hj' & Hw). exists j'. split; [done|]. by etrans.
    + intros rid j' Hnone Hsome. destruct (globalJobs w1 !! rid) as [j1|] eqn:Hj1.
      * destruct (Hnew1 _ _ Hnone Hj1) as (sid & iid & Hw1).
        destruct (Hkeep _ _ Hj1) as (j'' & Hj'' & Hw). exists sid, iid.
        rewrite Hsome in Hj''. injection Hj'' as <-. by etrans.
      * by apply (Hnew rid).
    + intros Hold. apply Hevents. rewrite Ht1. apply Forall_app. split; [|done].
      eapply Forall_impl; [exact Hold|]. intros c. by apply event_ok_mono.
Qed.

End Advancing.

(** X2. Along any run from any state, a job of the map is never removed
    and keeps its request id, scan id and image id. *)
Theorem jobs_are_kept (w w' : ScannerService.World) (events : list ScannerService.Event)
    (rid : string) (j : ScanJob)
    (Hrun : ScannerService.run w events = Some w')
    (Hjob : ScannerService.globalJobs w !! rid = Some j) :
  ∃ j', ScannerService.globalJobs w' !! rid = Some j'
    ∧ requestId j' = requestId j ∧ scanId j' = scanId j ∧ imageId j' = imageId j.
Proof.
  destruct (run_jobs events w w' Hrun) as (Hkeep & _).
  destruct (Hkeep rid j Hjob) as (j' & Hj' & Hw). exists j'. split; [done|].
  by apply job_write_ids.
Qed.

Lemma jobs_are_kept_witness :
  ∃ j', ScannerService.globalJobs finished_r1 !! "r1" = Some j'
    ∧ requestId j' = "r1" ∧ scanId j' = "s1" ∧ imageId j' = "i1".
Proof.
  assert (ScannerService.run running_r1 [start_r2; complete_r1] = Some finished_r1) as Hrun
    by (vm_compute; reflexivity).
  assert (ScannerService.globalJobs running_r1 !! "r1"
          = Some (mkScanJob "r1" "s1" "i1" RUNNING 0 None)) as Hjob
    by (vm_compute; reflexivity).
  exact (jobs_are_kept running_r1 finished_r1 [start_r2; complete_r1] "r1" _ Hrun Hjob).
Defined.

(** X3. In every state the service can reach, the job stored under a
    request id carries that id; a job marked SUCCESS is at progress 100;
    a PENDING job is at progress 0 and has no error. *)
Theorem reachable_jobs_ok (w : ScannerService.World) (rid : string) (j : ScanJob)
    (Hreach : ScannerService.reachable w)
    (Hjob : ScannerService.globalJobs w !! rid = Some j) :
  requestId j = rid
  ∧ (status j = SUCCESS → progress j = 100)
  ∧ (status j = PENDING → progress j = 0 ∧ error j = None).
Proof.
  destruct Hreach as (limit & events & Hrun).
  destruct (run_jobs events _ w Hrun) as (_ & Hnew & _).
  destruct (Hnew rid j) as (sid & iid & Hw); [done..|].
  apply (job_writes_ok rid _ j Hw). by split_and!.
Qed.

Lemma reachable_jobs_ok_witness :
  ∃ j, ScannerService.globalJobs finished_r1 !! "r1" = Some j
    ∧ status j = SUCCESS ∧ requestId j = "r1" ∧ progress j = 100.
Proof.
  assert (ScannerService.reachable finished_r1) as Hreach.
  { exists 2%nat, [start_r1; start_r2; complete_r1]. vm_compute. reflexivity. }
  assert (ScannerService.globalJobs finished_r1 !! "r1"
          = Some (mkScanJob "r1" "s1" "i1" SUCCESS 100 None)) as Hjob
    by (vm_compute; reflexivity).
  destruct (reachable_jobs_ok finished_r1 "r1" _ Hreach Hjob) as (Hid & Hsucc & _).
  eexists. split; [exact Hjob|]. split; [reflexivity|]. split; [exact Hid|].
  exact (Hsucc eq_refl).
Defined.

(** X4. In every state the service can reach, each progress event the
    tracker was asked to emit has a status other than PENDING, names a job
    of the map, and carries the scan id of that job. *)
Theorem reachable_events_ok (w : ScannerService.World) (e : ScanProgressEvent)
    (Hreach : ScannerService.reachable w)
    (Hev : EmitProgress e ∈ ScannerService.tracker w) :
  ev_status e ≠ PENDING
  ∧ ∃ j, ScannerService.globalJobs w !! ev_requestId e = Some j ∧ scanId j = ev_scanId e.
Proof.
  destruct Hreach as (limit & events & Hrun).
  destruct (run_jobs events _ w Hrun) as (_ & _ & Hevents).
  assert (Forall (event_ok w) (ScannerService.tracker w)) as Hall.
  { apply Hevents. constructor. }
  rewrite Forall_forall in Hall. exact (Hall _ Hev).
Qed.

Lemma reachable_events_ok_witness :
  ev_status (mkEvent "r1" "s1" SUCCESS 100 (Some "Scan completed successfully") None)
  ≠ PENDING
  ∧ ∃ j, ScannerService.globalJobs finished_r1 !! "r1" = Some j ∧ scanId j = "s1".
Proof.
  assert (ScannerService.reachable finished_r1) as Hreach.
  { exists 2%nat, [start_r1; start_r2; complete_r1]. vm_compute. reflexivity. }
  apply (reachable_events_ok finished_r1
           (mkEvent "r1" "s1" SUCCESS 100 (Some "Scan completed successfully") None) Hreach).
  vm_compute. repeat (first [by left | right]).
Defined.

(** ** Starting and cancelling *)

Section Starting.
Import ScannerService.

Lemma rank_pos rid l : (0 < ScanQueue.rank rid l)%nat ↔ rid ∈ map q_requestId l.
Proof.
  induction l as [|e l IH]; cbn [ScanQueue.rank map].
  - split; [lia|]. intros H. by apply elem_of_nil in H.
  - rewrite elem_of_cons. destruct (decide (q_requestId e = rid)) as [->|Hne].
    + split; [by left|lia].
    + destruct (ScanQueue.rank rid l); split; try lia.
      * intros [?|Hin]; [congruence|]. apply IH in Hin. lia.
      * intros _. right. apply IH. lia.
Qed.

Lemma fresh_not_suspended w rid :
  consistent w → globalJobs w !! rid = None →
  inflight_count w rid = 0%nat ∧ rid ∉ pending_ids w.
Proof.
  intros (_ & Hpend & Hinf) Hfresh.
  assert (status_of w rid = None) as Hnone by (unfold status_of; by rewrite Hfresh).
  split; [|intros Hin%Hpend; congruence].
  unfold inflight_count. induction (inflight w) as [|x l IH]; [done|].
  rewrite filter_cons. destruct (decide (x_requestId x = rid)) as [Heq|_].
  - destruct (Hinf x) as (st & Hst & _); [by left|]. congruence.
  - apply IH. intros y Hy. apply Hinf. by right.
Qed.

End Starting.

(** X5. What [startScan] answers, for a new request id in a state the
    service can reach.  When it returns with [queued = false], the job is
    RUNNING, one executor call is under way and the queue position is
    undefined; with [queued = true] the job is PENDING, no executor call
    was made, and [queuePosition] is its rank in the queue, at least 1.
    When it throws, either the creation of the scan record threw and
    nothing changed, or the update of the queued status threw: the job is
    then registered as PENDING and the request stays in the queue. *)
Theorem startScan_outcomes (w w' : ScannerService.World) (rid : string)
    (request : ScanRequest) (priority : option Z)
    (initialize : Result (string * string)) (update : Result unit)
    (r : Result StartResult)
    (Hreach : ScannerService.reachable w)
    (Hfresh : ScannerService.globalJobs w !! rid = None)
    (Hres : ScannerService.startScan w rid request priority initialize update = (w', r)) :
  match r with
  | Ok res =>
      r_requestId res = rid
      ∧ (scanId <$> ScannerService.globalJobs w' !! rid) = Some (r_scanId res)
      ∧ if r_queued res
        then ScannerService.status_of w' rid = Some PENDING
             ∧ ScannerService.inflight_count w' rid = 0%nat
             ∧ r_queuePosition res = Some (ScannerService.getQueuePosition w' rid)
             ∧ (1 ≤ ScannerService.getQueuePosition w' rid)%nat
        else ScannerService.status_of w' rid = Some RUNNING
             ∧ ScannerService.inflight_count w' rid = 1%nat
             ∧ r_queuePosition res = None
             ∧ ScannerService.getQueuePosition w' rid = 0%nat
  | Throw m =>
      (initialize = Throw m ∧ w' = w)
      ∨ (update = Throw m
         ∧ ScannerService.status_of w' rid = Some PENDING
         ∧ rid ∈ ScannerService.pending_ids w')
  end.
Proof.
  pose proof (consistent_reachable w Hreach) as Hc.
  destruct (fresh_not_suspended w rid Hc Hfresh) as [Hi0 Hout].
  unfold ScannerService.startScan in Hres.
  destruct initialize as [[sid iid]|m]; [|injection Hres as <- <-; by left].
  unfold ScanQueue.addToQueue, ScanQueue.addToQueue_by in Hres.
  set (e := mkQueuedScan rid sid iid request (default 0 priority) _) in Hres.
  set (w1 := ScannerService.with_jobs _ _) in Hres.
  assert (ScannerService.globalJobs w1 !! rid = Some (mkScanJob rid sid iid PENDING 0 None))
    as Hj1 by (cbn; by rewrite lookup_insert_eq).
  destruct (Nat.ltb (length _) _).
  - cbn [ScannerService.fire] in Hres.
    set (w2 := ScannerService.scanStartedListener _ e) in Hres.
    destruct (listener_effect (ScannerService.with_queue w1
                {| ScanQueue.limit := ScanQueue.limit (ScannerService.scanQueue w1);
                   ScanQueue.running := ScanQueue.running (ScannerService.scanQueue w1) ++ [e];
                   ScanQueue.pending := ScanQueue.pending (ScannerService.scanQueue w1);
                   ScanQueue.arrivals := S (ScanQueue.arrivals (ScannerService.scanQueue w1)) |})
                e) as ((x & Hx & Hi) & Hq & _ & _ & Hs). fold w2 in Hi, Hq, Hs.
    assert (ScannerService.getQueuePosition w2 rid = 0%nat) as Hpos.
    { unfold ScannerService.getQueuePosition, ScanQueue.getQueuePosition. rewrite Hq. cbn.
      destruct (ScanQueue.rank rid _) eqn:Hrank; [done|]. exfalso. apply Hout.
      apply rank_pos. unfold ScannerService.pending_ids in *. cbn. lia. }
    assert (ScannerService.status_of w2 rid = Some RUNNING) as Hst.
    { rewrite Hs. cbn [q_requestId e]. rewrite decide_True by done.
      unfold ScannerService.status_of. cbn. by rewrite lookup_insert_eq. }
    assert (ScannerService.inflight_count w2 rid = 1%nat) as Hcount.
    { rewrite (inflight_count_snoc _ w2 x rid Hi), Hx. cbn [q_requestId e].
      rewrite decide_True by done.
      change (ScannerService.inflight_count (ScannerService.with_queue w1 _) rid)
        with (ScannerService.inflight_count w rid). lia. }
    assert ((scanId <$> ScannerService.globalJobs w2 !! rid) = Some sid) as Hsid.
    { unfold w2, ScannerService.scanStartedListener. cbn [q_requestId e].
      match goal with |- context [ScannerService.executeScan_begin ?a ?b ?c ?d ?f] =>
        destruct (executeScan_begin_effect a b c d f) as (k & _ & -> & _) end.
      change (ScannerService.globalJobs (ScannerService.with_queue w1 _))
        with (ScannerService.globalJobs w1). rewrite Hj1. cbn. by rewrite lookup_insert_eq. }
    change (ScanQueue.getQueuePosition (ScannerService.scanQueue w2) rid)
      with (ScannerService.getQueuePosition w2 rid) in Hres. rewrite Hpos in Hres.
    cbn in Hres. injection Hres as <- <-. cbn. by split_and!.
  - cbn [ScannerService.fire] in Hres. set (w2 := ScannerService.with_queue w1 _) in Hres.
    assert (rid ∈ ScannerService.pending_ids w2) as Hin.
    { unfold ScannerService.pending_ids. cbn. apply list_elem_of_fmap. exists e.
      split; [done|]. rewrite insert_by_perm. by left. }
    assert (1 ≤ ScannerService.getQueuePosition w2 rid)%nat as Hpos.
    { apply rank_pos in Hin. unfold ScannerService.getQueuePosition,
        ScanQueue.getQueuePosition. lia. }
    change (ScanQueue.getQueuePosition (ScannerService.scanQueue w2) rid)
      with (ScannerService.getQueuePosition w2 rid) in Hres.
    assert (Nat.ltb 0 (ScannerService.getQueuePosition w2 rid) = true) as Hlt
      by (apply Nat.ltb_lt; lia).
    rewrite Hlt in Hres.
    assert (ScannerService.status_of w2 rid = Some PENDING) as Hst.
    { unfold ScannerService.status_of. cbn. by rewrite lookup_insert_eq. }
    destruct update as [?|m]; injection Hres as <- <-.
    + cbn. split_and!; try done. unfold ScannerService.status_of in Hst.
      cbn in Hst. cbn. by rewrite lookup_insert_eq.
    + right. by split_and!.
Qed.

Lemma startScan_outcomes_witness :
  ∃ w' res,
    ScannerService.startScan running_r1 "r2" a_request (Some (-1)) (Ok ("s2", "i2")) (Ok tt)
    = (w', Ok res)
    ∧ r_queued res = false
    ∧ ScannerService.status_of w' "r2" = Some RUNNING
    ∧ ScannerService.inflight_count w' "r2" = 1%nat.
Proof.
  assert (ScannerService.reachable running_r1) as Hreach.
  { exists 2%nat, [start_r1]. vm_compute. reflexivity. }
  destruct (ScannerService.startScan running_r1 "r2" a_request (Some (-1))
              (Ok ("s2", "i2")) (Ok tt)) as [w' r] eqn:Hres.
  pose proof (startScan_outcomes running_r1 w' "r2" a_request (Some (-1))
                (Ok ("s2", "i2")) (Ok tt) r Hreach eq_refl Hres) as Hout.
  assert (r_queued <$> match r with Ok res => Some res | Throw _ => None end = Some false)
    as Hq.
  { replace r with (ScannerService.startScan running_r1 "r2" a_request (Some (-1))
                      (Ok ("s2", "i2")) (Ok tt)).2 by (by rewrite Hres).
    vm_compute. reflexivity. }
  destruct r as [res|m]; [|done]. cbn in Hq. injection Hq as Hq.
  rewrite Hq in Hout. destruct Hout as (_ & _ & Hst & Hcount & _).
  exists w', res. by split_and!.
Defined.

Section Cancelling.
Import ScannerService.

Lemma not_waiting w rid st :
  consistent w → status_of w rid = Some st → st ≠ PENDING → rid ∉ pending_ids w.
Proof. intros (_ & Hpend & _) Hst Hne Hin%Hpend. congruence. Qed.

Lemma cancelScan_terminal w rid update st :
  consistent w → status_of w rid = Some st → terminal st = true →
  cancelScan w rid update = (w, Ok false).
Proof.
  intros Hc Hst Hterm.
  assert (rid ∉ pending_ids w) as Hout by (eapply not_waiting; [done..|by destruct st]).
  unfold cancelScan, ScanQueue.cancelQueuedScan, ScanQueue.is_pending.
  rewrite bool_decide_eq_false_2 by done. unfold status_of in Hst.
  destruct (globalJobs w !! rid) as [job|]; [|done]. cbn in Hst. injection Hst as <-.
  destruct (decide (status job = RUNNING)) as [Hrun|]; [|done]. by rewrite Hrun in Hterm.
Qed.

(** A request that waits has no executor call under way. *)
Lemma waiting_not_suspended w rid :
  consistent w → rid ∈ pending_ids w → inflight_count w rid = 0%nat.
Proof.
  intros (_ & Hpend & Hinf) Hin%Hpend. unfold inflight_count.
  induction (inflight w) as [|x l IH]; [done|].
  rewrite filter_cons. destruct (decide (x_requestId x = rid)) as [Heq|_].
  - destruct (Hinf x) as (st & Hst & Hne); [by left|]. congruence.
  - apply IH. intros y Hy. apply Hinf. by right.
Qed.

Lemma cancelScan_waiting_inflight w rid update :
  rid ∈ pending_ids w → inflight (cancelScan w rid update).1 = inflight w.
Proof.
  intros Hin. unfold cancelScan, ScanQueue.cancelQueuedScan, ScanQueue.is_pending.
  rewrite bool_decide_eq_true_2 by done. set (w0 := with_queue w _).
  assert (inflight w0 = inflight w) as <- by done.
  destruct (globalJobs w0 !! rid); [|done].
  destruct (updateJobStatus_frame w0 rid CANCELLED None None None) as (_ & Hi & _).
  by destruct update.
Qed.

(** A job cancelled with no executor call under way stays so. *)
Lemma cancelled_idle_step w e w' rid :
  consistent w → status_of w rid = Some CANCELLED → inflight_count w rid = 0%nat →
  step w e = Some w' →
  status_of w' rid = Some CANCELLED ∧ inflight_count w' rid = 0%nat.
Proof.
  intros Hc Hst Hi Hstep.
  destruct (decide (target e = rid)) as [Heq|Hne].
  - destruct e as [r req prio ini upd|r d fin upd|r upd]; cbn in Heq, Hstep; subst r.
    + unfold status_of in Hst. by destruct (globalJobs w !! rid).
    + destruct (take_exec rid (inflight w)) as [[x rest]|] eqn:Htake; [|done].
      pose proof (take_exec_count rid _ x rest rid Htake) as Hcount.
      rewrite decide_True in Hcount by done. unfold inflight_count in Hi. lia.
    + rewrite (cancelScan_terminal w rid upd CANCELLED) in Hstep by done.
      by injection Hstep as <-.
  - destruct (step_other w e w' rid Hc Hstep Hne) as [(-> & -> & _)|(Hin & _)]; [done|].
    exfalso. by eapply (not_waiting w rid CANCELLED).
Qed.

End Cancelling.

(** X6. When the database update of [cancelScan] throws, the job has
    already been marked CANCELLED.  For a request that waits, it has also
    left the queue.  For a RUNNING job, [completeScan] is not reached: the
    queue is as before and no release is counted, so the job holds its slot
    until its executor call settles. *)
Theorem cancelScan_update_throws (w : ScannerService.World) (rid m : string)
    (Hreach : ScannerService.reachable w) :
  let w' := (ScannerService.cancelScan w rid (Throw m)).1 in
  (rid ∈ ScannerService.pending_ids w →
   (ScannerService.cancelScan w rid (Throw m)).2 = Throw m
   ∧ ScannerService.status_of w' rid = Some CANCELLED
   ∧ rid ∉ ScannerService.pending_ids w')
  ∧ (ScannerService.status_of w rid = Some RUNNING →
     (ScannerService.cancelScan w rid (Throw m)).2 = Throw m
     ∧ ScannerService.status_of w' rid = Some CANCELLED
     ∧ ScannerService.scanQueue w' = ScannerService.scanQueue w
     ∧ ScannerService.release_count w' rid = ScannerService.release_count w rid).
Proof.
  pose proof (consistent_reachable w Hreach) as Hc. pose proof Hc as (_ & Hpend & _).
  cbv zeta. split.
  - intros Hin. pose proof (Hpend rid Hin) as Hst.
    rewrite (cancelScan_target w rid (Throw m) PENDING Hst), bool_decide_eq_true_2 by done.
    unfold ScannerService.cancelScan, ScanQueue.cancelQueuedScan, ScanQueue.is_pending.
    rewrite bool_decide_eq_true_2 by done.
    unfold ScannerService.status_of in Hst.
    change (ScannerService.globalJobs (ScannerService.with_queue w ?q))
      with (ScannerService.globalJobs w).
    destruct (ScannerService.globalJobs w !! rid) as [job|]; [|done]. cbn [fst snd].
    split_and!; [done..|]. rewrite update_pending. unfold ScannerService.pending_ids. cbn.
    rewrite without_ids. intros [? _]%list_elem_of_filter. done.
  - intros Hst.
    assert (rid ∉ ScannerService.pending_ids w) as Hout by by eapply not_waiting.
    rewrite (cancelScan_target w rid (Throw m) RUNNING Hst), cancelScan_release.
    rewrite !bool_decide_eq_false_2 by done. rewrite bool_decide_eq_true_2 by done.
    rewrite decide_True by done.
    unfold ScannerService.cancelScan, ScanQueue.cancelQueuedScan, ScanQueue.is_pending.
    rewrite bool_decide_eq_false_2 by done. unfold ScannerService.status_of in Hst.
    destruct (ScannerService.globalJobs w !! rid) as [job|]; [|done].
    cbn in Hst. injection Hst as Hst. rewrite decide_True by done. cbn [fst snd].
    split_and!; [done..| |lia].
    by destruct (updateJobStatus_frame (ScannerService.track w (Cleanup rid)) rid CANCELLED
                   None None None) as (-> & _).
Qed.

Lemma cancelScan_update_throws_witness :
  let w' := (ScannerService.cancelScan running_r1 "r1" (Throw "db down")).1 in
  (ScannerService.cancelScan running_r1 "r1" (Throw "db down")).2 = Throw "db down"
  ∧ ScannerService.status_of w' "r1" = Some CANCELLED
  ∧ ScannerService.scanQueue w' = ScannerService.scanQueue running_r1
  ∧ ScannerService.release_count w' "r1" = 0%nat.
Proof.
  assert (ScannerService.reachable running_r1) as Hreach.
  { exists 2%nat, [start_r1]. vm_compute. reflexivity. }
  assert (ScannerService.status_of running_r1 "r1" = Some RUNNING) as Hst
    by (vm_compute; reflexivity).
  exact (proj2 (cancelScan_update_throws running_r1 "r1" "db down" Hreach) Hst).
Defined.

(** X7. A scan cancelled while it waits in the queue is never executed:
    whatever happens afterwards, its job stays CANCELLED, no executor call
    is made for it, and it does not come back into the queue. *)
Theorem cancelled_while_waiting_never_runs (w w2 : ScannerService.World) (rid : string)
    (update : Result unit) (events : list ScannerService.Event)
    (Hreach : ScannerService.reachable w)
    (Hwaits : rid ∈ ScannerService.pending_ids w)
    (Hrun : ScannerService.run (ScannerService.cancelScan w rid update).1 events = Some w2) :
  ScannerService.status_of w2 rid = Some CANCELLED
  ∧ ScannerService.inflight_count w2 rid = 0%nat
  ∧ rid ∉ ScannerService.pending_ids w2.
Proof.
  pose proof (consistent_reachable w Hreach) as Hc. pose proof Hc as (_ & Hpend & _).
  set (w1 := (ScannerService.cancelScan w rid update).1) in *.
  assert (ScannerService.consistent w1) as Hc1 by by apply consistent_cancelScan.
  assert (ScannerService.status_of w1 rid = Some CANCELLED) as Hst1.
  { unfold w1. rewrite (cancelScan_target w rid update PENDING (Hpend rid Hwaits)).
    by rewrite bool_decide_eq_true_2. }
  assert (ScannerService.inflight_count w1 rid = 0%nat) as Hi1.
  { unfold ScannerService.inflight_count, w1. rewrite cancelScan_waiting_inflight by done.
    by apply waiting_not_suspended. }
  clearbody w1. clear Hreach Hwaits Hc Hpend.
  revert w1 Hc1 Hst1 Hi1 Hrun. induction events as [|e events IH]; intros w1 Hc1 Hst1 Hi1.
  - cbn. intros [= <-]. split_and!; [done..|]. by eapply not_waiting.
  - cbn [ScannerService.run]. destruct (ScannerService.step w1 e) as [w1'|] eqn:Hstep; [|done].
    cbn. destruct (cancelled_idle_step w1 e w1' rid Hc1 Hst1 Hi1 Hstep) as [Hst Hi].
    apply IH; [by eapply consistent_step|done..].
Qed.

Lemma cancelled_while_waiting_never_runs_witness :
  ScannerService.status_of cancelled_waiting_r3 "r3" = Some CANCELLED
  ∧ ScannerService.inflight_count cancelled_waiting_r3 "r3" = 0%nat
  ∧ "r3" ∉ ScannerService.pending_ids cancelled_waiting_r3.
Proof.
  assert (ScannerService.reachable waiting_r3) as Hreach.
  { exists 2%nat, [start_r1; start_r2; start_r3]. vm_compute. reflexivity. }
  assert ("r3" ∈ ScannerService.pending_ids waiting_r3) as Hin.
  { vm_compute. by left. }
  assert (ScannerService.run (ScannerService.cancelScan waiting_r3 "r3" (Ok tt)).1
            [complete_r1] = Some cancelled_waiting_r3) as Hrun by (vm_compute; reflexivity).
  exact (cancelled_while_waiting_never_runs waiting_r3 cancelled_waiting_r3 "r3" (Ok tt)
           [complete_r1] Hreach Hin Hrun).
Defined.

(** ** The job map and the queue agree *)

Section Waiting.
Import ScannerService.

Lemma keeps_refl w : keeps_waiting w w.
Proof. by intros r Hr. Qed.

Lemma keeps_trans w1 w2 w3 : keeps_waiting w1 w2 → keeps_waiting w2 w3 → keeps_waiting w1 w3.
Proof.
  intros H12 H23 r Hr. destruct (H23 r Hr) as [H2 Hin2]. destruct (H12 r H2) as [H1 Hin1].
  auto.
Qed.

Lemma keeps_silent w w' :
  globalJobs w' = globalJobs w → scanQueue w' = scanQueue w → keeps_waiting w w'.
Proof. intros Hj Hq r. unfold status_of, pending_ids. by rewrite Hj, Hq. Qed.

Lemma keeps_update w rid st p e s :
  st ≠ PENDING → keeps_waiting w (updateJobStatus w rid st p e s).
Proof.
  intros Hne r. rewrite updateJobStatus_status, update_pending.
  destruct (decide (r = rid)) as [->|_]; [|done].
  destruct (status_of w rid); cbn; [|done]. congruence.
Qed.

Lemma keeps_listener w e : keeps_waiting w (scanStartedListener w e).
Proof.
  intros r. destruct (listener_effect w e) as (_ & Hq & _ & _ & Hs).
  unfold pending_ids. rewrite Hs, Hq.
  destruct (decide (r = q_requestId e)) as [->|_]; [|done].
  by destruct (status_of w (q_requestId e)).
Qed.

Lemma keeps_completeScan w rid err : keeps_waiting w (completeScan w rid err).
Proof.
  intros r.
  destruct (completeScan_effect w rid err)
    as (_ & _ & [(Hp & _ & Hs)|(e & x & Hp & _ & _ & Hs)]); unfold pending_ids; rewrite Hs.
  - by rewrite Hp.
  - destruct (decide (r = q_requestId e)) as [->|Hne].
    + by destruct (status_of w (q_requestId e)).
    + intros Hr. split; [done|]. rewrite Hp. cbn [map]. rewrite elem_of_cons.
      by intros [?|?].
Qed.

Lemma keeps_finalizeScan w rid sid req fin :
  keeps_waiting w (finalizeScan w rid sid req fin).1.
Proof.
  unfold finalizeScan.
  set (w1 := updateJobStatus w rid RUNNING _ _ _).
  assert (keeps_waiting w w1) as H1 by by apply keeps_update.
  assert (∀ w3, keeps_waiting w w3 →
            keeps_waiting w (completeScan (updateJobStatus w3 rid SUCCESS (Some 100) None
                               (Some "Scan completed successfully")) rid None)) as Hend.
  { intros w3 H3. eapply keeps_trans; [exact H3|].
    eapply keeps_trans; [|apply keeps_completeScan]. by apply keeps_update. }
  destruct (loadScanResults fin) as [reports|]; [|done].
  destruct (getScannerVersions fin) as [versions|]; [|done].
  destruct (uploadScanResults fin); [|done].
  assert (keeps_waiting w (persist w1 (UploadScanResults sid (attach_versions reports versions))))
    as H2.
  { eapply keeps_trans; [exact H1|]. by apply keeps_silent. }
  destruct (_ || _).
  - destruct (notifyScanComplete fin); cbn [fst]; [|done].
    apply Hend. eapply keeps_trans; [exact H2|]. by apply keeps_silent.
  - cbn [fst]. by apply Hend.
Qed.

Lemma keeps_catch w x m update : keeps_waiting w (executeScan_catch w x m update).1.
Proof.
  unfold executeScan_catch.
  assert (keeps_waiting w (track w (Cleanup (x_requestId x)))) as H2 by by apply keeps_silent.
  destruct update; cbn [fst]; [|done].
  eapply keeps_trans; [exact H2|]. eapply keeps_trans; [|by apply keeps_update].
  by apply keeps_silent.
Qed.

Lemma keeps_listener_catch w rid m : keeps_waiting w (scanStartedListener_catch w rid m).
Proof.
  unfold scanStartedListener_catch. eapply keeps_trans; [|apply keeps_completeScan].
  by apply keeps_update.
Qed.

Lemma keeps_settle w x dispatch fin update :
  keeps_waiting w (settle w x dispatch fin update).
Proof.
  unfold settle, executeScan_resume.
  assert (∀ w1 m, keeps_waiting w w1 →
            keeps_waiting w (scanStartedListener_catch (executeScan_catch w1 x m update).1
                               (x_requestId x) (executeScan_catch w1 x m update).2)) as Hthrow.
  { intros w1 m H1. eapply keeps_trans; [exact H1|].
    eapply keeps_trans; [apply keeps_catch|apply keeps_listener_catch]. }
  destruct dispatch as [?|m].
  - pose proof (keeps_finalizeScan w (x_requestId x) (x_scanId x) (x_request x) fin) as Hf.
    destruct (finalizeScan _ _ _ _ _) as [w1 [?|m]]; [done|].
    specialize (Hthrow w1 m Hf). by destruct (executeScan_catch w1 x m update).
  - specialize (Hthrow w m (keeps_refl w)). by destruct (executeScan_catch w x m update).
Qed.

(** Taking a request out of the queue and marking its job CANCELLED. *)
Lemma keeps_dequeue w rid :
  let w0 := with_queue w
              {| ScanQueue.limit := ScanQueue.limit (scanQueue w);
                 ScanQueue.running := ScanQueue.running (scanQueue w);
                 ScanQueue.pending := ScanQueue.without rid (ScanQueue.pending (scanQueue w));
                 ScanQueue.arrivals := ScanQueue.arrivals (scanQueue w) |} in
  keeps_waiting w (match globalJobs w0 !! rid with
                   | Some _ => updateJobStatus w0 rid CANCELLED None None None
                   | None => w0
                   end).
Proof.
  intros w0 r.
  assert (r ≠ rid → r ∈ pending_ids w → r ∈ pending_ids w0) as Hin.
  { intros Hne. unfold pending_ids, w0. cbn. rewrite without_ids.
    intros Hr. by apply list_elem_of_filter. }
  assert (∀ r, status_of w0 r = status_of w r) as Hs0 by done.
  destruct (globalJobs w0 !! rid) as [job|] eqn:Hjob.
  - rewrite updateJobStatus_status, update_pending.
    destruct (decide (r = rid)) as [->|Hne].
    + destruct (status_of w0 rid); by cbn.
    + rewrite Hs0. auto.
  - destruct (decide (r = rid)) as [->|Hne].
    + unfold status_of. by rewrite Hjob.
    + rewrite Hs0. auto.
Qed.

Lemma keeps_cancelScan w rid update : keeps_waiting w (cancelScan w rid update).1.
Proof.
  unfold cancelScan, ScanQueue.cancelQueuedScan. destruct (ScanQueue.is_pending _ _).
  - pose proof (keeps_dequeue w rid) as H1. cbv zeta in H1.
    destruct (globalJobs _ !! rid); [|done].
    destruct update; cbn [fst]; [|done].
    eapply keeps_trans; [exact H1|]. by apply keeps_silent.
  - destruct (globalJobs w !! rid) as [job|]; [|apply keeps_refl].
    destruct (decide (status job = RUNNING)); [|apply keeps_refl].
    assert (keeps_waiting w (updateJobStatus (track w (Cleanup rid)) rid CANCELLED
                               None None None)) as H2.
    { eapply keeps_trans; [|by apply keeps_update]. by apply keeps_silent. }
    destruct update; cbn [fst]; [|done].
    eapply keeps_trans; [exact H2|].
    eapply keeps_trans; [|apply keeps_completeScan]. by apply keeps_silent.
Qed.

Lemma waiting_kept w w' : pending_jobs_wait w → keeps_waiting w w' → pending_jobs_wait w'.
Proof. intros Hw Hk rid Hr. destruct (Hk rid Hr) as [H1 Hin]. auto. Qed.

Lemma waiting_startScan w rid request priority initialize update :
  pending_jobs_wait w →
  pending_jobs_wait (startScan w rid request priority initialize update).1.
Proof.
  intros Hw. unfold startScan. destruct initialize as [[sid iid]|m]; [|done].
  unfold ScanQueue.addToQueue, ScanQueue.addToQueue_by.
  set (e := mkQueuedScan rid sid iid request (default 0 priority) _).
  set (w1 := with_jobs _ _).
  assert (∀ r, r ≠ rid → status_of w1 r = status_of w r) as Hs1.
  { intros r Hne. unfold status_of, w1. cbn. by rewrite lookup_insert_ne. }
  assert (pending_ids w1 = pending_ids w) as Hp1 by done.
  destruct (Nat.ltb (length _) _); cbn [fire].
  - set (w2 := scanStartedListener _ e).
    assert (pending_jobs_wait w2) as H2.
    { intros r. unfold w2.
      match goal with |- context [scanStartedListener ?a e] =>
        destruct (listener_effect a e) as (_ & Hq & _ & _ & Hs) end.
      unfold pending_ids. rewrite Hs, Hq. cbn [q_requestId e].
      destruct (decide (r = rid)) as [->|Hne].
      - unfold status_of. cbn. by rewrite lookup_insert_eq.
      - change (status_of (with_queue w1 ?q) r) with (status_of w1 r). rewrite Hs1 by done.
        apply Hw. }
    destruct (Nat.ltb 0 _); [|done]. destruct update; cbn [fst]; [|done].
    eapply waiting_kept; [exact H2|]. by apply keeps_silent.
  - set (w2 := with_queue w1 _).
    assert (pending_jobs_wait w2) as H2.
    { intros r Hr. unfold pending_ids, w2. cbn. apply list_elem_of_fmap.
      destruct (decide (r = rid)) as [->|Hne].
      - exists e. split; [done|]. rewrite insert_by_perm. by left.
      - change (status_of w2 r) with (status_of w1 r) in Hr. rewrite Hs1 in Hr by done.
        apply Hw in Hr. unfold pending_ids in Hr. apply list_elem_of_fmap in Hr as (y & -> & Hy).
        exists y. split; [done|]. rewrite insert_by_perm. by right. }
    destruct (Nat.ltb 0 _); [|done]. destruct update; cbn [fst]; [|done].
    eapply waiting_kept; [exact H2|]. by apply keeps_silent.
Qed.

Lemma waiting_step w e w' : pending_jobs_wait w → step w e = Some w' → pending_jobs_wait w'.
Proof.
  intros Hw. destruct e as [rid req prio ini upd|rid d fin upd|rid upd]; cbn [step].
  - destruct (globalJobs w !! rid); [done|]. intros [= <-]. by apply waiting_startScan.
  - destruct (take_exec rid (inflight w)) as [[x rest]|]; [|done]. cbn. intros [= <-].
    eapply waiting_kept; [exact Hw|].
    eapply keeps_trans; [|apply keeps_settle]. by apply keeps_silent.
  - intros [= <-]. eapply waiting_kept; [exact Hw|apply keeps_cancelScan].
Qed.

Lemma waiting_run events : ∀ w w',
  pending_jobs_wait w → run w events = Some w' → pending_jobs_wait w'.
Proof.
  induction events as [|e events IH]; intros w w' Hw; cbn [run].
  - by intros [= <-].
  - destruct (step w e) as [w1|] eqn:Hstep; [|done]. cbn.
    apply IH. by eapply waiting_step.
Qed.

Lemma waiting_reachable w : reachable w → pending_jobs_wait w.
Proof.
  intros (limit & events & Hrun). eapply waiting_run; [|done].
  intros rid. unfold status_of. cbn. by rewrite lookup_empty.
Qed.

End Waiting.

(** X8. The job map and the queue agree: in every state the service can
    reach, a job is PENDING exactly when its request waits in the queue.
    No job is left PENDING by a cancellation or a failure, and nothing
    that was started or finished is still queued. *)
Theorem pending_iff_queued (w : ScannerService.World) (rid : string)
    (Hreach : ScannerService.reachable w) :
  ScannerService.status_of w rid = Some PENDING ↔ rid ∈ ScannerService.pending_ids w.
Proof.
  split.
  - by apply waiting_reachable.
  - by apply (consistent_reachable w Hreach).
Qed.

Lemma pending_iff_queued_witness :
  ScannerService.status_of waiting_r3 "r3" = Some PENDING
  ↔ "r3" ∈ ScannerService.pending_ids waiting_r3.
Proof.
  apply pending_iff_queued.
  exists 2%nat, [start_r1; start_r2; start_r3]. vm_compute. reflexivity.
Defined.

(** ** What the bulk loop writes *)

Section BulkRecords.
Import BulkScanService.










End BulkRecords.




(** ** Cancelling a batch *)

Section BulkCancel.
Import BulkScanService.

(** The status [queueScansInBackground] leaves on the batch record. *)
Lemma queueScansInBackground_status bw bid images outcome completed failed_ b :
  bulkScanBatch bw !! bid = Some b →
  batch_status (queueScansInBackground bw bid images outcome completed failed_) bid
  = Some match completed, failed_ with
         | Ok _, _ => BATCH_COMPLETED
         | Throw _, Ok _ => BATCH_FAILED
         | Throw _, Throw _ => b_status b
         end.
Proof.
  intros Hbb. unfold queueScansInBackground, executeQueuedScans, batch_status.
  destruct (submit_from_spec images bw bid 0%nat outcome (mkTally [] 0 0)) as [Hb _].
  destruct (submit_from _ _ _ _ _ _) as [bw1 tally]. cbn [fst] in *.
  destruct completed; [|destruct failed_]; cbn; by rewrite ?lookup_alter_eq, Hb, Hbb.
Qed.

(** The loop of [cancelBulkScan], job by job. *)
Lemma cancel_from_status requestIdOf update items : ∀ w i,
  ScannerService.consistent w → pending_jobs_wait w →
  ∀ rid st, ScannerService.status_of w rid = Some st →
    (terminal st = true →
     ScannerService.status_of (cancel_from w items i requestIdOf update) rid = Some st)
    ∧ (terminal st = false →
       (∃ item, item ∈ items ∧ requestIdOf (i_scanId item) = Some rid) →
       ScannerService.status_of (cancel_from w items i requestIdOf update) rid
       = Some CANCELLED).
Proof.
  induction items as [|item items IH]; intros w i Hc Hw rid st Hst; cbn [cancel_from].
  { split; [done|]. intros _ (item & Hin & _). by apply elem_of_nil in Hin. }
  set (w1 := match requestIdOf (i_scanId item) with
             | Some r => (ScannerService.cancelScan w r (update i)).1
             | None => w
             end).
  assert (ScannerService.consistent w1) as Hc1.
  { unfold w1. destruct (requestIdOf _); [by apply consistent_cancelScan|done]. }
  assert (pending_jobs_wait w1) as Hw1.
  { unfold w1. destruct (requestIdOf _); [|done].
    eapply waiting_kept; [exact Hw|apply keeps_cancelScan]. }
  assert (∃ st1, ScannerService.status_of w1 rid = Some st1
            ∧ (terminal st = true → st1 = st)
            ∧ (terminal st = false →
               (requestIdOf (i_scanId item) = Some rid → st1 = CANCELLED)
               ∧ (st1 = CANCELLED ∨ terminal st1 = false))) as (st1 & Hst1 & Hterm & Hlive).
  { unfold w1. destruct (requestIdOf (i_scanId item)) as [r|].
    2:{ exists st. split_and!; [done..|]. intros Hl. split; [done|by right]. }
    destruct (decide (r = rid)) as [->|Hne].
    - rewrite (cancelScan_target w rid (update i) st Hst).
      eexists. split; [reflexivity|]. split.
      + intros Ht. rewrite bool_decide_eq_false_2.
        * destruct (decide (st = RUNNING)) as [->|]; done.
        * eapply not_waiting; [done..|]. by destruct st.
      + intros Hl.
        assert ((if bool_decide (rid ∈ ScannerService.pending_ids w) then CANCELLED
                 else if decide (st = RUNNING) then CANCELLED else st) = CANCELLED) as ->.
        { destruct st; try done.
          - rewrite bool_decide_eq_true_2; [done|]. by apply Hw.
          - by destruct (bool_decide _). }
        split; [done|by left].
    - destruct (cancelScan_other w r (update i) rid Hc) as [(Hs & _)|(Hin & Hs & _)];
        [done| |].
      + exists st. rewrite Hs. split_and!; [done..|]. intros Hl.
        split; [congruence|by right].
      + exists RUNNING. split_and!; [done| |].
        * intros Ht. destruct Hc as (_ & Hpend & _). rewrite (Hpend rid Hin) in Hst.
          injection Hst as <-. done.
        * intros _. split; [congruence|by right]. }
  destruct (IH w1 (S i) Hc1 Hw1 rid st1 Hst1) as [IHterm IHlive]. split.
  - intros Ht. rewrite <- (Hterm Ht) in Ht |- *. auto.
  - intros Hl (it & Hin & Hrid). destruct (Hlive Hl) as [Hhere Hnext].
    apply elem_of_cons in Hin as [->|Hin].
    + rewrite (Hhere Hrid) in *. by apply IHterm.
    + destruct Hnext as [->|Hl1]; [by apply IHterm|]. apply IHlive; [done|]. by exists it.
Qed.

End BulkCancel.

(** X11. A batch can be cancelled only while its scans are being
    queued.  Once [queueScansInBackground] has marked the batch COMPLETED
    or FAILED, which it does as soon as the last scan is submitted,
    [cancelBulkScan] throws "... is not running" and changes nothing,
    whether or not the scans of the batch still wait or run. *)
Theorem cancelBulkScan_after_queueing (bw : BulkScanService.World) (bid : string)
    (images : list Image) (outcome : nat → Submission) (completed failed_ : Result unit)
    (requestIdOf : string → option string) (update : nat → Result unit)
    (final : Result unit) (b : Batch)
    (Hb : BulkScanService.bulkScanBatch bw !! bid = Some b)
    (Hmarked : completed = Ok tt ∨ failed_ = Ok tt) :
  let bw' := BulkScanService.queueScansInBackground bw bid images outcome completed failed_ in
  BulkScanService.cancelBulkScan bw' bid (Ok tt) requestIdOf update final
  = (bw', Throw (BulkScanService.not_running bid)).
Proof.
  cbv zeta.
  pose proof (queueScansInBackground_status bw bid images outcome completed failed_ b Hb)
    as Hst.
  unfold BulkScanService.batch_status in Hst. unfold BulkScanService.cancelBulkScan.
  set (bw' := BulkScanService.queueScansInBackground _ _ _ _ _ _) in *.
  destruct (BulkScanService.bulkScanBatch bw' !! bid) as [batch|]; [|done].
  cbn in Hst. injection Hst as Hst. rewrite Hst.
  destruct completed as [[]|m]; [done|]. destruct failed_ as [[]|m']; [done|].
  by destruct Hmarked.
Qed.

Lemma cancelBulkScan_after_queueing_witness :
  let bw' := BulkScanService.queueScansInBackground bulk1 "bulk-1" app_images all_fine
               (Ok tt) (Ok tt) in
  BulkScanService.cancelBulkScan bw' "bulk-1" (Ok tt) (λ _, Some "r1") (λ _, Ok tt) (Ok tt)
  = (bw', Throw "Bulk scan batch bulk-1 is not running").
Proof.
  assert (BulkScanService.bulkScanBatch bulk1 !! "bulk-1"
          = Some (mkBatch None 1 BATCH_RUNNING (mkPatterns None None None None) None false))
    as Hb by (vm_compute; reflexivity).
  exact (cancelBulkScan_after_queueing bulk1 "bulk-1" app_images all_fine (Ok tt) (Ok tt)
           (λ _, Some "r1") (λ _, Ok tt) (Ok tt) _ Hb (or_introl eq_refl)).
Defined.

(** X12. [cancelBulkScan] on a RUNNING batch, from a state of the scan
    service that can be reached.  It throws only what the final update of
    the batch record throws: a cancellation that fails is logged and the
    loop goes on.  Every job that a RUNNING item of the batch points to
    and that was PENDING or RUNNING is CANCELLED afterwards, a job that
    was finished keeps its status.  The items themselves are not touched,
    so they stay RUNNING; the batch is marked FAILED with the message
    "Cancelled by user" when the final update succeeds. *)
Theorem cancelBulkScan_cancels (bw : BulkScanService.World) (bid : string)
    (requestIdOf : string → option string) (update : nat → Result unit)
    (final : Result unit) (b : Batch)
    (Hreach : ScannerService.reachable (BulkScanService.service bw))
    (Hb : BulkScanService.bulkScanBatch bw !! bid = Some b)
    (Hrunning : b_status b = BATCH_RUNNING) :
  let after := BulkScanService.cancelBulkScan bw bid (Ok tt) requestIdOf update final in
  after.2 = final
  ∧ BulkScanService.bulkScanItem after.1 = BulkScanService.bulkScanItem bw
  ∧ BulkScanService.scan after.1 = BulkScanService.scan bw
  ∧ (∀ item rid st,
       item ∈ BulkScanService.items_of bw bid → i_status item = RUNNING →
       requestIdOf (i_scanId item) = Some rid →
       ScannerService.status_of (BulkScanService.service bw) rid = Some st →
       ScannerService.status_of (BulkScanService.service after.1) rid
       = Some (if terminal st then st else CANCELLED))
  ∧ (final = Ok tt →
     BulkScanService.bulkScanBatch after.1 !! bid
     = Some (mkBatch (b_name b) (b_totalImages b) BATCH_FAILED (b_patterns b)
               (Some "Cancelled by user") true)).
Proof.
  cbv zeta. unfold BulkScanService.cancelBulkScan. rewrite Hb, Hrunning.
  set (items := filter _ (BulkScanService.items_of bw bid)).
  set (w' := BulkScanService.cancel_from _ items 0 requestIdOf update).
  assert (∀ item rid st,
            item ∈ BulkScanService.items_of bw bid → i_status item = RUNNING →
            requestIdOf (i_scanId item) = Some rid →
            ScannerService.status_of (BulkScanService.service bw) rid = Some st →
            ScannerService.status_of w' rid = Some (if terminal st then st else CANCELLED))
    as Hjobs.
  { intros item rid st Hin Hrun Hrid Hst.
    destruct (cancel_from_status requestIdOf update items (BulkScanService.service bw) 0%nat
                (consistent_reachable _ Hreach) (waiting_reachable _ Hreach) rid st Hst)
      as [Hterm Hlive].
    destruct (terminal st) eqn:Ht; [by apply Hterm|]. apply Hlive; [done|].
    exists item. split; [|done]. unfold items. by apply list_elem_of_filter. }
  destruct final as [[]|m]; cbn [fst snd]; split_and!; try done.
  intros _. cbn. by rewrite lookup_alter_eq, Hb.
Qed.

Lemma cancelBulkScan_cancels_witness :
  let after := BulkScanService.cancelBulkScan queued_batch "bulk-1" (Ok tt)
                 scan_requests (λ _, Throw "db down") (Ok tt) in
  after.2 = Ok tt
  ∧ ScannerService.status_of (BulkScanService.service after.1) "r1" = Some CANCELLED
  ∧ ScannerService.status_of (BulkScanService.service after.1) "r3" = Some CANCELLED
  ∧ BulkScanService.count_status RUNNING (BulkScanService.items_of after.1 "bulk-1") = 2%nat.
Proof.
  assert (ScannerService.reachable (BulkScanService.service queued_batch)) as Hreach.
  { exists 2%nat, [start_r1; start_r2; start_r3]. vm_compute. reflexivity. }
  assert (BulkScanService.bulkScanBatch queued_batch !! "bulk-1"
          = Some (mkBatch None 2 BATCH_RUNNING (mkPatterns None None None None) None false))
    as Hb by (vm_compute; reflexivity).
  destruct (cancelBulkScan_cancels queued_batch "bulk-1" scan_requests
              (λ _, Throw "db down") (Ok tt) _ Hreach Hb eq_refl)
    as (Hres & Hitems & _ & Hjobs & _).
  split_and!.
  - exact Hres.
  - refine (Hjobs (mkItem "bulk-1" "s1" "i1" RUNNING) "r1" RUNNING _ eq_refl eq_refl _).
    + vm_compute. by left.
    + vm_compute. reflexivity.
  - refine (Hjobs (mkItem "bulk-1" "s3" "i3" RUNNING) "r3" PENDING _ eq_refl eq_refl _).
    + vm_compute. right. by left.
    + vm_compute. reflexivity.
  - unfold BulkScanService.items_of. rewrite Hitems. vm_compute. reflexivity.
Defined.

(** ** From the routes to the executor *)

Section Routes.
Import ScannerService.

(** The loop of the bulk orchestrator starts its scans with
    [bulk_scanRequest], at priority -1. *)
Lemma try_submit_request bw bid image o :
  BulkScanService.service (BulkScanService.try_submit bw bid image o).1
  = (startScan (BulkScanService.service bw) (sub_requestId o) (bulk_scanRequest image)
       (Some (-1)) (sub_initialize o) (sub_update o)).1.
Proof.
  unfold BulkScanService.try_submit, bulk_scanRequest.
  destruct (startScan _ _ _ _ _ _) as [w [res|m]]; [|done]. by destruct (sub_link o).
Qed.

(** A request that carries no [tarPath] never reaches the tar executor,
    whatever its source says. *)
Lemma executeScan_begin_no_tarPath w rid request sid iid :
  tarPath request = None →
  inflight (executeScan_begin w rid request sid iid)
  = inflight w ++ [mkExec rid request sid iid
                     (if decide (source request = Some "local")
                      then LocalDockerScan else RegistryScan)]
  ∧ tracker (executeScan_begin w rid request sid iid)
    = tracker w
      ++ (if decide (source request = Some "local") then []
          else (if decide (source request = Some "tar") then []
                else [SimulateDownloadProgress rid])
               ++ [SimulateScanningProgress rid]).
Proof.
  intros Hpath. unfold executeScan_begin, isLocalDockerScan, shouldSimulateDownload.
  rewrite Hpath. cbn [truthy]. rewrite andb_false_r.
  destruct (decide (source request = Some "local")) as [Hl|Hl].
  - rewrite bool_decide_eq_true_2 by done. cbn. by rewrite app_nil_r.
  - rewrite (bool_decide_eq_false_2 _ Hl). cbn [negb andb].
    destruct (decide (source request = Some "tar")) as [Ht|Ht].
    + by rewrite bool_decide_eq_true_2 by done.
    + rewrite bool_decide_eq_false_2 by done. cbn. by rewrite <- app_assoc.
Qed.

Lemma route_source request origin :
  built_by_route request origin → origin ≠ "local" →
  tarPath request = None
  ∧ (source request = Some "local" ↔ origin = "LOCAL_DOCKER").
Proof.
  intros [(tag & sd & im & -> & ->)|[(image & -> & ->)|(image & -> & ->)]] Hword;
    (split; [done|]); cbn.
  - unfold RescanRoute.requestSource. repeat case_decide; split; congruence.
  - unfold ScheduledScanRoute.scanSource. repeat case_decide; try (split; congruence).
    destruct (truthy (Some (img_source image))); split; congruence.
  - repeat case_decide; split; congruence.
Qed.

End Routes.

(** X13. From the three routes to the executor.  A scan requested
    through the rescan route, the scheduled-scan route or the bulk
    orchestrator is executed by the local Docker executor exactly when the
    image comes from LOCAL_DOCKER, and by the registry executor otherwise:
    none of the routes sets a [tarPath], so the tar executor is never
    used, not even for a rescan of an uploaded image, whose request has
    the source "tar".  The download is simulated for every request sent to
    the registry executor but those of source "tar".  The scheduled-scan
    route hands a source other than LOCAL_DOCKER and REGISTRY on as it is,
    so the inventory source must not itself be the word "local". *)
Theorem routes_never_reach_the_tar_executor (w : ScannerService.World)
    (rid sid iid : string) (request : ScanRequest) (origin : string)
    (Hroute : built_by_route request origin)
    (Hword : origin ≠ "local") :
  let w' := ScannerService.executeScan_begin w rid request sid iid in
  ScannerService.inflight w'
  = ScannerService.inflight w
    ++ [mkExec rid request sid iid
          (if decide (origin = "LOCAL_DOCKER") then LocalDockerScan else RegistryScan)]
  ∧ ScannerService.tracker w'
    = ScannerService.tracker w
      ++ (if decide (origin = "LOCAL_DOCKER") then []
          else (if decide (source request = Some "tar") then []
                else [SimulateDownloadProgress rid])
               ++ [SimulateScanningProgress rid]).
Proof.
  destruct (route_source request origin Hroute Hword) as [Hpath Hlocal]. cbv zeta.
  destruct (executeScan_begin_no_tarPath w rid request sid iid Hpath) as [-> ->].
  destruct (decide (origin = "LOCAL_DOCKER")) as [Ho|Ho];
    destruct (decide (source request = Some "local")) as [Hs|Hs]; try done.
  - by apply Hlocal in Ho.
  - by apply Hlocal in Hs.
Qed.

Lemma routes_never_reach_the_tar_executor_witness :
  let request := RescanRoute.scanRequest None None uploaded_image in
  let w' := ScannerService.executeScan_begin (ScannerService.init 2) "r1" request "s1" "i1" in
  ScannerService.inflight w' = [mkExec "r1" request "s1" "i1" RegistryScan]
  ∧ ScannerService.tracker w' = [SimulateScanningProgress "r1"].
Proof.
  assert (built_by_route (RescanRoute.scanRequest None None uploaded_image) "FILE_UPLOAD")
    as Hroute.
  { left. by exists None, None, uploaded_image. }
  assert ("FILE_UPLOAD" ≠ "local") as Hword by done.
  exact (routes_never_reach_the_tar_executor (ScannerService.init 2) "r1" "s1" "i1" _ _
           Hroute Hword).
Defined.

Section Rescan.
Import RescanRoute.



End Rescan.



(** ** Selecting the images of a batch *)

Section Selection.
Import BulkScanService.

Lemma replaceAll_wildcards s :
  Glob.replaceAll "%"%char EmptyString (Glob.replaceAll "*"%char "%" s)
  = without_wildcards s.
Proof.
  induction s as [|c s IH]; [done|]. cbn [Glob.replaceAll without_wildcards].
  destruct (decide (c = "*"%char)) as [->|Hstar].
  - cbn [String.append Glob.replaceAll].
    destruct (decide ("%"%char = "%"%char)); [|done]. exact IH.
  - cbn [Glob.replaceAll]. destruct (decide (c = "%"%char)); [exact IH|]. by rewrite IH.
Qed.

Lemma slice0_spec images n :
  slice0 images n
  = if Z.ltb n 0 then take (length images - Z.to_nat (- n)) images
    else take (Z.to_nat n) images.
Proof.
  unfold slice0. destruct (Z.ltb_spec n 0); [|done]. f_equal. lia.
Qed.

End Selection.

(** X15. The inventory query of [findMatchingImages] does not match
    patterns, it searches for a substring: the image and tag patterns are
    handed over with every [*] and every [%] taken out, a wildcard in the
    middle of a pattern included, so that "ng*x" asks for names that
    contain "ngx".  A pattern of wildcards only asks for names that
    contain the empty string.  The registry pattern is not looked at. *)
Theorem whereConditions_drop_wildcards (p : Patterns) :
  BulkScanService.whereConditions p
  = (if truthy (imagePattern p)
     then [NameContains (without_wildcards (default EmptyString (imagePattern p)))]
     else [])
    ++ (if truthy (tagPattern p)
        then [TagContains (without_wildcards (default EmptyString (tagPattern p)))]
        else [])
  ∧ BulkScanService.whereConditions (mkPatterns (Some "ng*x") (Some "*") None None)
    = [NameContains "ngx"; TagContains EmptyString].
Proof.
  split; [|reflexivity]. unfold BulkScanService.whereConditions.
  by rewrite !replaceAll_wildcards.
Qed.

(** X16. The limit of a bulk scan.  When [executeBulkScan] returns, the
    images it leaves to the background loop are a prefix of the selection,
    and the batch record carries their number.  A positive [maxImages]
    keeps that many images, or all when there are fewer; 0 or no limit
    keeps all.  A negative [maxImages] cuts that many images off the end:
    the check for an empty selection comes before the limit, so a batch of
    no image at all can be created and stays RUNNING. *)
Theorem executeBulkScan_limit (bw bw' : BulkScanService.World)
    (findMany : list Where → Result (list Image)) (request : BulkScanRequest)
    (bid : string) (create : Result unit) (r : BulkScanResult)
    (matching images : list Image)
    (Hfound : BulkScanService.findMatchingImages findMany (patterns request)
                (BulkScanService.excludePatterns request) = Some (Ok matching))
    (Hok : BulkScanService.executeBulkScan bw findMany request bid create
           = Some (bw', Ok (r, images))) :
  images `prefix_of` matching
  ∧ (b_totalImages <$> BulkScanService.bulkScanBatch bw' !! bid) = Some (length images)
  ∧ BulkScanService.batch_status bw' bid = Some BATCH_RUNNING
  ∧ match maxImages request with
    | None => images = matching
    | Some n =>
        if Z.eqb n 0 then images = matching
        else if Z.ltb 0 n then length images = Nat.min (Z.to_nat n) (length matching)
        else length images = (length matching - Z.to_nat (- n))%nat
    end.
Proof.
  unfold BulkScanService.executeBulkScan in Hok. rewrite Hfound in Hok. cbn in Hok.
  destruct (Nat.eqb _ _); [done|]. destruct create; [|done]. cbn in Hok.
  injection Hok as <- <- <-. unfold BulkScanService.batch_status. cbn.
  rewrite lookup_insert_eq. cbn. unfold BulkScanService.limitImages.
  destruct (maxImages request) as [n|]; [|done].
  destruct (Z.eqb_spec n 0) as [->|Hn]; [done|]. rewrite slice0_spec.
  destruct (Z.ltb_spec n 0), (Z.ltb_spec 0 n); try lia.
  - split_and!; [apply prefix_take|done..|]. rewrite length_take. lia.
  - split_and!; [apply prefix_take|done..|]. rewrite length_take. lia.
Qed.

Lemma executeBulkScan_limit_witness :
  ∃ bw' r,
    BulkScanService.executeBulkScan bulk0 app_inventory
      (mkBulkScanRequest (mkPatterns None None None None) (Some (-3)) None)
      "bulk-1" (Ok tt) = Some (bw', Ok (r, []))
    ∧ BulkScanService.batch_status bw' "bulk-1" = Some BATCH_RUNNING
    ∧ (b_totalImages <$> BulkScanService.bulkScanBatch bw' !! "bulk-1") = Some 0%nat.
Proof.
  eexists _, _. split; [vm_compute; reflexivity|].
  destruct (executeBulkScan_limit bulk0 _ app_inventory
              (mkBulkScanRequest (mkPatterns None None None None) (Some (-3)) None)
              "bulk-1" (Ok tt) _ app_images [] eq_refl eq_refl) as (_ & Htotal & Hst & _).
  exact (conj Hst Htotal).
Defined.

(** ** Executing a scheduled scan *)

Section Scheduled.
Import ScheduledScanRoute.

Lemma link_and_count_counts s resultId scanResponse o :
  match link_and_count s resultId scanResponse o with
  | (s', Ok _) =>
      (scannedCount s' + failedCount s' = S (scannedCount s + failedCount s))%nat
      ∧ (scannedCount s ≤ scannedCount s' ≤ S (scannedCount s))%nat
  | (s', Throw _) => scannedCount s' = scannedCount s ∧ failedCount s' = failedCount s
  end.
Proof.
  unfold link_and_count. destruct (truthy _).
  - destruct (turn_findScan o) as [[scanId|]|]; [|cbn; lia|done].
    destruct (turn_link o); [cbn; lia|done].
  - destruct (turn_markFailed o); [cbn; lia|done].
Qed.

(** The [try] block counts the image once, or not at all when it throws
    before counting; it has counted already when the progress update is
    what throws. *)
Lemma try_image_counts s image o :
  match try_image s image o with
  | (s', Ok _) =>
      (scannedCount s' + failedCount s' = S (scannedCount s + failedCount s))%nat
      ∧ (scannedCount s ≤ scannedCount s' ≤ S (scannedCount s))%nat
  | (s', Throw _) =>
      (scannedCount s ≤ scannedCount s' ≤ S (scannedCount s))%nat
      ∧ ((scannedCount s' + failedCount s' = scannedCount s + failedCount s)%nat
         ∨ ((scannedCount s' + failedCount s' = S (scannedCount s + failedCount s))%nat
            ∧ ∃ m, turn_progress o = Throw m))
  end.
Proof.
  unfold try_image. destruct (turn_create o) as [resultId|]; [|lia].
  set (s1 := with_results s _).
  destruct (ScannerService.startScan _ _ _ _ _ _) as [w [scanResponse|m]]; [|cbn; lia].
  pose proof (link_and_count_counts (with_service s1 w) resultId scanResponse o) as Hlink.
  destruct (link_and_count _ _ _ _) as [s3 [?|m]]; cbn in Hlink.
  - destruct (turn_progress o) as [?|m]; cbn; [lia|].
    split; [lia|]. right. split; [lia|by eexists].
  - cbn. lia.
Qed.

Lemma scan_image_counts s image o :
  match scan_image s image o with
  | (s', Ok _) =>
      (scannedCount s ≤ scannedCount s' ≤ S (scannedCount s))%nat
      ∧ (S (scannedCount s + failedCount s) ≤ scannedCount s' + failedCount s'
         ≤ S (S (scannedCount s + failedCount s)))%nat
      ∧ ((∃ u, turn_progress o = Ok u) →
         (scannedCount s' + failedCount s' = S (scannedCount s + failedCount s))%nat)
  | (s', Throw m) => turn_failedImages o = Throw m
  end.
Proof.
  unfold scan_image. pose proof (try_image_counts s image o) as Htry.
  destruct (try_image s image o) as [s1 [?|m]].
  - split_and!; [lia..|]. intros _. lia.
  - destruct (turn_failedImages o) as [?|m']; [|done]. cbn.
    destruct Htry as [Hs [Hsame|[Hmore [m' Hprogress]]]].
    + split_and!; [lia..|]. intros _. lia.
    + split_and!; [lia..|]. intros [u Hu]. congruence.
Qed.

Lemma scan_from_counts images : ∀ s i turns,
  match scan_from s images i turns with
  | (s', Ok _) =>
      (scannedCount s ≤ scannedCount s' ≤ scannedCount s + length images)%nat
      ∧ (scannedCount s + failedCount s + length images
         ≤ scannedCount s' + failedCount s'
         ≤ scannedCount s + failedCount s + 2 * length images)%nat
      ∧ ((∀ k, (i ≤ k < i + length images)%nat → ∃ u, turn_progress (turns k) = Ok u) →
         (scannedCount s' + failedCount s'
          = scannedCount s + failedCount s + length images)%nat)
  | (s', Throw m) =>
      ∃ k, (i ≤ k < i + length images)%nat ∧ turn_failedImages (turns k) = Throw m
  end.
Proof.
  induction images as [|image images IH]; intros s i turns; cbn [scan_from length].
  { split_and!; [lia..|]. intros _. lia. }
  pose proof (scan_image_counts s image (turns i)) as H1.
  destruct (scan_image s image (turns i)) as [s1 [?|m]].
  - specialize (IH s1 (S i) turns). destruct (scan_from s1 images (S i) turns) as [s2 [?|m]].
    + destruct H1 as (Ha & Hb & Hc), IH as (Hd & He & Hf). split_and!; [lia..|].
      intros Hok. rewrite Hf, Hc; [lia| |].
      * apply Hok. lia.
      * intros k Hk. apply Hok. lia.
    + destruct IH as (k & Hk & Hthrow). exists k. split; [lia|done].
  - exists i. split; [lia|done].
Qed.

End Scheduled.

(** X17. The counters of a scheduled execution.  When
    [startScanExecution] returns, the history row carries the two counters
    and the status computed from them: RUNNING when at least one image
    was counted as scanned and the failed count differs from the number
    of images, FAILED otherwise.  At most every image is counted as
    scanned, and every image is counted, but an image is counted a second
    time, as failed, when the progress update that follows its counting
    throws: the two counters add up to between once and twice the number
    of images, and to that number exactly when no progress update
    throws; then the execution is RUNNING exactly when a scan was
    counted. *)
Theorem startScanExecution_counts (w : ScannerService.World)
    (h : ScheduledScanRoute.History) (rows : gmap string ScheduledScanRoute.ResultRow)
    (images : list Image) (running final : Result unit)
    (turns : nat → ScheduledScanRoute.Turn) (s : ScheduledScanRoute.State)
    (Hreturns : ScheduledScanRoute.startScanExecution w h rows images running turns final
                = (s, Ok tt)) :
  let scanned := ScheduledScanRoute.scannedCount s in
  let failed := ScheduledScanRoute.failedCount s in
  ScheduledScanRoute.h_scannedImages (ScheduledScanRoute.history s) = scanned
  ∧ ScheduledScanRoute.h_failedImages (ScheduledScanRoute.history s) = failed
  ∧ (ScheduledScanRoute.h_status (ScheduledScanRoute.history s) = ScheduledScanRoute.H_RUNNING
     ↔ (0 < scanned)%nat ∧ failed ≠ length images)
  ∧ (ScheduledScanRoute.h_status (ScheduledScanRoute.history s) = ScheduledScanRoute.H_FAILED
     ↔ scanned = 0%nat ∨ failed = length images)
  ∧ (scanned ≤ length images)%nat
  ∧ (length images ≤ scanned + failed ≤ 2 * length images)%nat
  ∧ ((∀ k, (k < length images)%nat →
        ∃ u, ScheduledScanRoute.turn_progress (turns k) = Ok u) →
     (scanned + failed = length images)%nat
     ∧ (ScheduledScanRoute.h_status (ScheduledScanRoute.history s)
        = ScheduledScanRoute.H_RUNNING ↔ (0 < scanned)%nat)).
Proof.
  unfold ScheduledScanRoute.startScanExecution in Hreturns.
  destruct running; [|done].
  set (s0 := ScheduledScanRoute.mkState _ _ _ _ _ _) in Hreturns.
  pose proof (scan_from_counts images s0 0%nat turns) as Hloop.
  destruct (ScheduledScanRoute.scan_from s0 images 0 turns) as [s1 [?|m]]; [|done].
  destruct final; [|done]. injection Hreturns as <-. cbn in Hloop.
  destruct Hloop as (Hs & Hsum & Hexact). cbn.
  unfold ScheduledScanRoute.initial_status.
  destruct (Nat.eqb_spec (ScheduledScanRoute.failedCount s1) (length images)) as [Hf|Hf];
    destruct (Nat.eqb_spec (ScheduledScanRoute.scannedCount s1) 0) as [Hz|Hz].
  all: split_and!; try done; try lia.
  all: try (split; [done|intros []; (done || lia)]).
  all: try (split; [intros _; (by left) || (by right) || lia|done]).
  all: try (split; [intros _; lia|done]).
  all: intros Hok; (split; [apply Hexact; intros k Hk; apply Hok; lia|]).
  all: assert (ScheduledScanRoute.scannedCount s1 + ScheduledScanRoute.failedCount s1
               = length images)%nat as Hn by (apply Hexact; intros k Hk; apply Hok; lia).
  all: split; first [done|lia|intros _; lia|idtac].
Qed.

Lemma startScanExecution_counts_witness :
  let s := (ScheduledScanRoute.startScanExecution (ScannerService.init 2) history0 ∅
              two_images (Ok tt) busy_turns (Ok tt)).1 in
  ScheduledScanRoute.scannedCount s = 2%nat
  ∧ ScheduledScanRoute.failedCount s = 2%nat
  ∧ (ScheduledScanRoute.h_status (ScheduledScanRoute.history s) = ScheduledScanRoute.H_FAILED
     ↔ ScheduledScanRoute.scannedCount s = 0%nat
       ∨ ScheduledScanRoute.failedCount s = length two_images).
Proof.
  set (run := ScheduledScanRoute.startScanExecution (ScannerService.init 2) history0 ∅
                two_images (Ok tt) busy_turns (Ok tt)).
  assert (run = (run.1, Ok tt)) as Hreturns by (vm_compute; reflexivity).
  pose proof (startScanExecution_counts _ _ _ _ _ _ _ _ Hreturns) as (_ & _ & _ & Hfailed & _).
  split_and!; [vm_compute; reflexivity..|exact Hfailed].
Defined.

(** X18. What can end a scheduled execution.  When
    [startScanExecution] throws, it is the first or the last update of
    the history row that threw, or the update of the failed count in the
    [catch] block of an image, which is not guarded.  Nothing else that
    fails while an image is handled (the creation of its result row, the
    start of its scan, the look-up and the link of the scan, the progress
    update) ends the run: it is caught, counted, and the loop goes on. *)
Theorem startScanExecution_throws (w : ScannerService.World)
    (h : ScheduledScanRoute.History) (rows : gmap string ScheduledScanRoute.ResultRow)
    (images : list Image) (running final : Result unit)
    (turns : nat → ScheduledScanRoute.Turn) (s : ScheduledScanRoute.State) (m : string)
    (Hthrows : ScheduledScanRoute.startScanExecution w h rows images running turns final
               = (s, Throw m)) :
  running = Throw m
  ∨ (∃ k, (k < length images)%nat
          ∧ ScheduledScanRoute.turn_failedImages (turns k) = Throw m)
  ∨ final = Throw m.
Proof.
  unfold ScheduledScanRoute.startScanExecution in Hthrows.
  destruct running as [?|m0]; [|injection Hthrows as _ <-; by left].
  set (s0 := ScheduledScanRoute.mkState _ _ _ _ _ _) in Hthrows.
  pose proof (scan_from_counts images s0 0%nat turns) as Hloop.
  destruct (ScheduledScanRoute.scan_from s0 images 0 turns) as [s1 [?|m1]].
  - destruct final as [?|m2]; [done|]. injection Hthrows as _ <-. by right; right.
  - injection Hthrows as _ <-. destruct Hloop as (k & Hk & Hthrow).
    right; left. exists k. split; [lia|done].
Qed.

Lemma startScanExecution_throws_witness :
  ∃ k, (k < length two_images)%nat
       ∧ ScheduledScanRoute.turn_failedImages (dead_turns k) = Throw "db down".
Proof.
  set (run := ScheduledScanRoute.startScanExecution (ScannerService.init 2) history0 ∅
                two_images (Ok tt) dead_turns (Ok tt)).
  assert (run = (run.1, Throw "db down")) as Hthrows by (vm_compute; reflexivity).
  destruct (startScanExecution_throws _ _ _ _ _ _ _ _ _ Hthrows) as [Hr|[Hk|Hf]];
    [discriminate Hr|exact Hk|discriminate Hf].
Defined.

(** ** When a notification is sent *)

Section Notifying.
Import ScannerService.

Lemma occurrences_pos s l : (0 < occurrences s l)%nat ↔ s ∈ l.
Proof.
  unfold occurrences. induction l as [|x l IH].
  - cbn. split; [lia|]. intros H. by apply elem_of_nil in H.
  - rewrite filter_cons, elem_of_cons. destruct (decide (x = s)) as [->|Hne].
    + cbn. split; [by left|lia].
    + rewrite IH. split; [by right|]. intros [?|?]; [congruence|done].
Qed.

Lemma update_notifications w rid st p e s :
  notifications (updateJobStatus w rid st p e s) = notifications w.
Proof. unfold updateJobStatus. destruct (globalJobs w !! rid); [|done]. by destruct st. Qed.

Lemma begin_notifications w rid req sid iid :
  notifications (executeScan_begin w rid req sid iid) = notifications w.
Proof.
  unfold executeScan_begin. destruct (_ && _); [done|].
  destruct (isLocalDockerScan req); [done|]. by destruct (shouldSimulateDownload req).
Qed.

Lemma completeScan_notifications w rid err :
  notifications (completeScan w rid err) = notifications w.
Proof.
  unfold completeScan. destruct (ScanQueue.completeScan _ _) as [q [e|]]; [|done].
  cbn [fire]. unfold scanStartedListener. rewrite begin_notifications.
  by destruct (globalJobs _ !! _).
Qed.

Lemma severe_counts reports versions :
  let counts := calculateVulnerabilityCounts (attach_versions reports versions) in
  counts = calculateVulnerabilityCounts reports
  ∧ (Nat.ltb 0 (critical counts) || Nat.ltb 0 (high counts)
     = bool_decide ("CRITICAL" ∈ findings reports ∨ "HIGH" ∈ findings reports)).
Proof.
  cbv zeta. assert (calculateVulnerabilityCounts (attach_versions reports versions)
                    = calculateVulnerabilityCounts reports) as -> by done.
  split; [done|].
  assert (critical (calculateVulnerabilityCounts reports)
          = occurrences "CRITICAL" (findings reports)) as ->.
  { apply calculate_bucket; [|done]. intros s c. apply count_severity_buckets. }
  assert (high (calculateVulnerabilityCounts reports)
          = occurrences "HIGH" (findings reports)) as ->.
  { apply calculate_bucket; [|done]. intros s c. apply count_severity_buckets. }
  pose proof (occurrences_pos "CRITICAL" (findings reports)) as Hc.
  pose proof (occurrences_pos "HIGH" (findings reports)) as Hh.
  case_bool_decide as Hsev.
  - apply orb_true_iff. rewrite !Nat.ltb_lt. tauto.
  - apply orb_false_iff. rewrite !Nat.ltb_ge. split.
    + destruct (occurrences "CRITICAL" (findings reports)); [lia|]. exfalso. apply Hsev.
      left. apply Hc. lia.
    + destruct (occurrences "HIGH" (findings reports)); [lia|]. exfalso. apply Hsev.
      right. apply Hh. lia.
Qed.

End Notifying.

(** X19. When a scan that completed is notified.  A finalize step whose
    calls all return sends one notification, for "image:tag" with the scan
    id and the four counts, exactly when a finding of the trivy or the
    grype report has the severity CRITICAL or HIGH, in whatever case it
    is written; a scan with findings of other severities only, or with
    none, is not notified.  The scanner versions attached to the reports
    do not change the counts. *)
Theorem notified_iff_severe (w : ScannerService.World) (rid sid : string)
    (request : ScanRequest) (fin : Finalize) (reports : Reports) (versions : string)
    (Hload : loadScanResults fin = Ok reports)
    (Hversions : getScannerVersions fin = Ok versions)
    (Hupload : uploadScanResults fin = Ok tt)
    (Hnotify : notifyScanComplete fin = Ok tt) :
  (ScannerService.finalizeScan w rid sid request fin).2 = Ok tt
  ∧ ScannerService.notifications (ScannerService.finalizeScan w rid sid request fin).1
    = ScannerService.notifications w
      ++ (if bool_decide ("CRITICAL" ∈ findings reports ∨ "HIGH" ∈ findings reports)
          then [(image request +:+ ":" +:+ tag request, sid,
                 calculateVulnerabilityCounts reports)]
          else []).
Proof.
  unfold ScannerService.finalizeScan. rewrite Hload, Hversions, Hupload, Hnotify.
  destruct (severe_counts reports versions) as [-> ->].
  destruct (bool_decide _); cbn [fst snd]; (split; [done|]);
    rewrite completeScan_notifications, update_notifications; cbn;
    rewrite update_notifications; [done|by rewrite app_nil_r].
Qed.

Lemma notified_iff_severe_witness :
  ScannerService.notifications
    (ScannerService.finalizeScan running_r1 "r1" "s1" a_request fin_critical).1
  = [("app:v1", "s1", mkCounts 1 0 0 0)].
Proof.
  destruct (notified_iff_severe running_r1 "r1" "s1" a_request fin_critical _ _
              eq_refl eq_refl eq_refl eq_refl) as [_ Hn].
  rewrite Hn. vm_compute. reflexivity.
Defined.

(** ** Excluding an image by its name *)

Section Naming.
Import Glob.

Lemma literal_plain p : literal p = true → plain_glob p = true.
Proof.
  induction p as [|x p IH]; [done|]. cbn [literal plain_glob].
  rewrite !andb_true_iff. intros [[[_ _] Hu] Hp]. split; [|auto].
  rewrite Hu. by rewrite orb_true_r.
Qed.

(** A pattern matches the string that spells it. *)
Lemma compiled_match_self p : compiled_match p p = true.
Proof.
  induction p as [|x p IH]; [done|]. cbn [compiled_match].
  destruct (decide (x = "*"%char)) as [->|Hstar].
  - apply orb_true_iff. right. apply andb_true_iff. split; [done|].
    destruct p as [|c s]; [done|]. by rewrite IH.
  - rewrite IH, andb_true_r. destruct (decide (x = "?"%char)) as [->|Hq]; [done|].
    unfold atom_of. destruct (decide (x = "."%char)) as [->|Hdot]; [done|].
    cbn. by apply bool_decide_eq_true.
Qed.

(** A pattern without wildcard matches nothing but the string that spells
    it. *)
Lemma compiled_match_literal p : ∀ s, literal p = true → compiled_match p s = true → s = p.
Proof.
  induction p as [|x p IH]; intros s; cbn [literal compiled_match].
  - by destruct s.
  - rewrite !andb_true_iff, !negb_true_iff. intros [[[Hstar Hdot] Hu] Hp].
    apply bool_decide_eq_false in Hstar, Hdot.
    rewrite decide_False by done. destruct s as [|c s]; [done|].
    assert (x ≠ "?"%char) as Hq.
    { intros ->. by vm_compute in Hu. }
    rewrite decide_False by done. unfold atom_of. rewrite decide_False by done. cbn.
    rewrite andb_true_iff. intros [Hc Hs]. apply bool_decide_eq_true in Hc. subst c.
    f_equal. by apply IH.
Qed.

End Naming.

(** X20. Excluding images by name.  With exclude patterns made of [*],
    [?] and characters that are no regular-expression operators, an image
    whose "name:tag" is spelled out by one of the patterns is never among
    the images [applyExcludePatterns] returns.  When the patterns hold no
    wildcard at all, and no dot, which the code does not escape, exactly
    the images they spell out are removed. *)
Theorem applyExcludePatterns_by_name (images kept : list Image) (ps : list string)
    (Hps : Forall (λ p, Glob.plain_glob p = true) ps)
    (Hkept : BulkScanService.applyExcludePatterns images (Some ps) = Some kept) :
  (∀ image, image ∈ kept → BulkScanService.fullName image ∉ ps)
  ∧ (Forall (λ p, literal p = true) ps →
     kept = filter (λ image, BulkScanService.fullName image ∉ ps) images).
Proof.
  assert (kept = List.filter
                   (λ image, negb (existsb (λ p, Glob.compiled_match p
                                                   (BulkScanService.fullName image)) ps))
                   images) as ->.
  { destruct ps as [|p ps].
    - cbn in Hkept. injection Hkept as <-. induction images as [|i l IH]; [done|].
      cbn [List.filter existsb negb]. by f_equal.
    - unfold BulkScanService.applyExcludePatterns in Hkept.
      rewrite filter_images_compiled in Hkept by done. by injection Hkept as <-. }
  split.
  - intros image Hin Hname. apply list_elem_of_In, filter_In in Hin as [_ Hno].
    apply negb_true_iff in Hno.
    assert (existsb (λ p, Glob.compiled_match p (BulkScanService.fullName image)) ps = true)
      as Hyes; [|congruence].
    apply existsb_exists. exists (BulkScanService.fullName image).
    split; [by apply list_elem_of_In|apply compiled_match_self].
  - intros Hlit. clear Hkept. induction images as [|image images IH]; [done|].
    cbn [List.filter]. rewrite filter_cons, IH.
    destruct (existsb _ ps) eqn:Hex; cbn [negb].
    + apply existsb_exists in Hex as (p & Hp & Hm). apply list_elem_of_In in Hp.
      rewrite Forall_forall in Hlit. apply compiled_match_literal in Hm; [|by apply Hlit].
      rewrite decide_False; [done|]. intros Hout. apply Hout. by rewrite Hm.
    + rewrite decide_True; [done|]. intros Hin.
      assert (existsb (λ p, Glob.compiled_match p (BulkScanService.fullName image)) ps = true)
        as Hyes; [|congruence].
      apply existsb_exists. exists (BulkScanService.fullName image).
      split; [by apply list_elem_of_In|apply compiled_match_self].
Qed.

Lemma applyExcludePatterns_by_name_witness :
  [img "app" "v1"; img "app" "v2"]
  = filter (λ image, BulkScanService.fullName image ∉ ["app:latest"]) app_images.
Proof.
  assert (Forall (λ p, Glob.plain_glob p = true) ["app:latest"]) as Hps
    by (repeat constructor).
  assert (Forall (λ p, literal p = true) ["app:latest"]) as Hlit by (repeat constructor).
  exact (proj2 (applyExcludePatterns_by_name app_images _ ["app:latest"] Hps eq_refl) Hlit).
Defined.
